(** * An LRU cache with TTL expiration: the cache engine of cache-thread

    Shallow embedding of [internal/models/model.cache.go] and
    [internal/service/service.cache.go].

    The Go code keeps every entry in a map from keys to pointers and threads
    the same entries on a doubly linked list between two sentinel nodes.
    The embedding keeps that shape: entries live in a heap indexed by
    addresses, [Prev] and [Next] are pointers (possibly nil), and the methods
    are programs of a small state-and-failure monad in which dereferencing
    nil fails.

    The wall clock is an oracle read by [time_Now]; instants and durations
    are unbounded integers of nanoseconds.  The [int64] counters wrap around.
    The mutex is not represented: every method runs as one critical section,
    and the goroutine of the sweeper appears only through the sweeps it
    performs. *)

From Stdlib Require Import ZArith Lia.
From stdpp Require Import gmap strings list.

(** A pointer to an entry: an address, or nil. *)
Abbreviation ptr := (option nat) (only parsing).

(** ** Machine integers and time *)

(** [int64] arithmetic wraps around. *)
Definition wrap64 (z : Z) : Z := ((z + 2 ^ 63) mod 2 ^ 64 - 2 ^ 63)%Z.
Definition incr64 (z : Z) : Z := wrap64 (z + 1).
Definition max_int64 : Z := (2 ^ 63 - 1)%Z.

(** A [time.Time] is the number of nanoseconds since the Unix epoch; a
    [time.Duration] is a number of nanoseconds. *)
Definition Unix (t : Z) : Z := (t / 1000000000)%Z.
Definition Add (t d : Z) : Z := (t + d)%Z.
Definition Second : Z := 1000000000%Z.
(** The zero [time.Time] is January 1, year 1, 00:00 UTC. *)
Definition zeroTime : Z := (-62135596800 * 1000000000)%Z.

Section Cache.

(** The values stored ([interface{}]) are opaque; [nilValue] is the nil
    interface. *)
Context {V : Type}.
Variable nilValue : V.

(** ** models.CacheEntry *)

Record CacheEntry := mkEntry {
  Key : string;
  Value : V;
  Expiration : Z;   (* Unix timestamp, 0 means no expiration *)
  CreatedAt : Z;
  AccessedAt : Z;
  Prev : ptr;
  Next : ptr
}.

Definition zeroEntry : CacheEntry :=
  mkEntry "" nilValue 0 zeroTime zeroTime None None.

Definition withValue (v : V) (e : CacheEntry) : CacheEntry :=
  mkEntry (Key e) v (Expiration e) (CreatedAt e) (AccessedAt e) (Prev e) (Next e).
Definition withExpiration (x : Z) (e : CacheEntry) : CacheEntry :=
  mkEntry (Key e) (Value e) x (CreatedAt e) (AccessedAt e) (Prev e) (Next e).
Definition withAccessedAt (t : Z) (e : CacheEntry) : CacheEntry :=
  mkEntry (Key e) (Value e) (Expiration e) (CreatedAt e) t (Prev e) (Next e).
Definition withPrev (p : ptr) (e : CacheEntry) : CacheEntry :=
  mkEntry (Key e) (Value e) (Expiration e) (CreatedAt e) (AccessedAt e) p (Next e).
Definition withNext (n : ptr) (e : CacheEntry) : CacheEntry :=
  mkEntry (Key e) (Value e) (Expiration e) (CreatedAt e) (AccessedAt e) (Prev e) n.

(** ** models.GetResponse and models.BulkGetResponse *)

Record GetResponse := mkGetResponse {
  rKey : string;
  rValue : V;
  rFound : bool;
  rExpired : bool;
  rCreatedAt : Z;
  rAccessedAt : Z
}.

(** [Found] and [NotFound] are Go [int]s; they count elements of a slice, so
    they stay below its length and never wrap. *)
Record BulkGetResponse := mkBulkGetResponse {
  Results : gmap string GetResponse;
  Found : Z;
  NotFound : Z
}.

(** ** service.CacheService, the heap it points into, and the clock

    The fields of the struct, followed by the heap of entries and the clock
    oracle: the [n]-th call of [time.Now] returns [clock n].  The mutex and
    the two channels are left out: every method below runs as one critical
    section. *)

Record World := mkWorld {
  data : gmap string ptr;
  head : ptr;               (* Most recently used *)
  tail : ptr;               (* Least recently used *)
  maxSize : Z;
  defaultTTL : Z;
  startTime : Z;
  hits : Z;
  misses : Z;
  evictions : Z;
  expiredRemovals : Z;
  heap : gmap nat CacheEntry;
  clock : nat → Z;
  ticks : nat
}.

Definition set_data (d : gmap string ptr) (w : World) : World :=
  mkWorld d (head w) (tail w) (maxSize w) (defaultTTL w) (startTime w) (hits w)
    (misses w) (evictions w) (expiredRemovals w) (heap w) (clock w) (ticks w).
Definition set_head (p : ptr) (w : World) : World :=
  mkWorld (data w) p (tail w) (maxSize w) (defaultTTL w) (startTime w) (hits w)
    (misses w) (evictions w) (expiredRemovals w) (heap w) (clock w) (ticks w).
Definition set_tail (p : ptr) (w : World) : World :=
  mkWorld (data w) (head w) p (maxSize w) (defaultTTL w) (startTime w) (hits w)
    (misses w) (evictions w) (expiredRemovals w) (heap w) (clock w) (ticks w).
Definition set_hits (z : Z) (w : World) : World :=
  mkWorld (data w) (head w) (tail w) (maxSize w) (defaultTTL w) (startTime w) z
    (misses w) (evictions w) (expiredRemovals w) (heap w) (clock w) (ticks w).
Definition set_misses (z : Z) (w : World) : World :=
  mkWorld (data w) (head w) (tail w) (maxSize w) (defaultTTL w) (startTime w) (hits w)
    z (evictions w) (expiredRemovals w) (heap w) (clock w) (ticks w).
Definition set_evictions (z : Z) (w : World) : World :=
  mkWorld (data w) (head w) (tail w) (maxSize w) (defaultTTL w) (startTime w) (hits w)
    (misses w) z (expiredRemovals w) (heap w) (clock w) (ticks w).
Definition set_expiredRemovals (z : Z) (w : World) : World :=
  mkWorld (data w) (head w) (tail w) (maxSize w) (defaultTTL w) (startTime w) (hits w)
    (misses w) (evictions w) z (heap w) (clock w) (ticks w).
Definition set_heap (h : gmap nat CacheEntry) (w : World) : World :=
  mkWorld (data w) (head w) (tail w) (maxSize w) (defaultTTL w) (startTime w) (hits w)
    (misses w) (evictions w) (expiredRemovals w) h (clock w) (ticks w).
Definition set_ticks (n : nat) (w : World) : World :=
  mkWorld (data w) (head w) (tail w) (maxSize w) (defaultTTL w) (startTime w) (hits w)
    (misses w) (evictions w) (expiredRemovals w) (heap w) (clock w) n.

(** ** The monad: state, and failure for a nil dereference *)

Definition M (A : Type) : Type := World → option (A * World).

Definition ret {A} (a : A) : M A := λ w, Some (a, w).
Definition bind {A B} (m : M A) (k : A → M B) : M B :=
  λ w, match m w with
       | Some (a, w') => k a w'
       | None => None
       end.

Notation "'do' x <- m ; k" := (bind m (λ x, k))
  (at level 10, x name, m at level 100, k at level 200).
Notation "m ;; k" := (bind m (λ _, k))
  (at level 100, k at level 200, right associativity).

Definition gets {A} (f : World → A) : M A := λ w, Some (f w, w).
Definition modify (f : World → World) : M unit := λ w, Some (tt, f w).

(** [time.Now()] *)
Definition time_Now : M Z :=
  λ w, Some (clock w (ticks w), set_ticks (S (ticks w)) w).

(** [*p] *)
Definition load (p : ptr) : M CacheEntry :=
  λ w, match p with
       | Some a => match heap w !! a with
                   | Some e => Some (e, w)
                   | None => None
                   end
       | None => None
       end.

(** [p.f = x], as the update [f] of the entry at [p] *)
Definition assign (p : ptr) (f : CacheEntry → CacheEntry) : M unit :=
  λ w, match p with
       | Some a => match heap w !! a with
                   | Some e => Some (tt, set_heap (<[a := f e]> (heap w)) w)
                   | None => None
                   end
       | None => None
       end.

(** [&models.CacheEntry{...}] *)
Definition new (e : CacheEntry) : M ptr :=
  λ w, let a := fresh (dom (heap w)) in
       Some (Some a, set_heap (<[a := e]> (heap w)) w).

(** ** Methods of models.CacheEntry *)

Definition IsExpired (ce : ptr) : M bool :=
  do e <- load ce;
  if (Expiration e =? 0)%Z then ret false
  else do now <- time_Now; ret (Unix now >? Expiration e)%Z.

Definition UpdateAccessTime (ce : ptr) : M unit :=
  do now <- time_Now; assign ce (withAccessedAt now).

(** [remaining] is a difference of two [int64]s, which wraps. *)
Definition GetTTL (ce : ptr) : M Z :=
  do e <- load ce;
  if (Expiration e =? 0)%Z then ret (-1)%Z
  else
    do now <- time_Now;
    let remaining := wrap64 (Expiration e - Unix now) in
    if (remaining <? 0)%Z then ret 0%Z else ret remaining.

Definition ToResponse (ce : ptr) : M GetResponse :=
  do e <- load ce;
  do expired <- IsExpired ce;
  ret (mkGetResponse (Key e) (Value e) true expired (CreatedAt e) (AccessedAt e)).

(** ** Internal methods for LRU management *)

Definition addToHead (entry : ptr) : M unit :=
  do h <- gets head;
  assign entry (withPrev h);;
  do h <- gets head; do eh <- load h;
  assign entry (withNext (Next eh));;
  do h <- gets head; do eh <- load h;
  assign (Next eh) (withPrev entry);;
  do h <- gets head;
  assign h (withNext entry).

Definition removeFromList (entry : ptr) : M unit :=
  do e <- load entry;
  assign (Prev e) (withNext (Next e));;
  do e <- load entry;
  assign (Next e) (withPrev (Prev e)).

Definition moveToHead (entry : ptr) : M unit :=
  removeFromList entry;;
  addToHead entry.

Definition removeEntry (entry : ptr) : M unit :=
  do e <- load entry;
  modify (λ w, set_data (delete (Key e) (data w)) w);;
  removeFromList entry.

Definition evictLRU : M unit :=
  do t <- gets tail; do et <- load t;
  do h <- gets head;
  if decide (Prev et ≠ h) then
    let lru := Prev et in
    removeEntry lru;;
    modify (λ w, set_evictions (incr64 (evictions w)) w)
  else ret tt.

(** ** Public methods *)

(** The world before the constructor runs: no service, an empty heap, and
    the clock [clk] not yet read. *)
Definition blank (clk : nat → Z) : World :=
  mkWorld ∅ None None 0 0 zeroTime 0 0 0 0 ∅ clk 0.

Definition NewCacheService (maxSize0 defaultTTL0 : Z) : M unit :=
  do now <- time_Now;
  modify (λ w, mkWorld ∅ None None maxSize0 defaultTTL0 now 0 0 0 0
                 (heap w) (clock w) (ticks w));;
  do h <- new zeroEntry;
  modify (set_head h);;
  do t <- new zeroEntry;
  modify (set_tail t);;
  do h <- gets head; do t <- gets tail;
  assign h (withNext t);;
  do t <- gets tail; do h <- gets head;
  assign t (withPrev h).

(** The error of [Put] is [nil] ([None]) or a message. *)
Definition Put (key : string) (value : V) (ttl : option Z) : M (option string) :=
  if decide (key = "") then ret (Some "key cannot be empty")
  else
    do dflt <- gets defaultTTL;
    do expiration <-
      (match ttl with
       | Some t =>
           if (0 <? t)%Z then do now <- time_Now; ret (Unix (Add now t))
           else if (0 <? dflt)%Z then do now <- time_Now; ret (Unix (Add now dflt))
           else ret 0%Z
       | None =>
           if (0 <? dflt)%Z then do now <- time_Now; ret (Unix (Add now dflt))
           else ret 0%Z
       end);
    do now <- time_Now;
    do d <- gets data;
    match d !! key with
    | Some entry =>
        assign entry (withValue value);;
        assign entry (withExpiration expiration);;
        assign entry (withAccessedAt now);;
        moveToHead entry;;
        ret None
    | None =>
        do entry <- new (mkEntry key value expiration now now None None);
        do len <- gets (λ w, Z.of_nat (size (data w)));
        do cap <- gets maxSize;
        (if (cap <=? len)%Z then evictLRU else ret tt);;
        modify (λ w, set_data (<[key := entry]> (data w)) w);;
        addToHead entry;;
        ret None
    end.

Definition Get (key : string) : M (ptr * bool) :=
  if decide (key = "") then ret (None, false)
  else
    do d <- gets data;
    match d !! key with
    | None =>
        modify (λ w, set_misses (incr64 (misses w)) w);;
        ret (None, false)
    | Some entry =>
        do expired <- IsExpired entry;
        if expired then
          removeEntry entry;;
          modify (λ w, set_expiredRemovals (incr64 (expiredRemovals w)) w);;
          modify (λ w, set_misses (incr64 (misses w)) w);;
          ret (None, false)
        else
          UpdateAccessTime entry;;
          moveToHead entry;;
          modify (λ w, set_hits (incr64 (hits w)) w);;
          ret (entry, true)
    end.

Definition Delete (key : string) : M (bool * bool) :=
  if decide (key = "") then ret (false, false)
  else
    do d <- gets data;
    match d !! key with
    | None => ret (false, false)
    | Some entry => removeEntry entry;; ret (true, true)
    end.

Definition Clear : M Z :=
  do itemsCleared <- gets (λ w, Z.of_nat (size (data w)));
  modify (set_data ∅);;
  do h <- gets head; do t <- gets tail;
  assign h (withNext t);;
  do t <- gets tail; do h <- gets head;
  assign t (withPrev h);;
  ret itemsCleared.

(** [BulkGet]: the loop over [keys], threading [response]. *)
Fixpoint BulkGet_loop (keys : list string) (response : BulkGetResponse)
    : M BulkGetResponse :=
  match keys with
  | [] => ret response
  | key :: keys' =>
      do r <- Get key;
      let '(entry, found) := r in
      do response' <-
        (if found then
           do resp <- ToResponse entry;
           ret (mkBulkGetResponse (<[key := resp]> (Results response))
                  (Found response + 1) (NotFound response))
         else
           ret (mkBulkGetResponse
                  (<[key := mkGetResponse key nilValue false false zeroTime zeroTime]>
                     (Results response))
                  (Found response) (NotFound response + 1)));
      BulkGet_loop keys' response'
  end.

Definition BulkGet (keys : list string) : M BulkGetResponse :=
  BulkGet_loop keys (mkBulkGetResponse ∅ 0 0).

(** [cleanupExpired]: Go ranges over the map in an unspecified order;
    [order] is the order in which this pass visits the keys.  What is proved
    below about a sweep holds for every list [order]. *)
Fixpoint collectExpired (order : list string) (expiredKeys : list string)
    : M (list string) :=
  match order with
  | [] => ret expiredKeys
  | key :: order' =>
      do d <- gets data;
      match d !! key with
      | Some entry =>
          do expired <- IsExpired entry;
          collectExpired order' (if expired then expiredKeys ++ [key] else expiredKeys)
      | None => collectExpired order' expiredKeys
      end
  end.

Fixpoint removeExpired (expiredKeys : list string) : M unit :=
  match expiredKeys with
  | [] => ret tt
  | key :: rest =>
      do d <- gets data;
      match d !! key with
      | Some entry =>
          removeEntry entry;;
          modify (λ w, set_expiredRemovals (incr64 (expiredRemovals w)) w);;
          removeExpired rest
      | None => removeExpired rest
      end
  end.

Definition cleanupExpired (order : list string) : M unit :=
  do expiredKeys <- collectExpired order [];
  removeExpired expiredKeys.

(** ** Histories of operations

    The operations a client mixes: the five that change the cache, and
    [OpNow] for a reading of the clock by anything else ([ToResponse],
    [GetStats], a handler), which moves the oracle on.  The bulk operations
    are chains of these. *)

Inductive Op :=
| OpPut (key : string) (value : V) (ttl : option Z)
| OpGet (key : string)
| OpDelete (key : string)
| OpClear
| OpSweep (order : list string)
| OpNow.

Definition step (o : Op) : M unit :=
  match o with
  | OpPut key value ttl => Put key value ttl;; ret tt
  | OpGet key => Get key;; ret tt
  | OpDelete key => Delete key;; ret tt
  | OpClear => Clear;; ret tt
  | OpSweep order => cleanupExpired order
  | OpNow => time_Now;; ret tt
  end.

Fixpoint run (ops : list Op) : M unit :=
  match ops with
  | [] => ret tt
  | o :: ops' => step o;; run ops'
  end.

(** The key an operation reads with [Get], if it is a [Get]. *)
Definition get_key (o : Op) : option string :=
  match o with
  | OpGet key => Some key
  | _ => None
  end.

(** ** The representation invariant *)

(** Views of the heap: the two link fields, the key, and the rest. *)
Definition nxt (h : gmap nat CacheEntry) (x : nat) : option nat := h !! x ≫= Next.
Definition prv (h : gmap nat CacheEntry) (x : nat) : option nat := h !! x ≫= Prev.
Definition key_at (h : gmap nat CacheEntry) (x : nat) : option string := Key <$> h !! x.

(** [c] is a doubly linked chain: each node points forward to its successor
    and the successor points back. *)
Fixpoint linked (N P : nat → option nat) (c : list nat) : Prop :=
  match c with
  | [] => True
  | x :: r =>
      match r with
      | [] => True
      | y :: _ => N x = Some y ∧ P y = Some x
      end ∧ linked N P r
  end.

(** The list between the sentinels [hd] and [tl] is [l], from the most
    recently used entry to the least recently used one. *)
Definition dll (h : gmap nat CacheEntry) (hd tl : nat) (l : list nat) : Prop :=
  NoDup (hd :: l ++ [tl]) ∧ linked (nxt h) (prv h) (hd :: l ++ [tl]).

(** The index holds exactly the entries of the list, each under its key. *)
Definition indexed (d : gmap string ptr) (h : gmap nat CacheEntry) (l : list nat) : Prop :=
  ∀ k p, d !! k = Some p ↔ ∃ a, p = Some a ∧ a ∈ l ∧ key_at h a = Some k.

(** [head] and [tail] point to the sentinels, the entries between them are
    [l], and the index holds exactly these. *)
Definition Repr (w : World) (l : list nat) : Prop :=
  ∃ hd tl, head w = Some hd ∧ tail w = Some tl ∧
           dll (heap w) hd tl l ∧ indexed (data w) (heap w) l.

(** The nodes of the list, sentinels included. *)
Definition nodes (w : World) (l : list nat) : list ptr :=
  head w :: (Some <$> l) ++ [tail w].

(** The keys of the entries of the list, in the same order. *)
Definition keyed (h : gmap nat CacheEntry) (l : list nat) (K : list string) : Prop :=
  Forall2 (λ a k, key_at h a = Some k) l K.

(** The cache holds the keys [K], from the most recently used to the least
    recently used. *)
Definition Abs (w : World) (K : list string) : Prop :=
  ∃ l, Repr w l ∧ keyed (heap w) l K.

(** Well-formed states: the invariant above, and the empty string is not a
    key. *)
Definition WF (w : World) : Prop := ∃ K, Abs w K ∧ "" ∉ K.

(** The state a client gets from the constructor and then [ops]. *)
Definition reach (maxSize0 defaultTTL0 : Z) (clk : nat → Z) (ops : list Op)
    : option World :=
  snd <$> (NewCacheService maxSize0 defaultTTL0;; run ops) (blank clk).

(** ** Recency, from the history

    An operation touches a key when it is a successful write of the key or a
    successful read of it. *)
Definition touched (o : Op) (w : World) : option string :=
  match o with
  | OpPut key _ _ => if decide (key = "") then None else Some key
  | OpGet key =>
      match Get key w with
      | Some ((_, true), _) => Some key
      | _ => None
      end
  | _ => None
  end.

(** [lastTouch ops w n stamps]: run [ops] from [w], the first of them being
    the [n]-th operation of the history, and record for each key the number
    of the last operation that touched it. *)
Fixpoint lastTouch (ops : list Op) (w : World) (n : nat) (stamps : gmap string nat)
    : gmap string nat :=
  match ops with
  | [] => stamps
  | o :: ops' =>
      match step o w with
      | Some (_, w') =>
          lastTouch ops' w' (S n)
            (match touched o w with
             | Some key => <[key := n]> stamps
             | None => stamps
             end)
      | None => stamps
      end
  end.

(** The last touches of a history that starts at the constructor. *)
Definition history (maxSize0 defaultTTL0 : Z) (clk : nat → Z) (ops : list Op)
    : gmap string nat :=
  match NewCacheService maxSize0 defaultTTL0 (blank clk) with
  | Some (_, w0) => lastTouch ops w0 0 ∅
  | None => ∅
  end.

(** The keys of [K] carry strictly decreasing stamps, all below [bound]. *)
Fixpoint recent (stamps : gmap string nat) (bound : nat) (K : list string) : Prop :=
  match K with
  | [] => True
  | k :: K' => ∃ s, stamps !! k = Some s ∧ s < bound ∧ recent stamps s K'
  end.

(** ** Bulk reads, as a chain of reads

    [bulk_steps keys w outs w']: [Get] runs once for each element of [keys],
    in order, each on the state the previous one left, and [outs] lists what
    they found.  Between two of them the state is the same, except that the
    clock has been read once more after a successful read (by [ToResponse],
    when the entry has an expiration). *)
Inductive bulk_steps : list string → World → list bool → World → Prop :=
| bulk_steps_nil w : bulk_steps [] w [] w
| bulk_steps_cons key keys w p found w1 w2 outs w3 :
    Get key w = Some ((p, found), w1) →
    (w2 = w1 ∨ found = true ∧ w2 = set_ticks (S (ticks w1)) w1) →
    bulk_steps keys w2 outs w3 →
    bulk_steps (key :: keys) w (found :: outs) w3.

(** How many of the outcomes are [b]. *)
Definition tally (b : bool) (outs : list bool) : nat :=
  length (filter (λ x, x = b) outs).

(** How many reads count as a miss: those of a non-empty key that found
    nothing. *)
Definition missed (keys : list string) (outs : list bool) : nat :=
  length (filter (λ ko : string * bool, ko.1 ≠ "" ∧ ko.2 = false) (zip keys outs)).

(** What [IsExpired] answers for the entry [e] when the clock reads [now]. *)
Definition expiredAt (e : CacheEntry) (now : Z) : bool :=
  negb (Expiration e =? 0)%Z && (Unix now >? Expiration e)%Z.

(** The world after [IsExpired] on [e]: the clock is read only when the
    entry has an expiration. *)
Definition afterIsExpired (e : CacheEntry) (w : World) : World :=
  if (Expiration e =? 0)%Z then w else set_ticks (S (ticks w)) w.

(** The TTL that [Put] applies: the explicit one if positive, else the
    default one if positive, else none. *)
Definition effectiveTTL (ttl : option Z) (dflt : Z) : option Z :=
  match ttl with
  | Some t => if (0 <? t)%Z then Some t
              else if (0 <? dflt)%Z then Some dflt else None
  | None => if (0 <? dflt)%Z then Some dflt else None
  end.

(** The expiration that [Put] stores, and the clock after [Put] computed it. *)
Definition putExpiration (ttl : option Z) (w : World) : Z :=
  match effectiveTTL ttl (defaultTTL w) with
  | Some t => Unix (Add (clock w (ticks w)) t)
  | None => 0
  end.
Definition putTicks (ttl : option Z) (w : World) : nat :=
  match effectiveTTL ttl (defaultTTL w) with
  | Some _ => S (ticks w)
  | None => ticks w
  end.

(** The key that [Put] of a new key evicts from a cache holding [K]. *)
Definition lruVictim (w : World) (K : list string) : option string :=
  if (maxSize w <=? Z.of_nat (length K))%Z then last K else None.

(** What no method changes after construction. *)
Definition config_same (w w' : World) : Prop :=
  maxSize w' = maxSize w ∧ defaultTTL w' = defaultTTL w ∧ clock w' = clock w ∧
  head w' = head w ∧ tail w' = tail w ∧ startTime w' = startTime w.

(** An entry without its links, and heaps that differ in links only. *)
Definition payload (e : CacheEntry) : CacheEntry := withPrev None (withNext None e).
Definition pay (h : gmap nat CacheEntry) (x : nat) : option CacheEntry := payload <$> h !! x.
Definition same_payload (h h' : gmap nat CacheEntry) : Prop := ∀ x, pay h' x = pay h x.

(** What [Put] does once the key is known to be non-empty and the clock has
    been read. *)
Definition Put_body (key : string) (value : V) (expiration now : Z)
    : M (option string) :=
  do d <- gets data;
  match d !! key with
  | Some entry =>
      assign entry (withValue value);;
      assign entry (withExpiration expiration);;
      assign entry (withAccessedAt now);;
      moveToHead entry;;
      ret None
  | None =>
      do entry <- new (mkEntry key value expiration now now None None);
      do len <- gets (λ w, Z.of_nat (size (data w)));
      do cap <- gets maxSize;
      (if (cap <=? len)%Z then evictLRU else ret tt);;
      modify (λ w, set_data (<[key := entry]> (data w)) w);;
      addToHead entry;;
      ret None
  end.

(** * The rest of the models and of the service *)

(** ** models.CacheEntry.SetExpiration *)

Definition SetExpiration (ce : ptr) (ttl : Z) : M unit :=
  if (0 <? ttl)%Z then
    do now <- time_Now; assign ce (withExpiration (Unix (Add now ttl)))
  else assign ce (withExpiration 0).

(** ** models.PutRequest, models.BulkPutResponse and BulkPut

    [TTL] is a pointer to an [int] of seconds; an [int] has 64 bits. *)

Record PutRequest := mkPutRequest {
  pKey : string;
  pValue : V;
  pTTL : option Z
}.

Record BulkPutResponse := mkBulkPutResponse {
  Successful : Z;
  Failed : Z;
  Errors : list string
}.

(** [time.Duration(t) * time.Second], an [int64] product. *)
Definition seconds (t : Z) : Z := wrap64 (t * Second).

(** The duration that [BulkPut] hands to [Put] for an item. *)
Definition itemTTL (item : PutRequest) : option Z :=
  match pTTL item with
  | Some t => if (0 <? t)%Z then Some (seconds t) else None
  | None => None
  end.

(** [fmt.Sprintf("Key '%s': %v", key, err)] *)
Definition keyError (key err : string) : string :=
  ("Key '" ++ key ++ "': " ++ err)%string.

Fixpoint BulkPut_loop (items : list PutRequest) (response : BulkPutResponse)
    : M BulkPutResponse :=
  match items with
  | [] => ret response
  | item :: items' =>
      let ttl := itemTTL item in
      do err <- Put (pKey item) (pValue item) ttl;
      match err with
      | Some msg =>
          BulkPut_loop items'
            (mkBulkPutResponse (Successful response) (Failed response + 1)
               (Errors response ++ [keyError (pKey item) msg]))
      | None =>
          BulkPut_loop items'
            (mkBulkPutResponse (Successful response + 1) (Failed response)
               (Errors response))
      end
  end.

Definition BulkPut (items : list PutRequest) : M BulkPutResponse :=
  BulkPut_loop items (mkBulkPutResponse 0 0 []).

(** ** ListKeys

    As for the sweep, [order] is the order in which Go ranges over the map:
    the loop meets the keys of the map among [order], in that order. *)

Fixpoint ListKeys_loop (order : list string) (keys : list string) : M (list string) :=
  match order with
  | [] => ret keys
  | key :: order' =>
      do d <- gets data;
      match d !! key with
      | Some _ => ListKeys_loop order' (keys ++ [key])
      | None => ListKeys_loop order' keys
      end
  end.

Definition ListKeys (order : list string) : M (list string) :=
  ListKeys_loop order [].

(** [order] is one of the orders in which Go can range over the map [d]. *)
Definition ranges (d : gmap string ptr) (order : list string) : Prop :=
  NoDup order ∧ (list_to_set order : gset string) = dom d.

(** ** GetConfiguration *)

Record CacheConfiguration := mkCacheConfiguration {
  cMaxSize : Z;
  cDefaultTTL : Z;
  cCleanupInterval : Z;
  cStartTime : Z
}.

Definition GetConfiguration : M CacheConfiguration :=
  do ms <- gets maxSize;
  do dttl <- gets defaultTTL;
  do st <- gets startTime;
  ret (mkCacheConfiguration ms dttl (30 * Second) st).

(** ** GetStats

    [float64] and the two library functions used on it and on durations are
    parameters: [float64_quot a b] is [float64(a) / float64(b)], and
    [Duration_String] is [time.Duration.String]. *)

(** [t.Sub(u)]: the difference, kept within the range of a [Duration]. *)
Definition Sub (t u : Z) : Z :=
  Z.max (- 2 ^ 63) (Z.min max_int64 (t - u)).

Section Stats.

Context {F : Type}.
Variable float64_zero : F.
Variable float64_quot : Z → Z → F.
Variable Duration_String : Z → string.

Record CacheStats := mkCacheStats {
  sHits : Z;
  sMisses : Z;
  sHitRate : F;
  sTotalRequests : Z;
  sCurrentSize : Z;
  sMaxSize : Z;
  sEvictions : Z;
  sExpiredRemovals : Z;
  sUptime : string
}.

Definition GetStats : M CacheStats :=
  do h <- gets hits;
  do m <- gets misses;
  let totalRequests := wrap64 (h + m) in
  let hitRate :=
    if (0 <? totalRequests)%Z then float64_quot h totalRequests else float64_zero in
  do now <- time_Now;
  do st <- gets startTime;
  let uptime := Duration_String (Sub now st) in
  do h <- gets hits; do m <- gets misses;
  do len <- gets (λ w, Z.of_nat (size (data w)));
  do ms <- gets maxSize;
  do ev <- gets evictions;
  do er <- gets expiredRemovals;
  ret (mkCacheStats h m hitRate totalRequests len ms ev er uptime).

End Stats.

(** ** handler.CacheHandler.GetKeys

    The handler answers with a status and a body.  What it reads from the
    request is the [limit] query parameter, if there is one; [Atoi] is
    [strconv.Atoi], a parameter, with [None] for an error.  The handler calls
    [ListKeys] three times, and each call may range in its own order. *)

Section Handler.

Variable Atoi : string → option Z.

Record KeysResponse := mkKeysResponse {
  kKeys : list string;
  kCount : Z;
  kLimited : bool;
  kTotalKeys : Z
}.

(** The limit that [GetKeys] applies. *)
Definition keysLimit (limitQuery : option string) : Z :=
  let limitStr := default "100" limitQuery in
  match Atoi limitStr with
  | Some limit => if (limit <=? 0)%Z then 100%Z else limit
  | None => 100%Z
  end.

Definition handler_GetKeys (limitQuery : option string)
    (order1 order2 order3 : list string) : M (Z * KeysResponse) :=
  let limit := keysLimit limitQuery in
  do allKeys <- ListKeys order1;
  let allKeys :=
    if (limit <? Z.of_nat (length allKeys))%Z then take (Z.to_nat limit) allKeys
    else allKeys in
  do keys2 <- ListKeys order2;
  do keys3 <- ListKeys order3;
  ret (200%Z,
       mkKeysResponse allKeys (Z.of_nat (length allKeys))
         (limit <? Z.of_nat (length keys2))%Z (Z.of_nat (length keys3))).

End Handler.

(** ** handler.CacheHandler.Get and handler.CacheHandler.Delete

    [key] is what [c.Param("key")] gives; the answer is the status and the
    body handed to [c.JSON]. *)

Record ErrorResponse := mkErrorResponse {
  eError : string;
  eCode : string;
  eMessage : string
}.

Record DeleteResponse := mkDeleteResponse {
  dKey : string;
  dDeleted : bool;
  dFound : bool
}.

Definition missingKey : ErrorResponse :=
  mkErrorResponse "Key parameter is required" "MISSING_KEY"
    "Please provide a valid key parameter".

Definition handler_Get (key : string) : M (Z * (ErrorResponse + GetResponse)) :=
  if decide (key = "") then ret (400%Z, inl missingKey)
  else
    do r <- Get key;
    let '(entry, found) := r in
    if negb found then
      ret (404%Z, inr (mkGetResponse key nilValue false false zeroTime zeroTime))
    else
      do response <- ToResponse entry;
      ret (200%Z, inr response).

Definition handler_Delete (key : string) : M (Z * (ErrorResponse + DeleteResponse)) :=
  if decide (key = "") then ret (400%Z, inl missingKey)
  else
    do r <- Delete key;
    let '(deleted, found) := r in
    let response := mkDeleteResponse key deleted found in
    if found then ret (200%Z, inr response) else ret (404%Z, inr response).

(** ** Views used to state what the operations do *)

(** The entry stored under a key, without its links. *)
Definition entry_of (w : World) (k : string) : option CacheEntry :=
  data w !! k ≫= λ p, p ≫= λ a, pay (heap w) a.

(** A [Get] of a non-empty key: the reads that count as requests. *)
Definition is_request (o : Op) : bool :=
  match o with
  | OpGet key => bool_decide (key ≠ "")
  | _ => false
  end.
Definition requests (ops : list Op) : nat := length (filter (λ o, is_request o = true) ops).

(** The [Put] that [BulkPut] performs for an item. *)
Definition item_op (item : PutRequest) : Op :=
  OpPut (pKey item) (pValue item) (itemTTL item).

(** The keys of the index whose entry [IsExpired] reports expired when the
    clock reads [now]. *)
Definition expired_key (w : World) (now : Z) (k : string) : bool :=
  match entry_of w k with
  | Some e => expiredAt e now
  | None => false
  end.

End Cache.

Notation "'do' x <- m ; k" := (bind m (λ x, k))
  (at level 10, x name, m at level 100, k at level 200).
Notation "m ;; k" := (bind m (λ _, k))
  (at level 100, k at level 200, right associativity).

(** * Concrete caches

    Values are natural numbers here, and the nil value is 0.  Every state
    below is built by the constructor and the public operations. *)

Module Scenario.

(** A cache of capacity 2 without default TTL; ["a"] is written with a TTL of
    one second at second 5, so it expires at second 6. *)
Definition history_a : list (@Op nat) := [OpPut "a" 7 (Some Second)].

(** The clock shows second 5 until the write is over, and second 6 from
    then on: the next read falls exactly on the expiration. *)
Definition clock_boundary (n : nat) : Z :=
  if (n <? 3)%nat then 5000000000%Z else 6000000000%Z.
Definition at_boundary : @World nat :=
  default (blank clock_boundary) (reach 0 2 0 clock_boundary history_a).

(** The same, but the clock shows second 8 after the write: the entry has
    expired and nothing has swept it. *)
Definition clock_late (n : nat) : Z :=
  if (n <? 3)%nat then 5000000000%Z else 8000000000%Z.
Definition expired_unswept : @World nat :=
  default (blank clock_late) (reach 0 2 0 clock_late history_a).

(** The entry of ["a"] in both states. *)
Definition entry_a : @CacheEntry nat :=
  mkEntry "a" 7 6 5000000000 5000000000 (Some 0) (Some 1).

(** A full cache of capacity 2: A and B are written, then A is read. *)
Definition clock_steady (n : nat) : Z := 5000000000%Z.
Definition history_full : list (@Op nat) :=
  [OpPut "A" 1 None; OpPut "B" 2 None; OpGet "A"].
Definition full : @World nat :=
  default (blank clock_steady) (reach 0 2 0 clock_steady history_full).

(** The full cache after a read that finds A, and after a read that finds
    nothing. *)
Definition full_after_get_A : @World nat := default full (snd <$> Get "A" full).
Definition full_after_get_missing : @World nat :=
  default full (snd <$> Get "missing" full).

(** The entry of ["A"] in the full cache, and an order in which Go may range
    over its index. *)
Definition entry_A : @CacheEntry nat :=
  mkEntry "A" 1 0 5000000000 5000000000 (Some 0) (Some 3).
Definition order_full : list string := ["B"; "A"].

(** The full cache with the expiration of A set to the least [int64]. *)
Definition full_least : @World nat :=
  set_heap (<[2 := withExpiration (- 2 ^ 63) entry_A]> (heap full)) full.

(** A bulk write of one good item, with a TTL of a minute, and one item with
    an empty key. *)
Definition item_C : @PutRequest nat := mkPutRequest "C" 3 (Some 60%Z).
Definition item_empty : @PutRequest nat := mkPutRequest "" 4 None.
Definition bulk_items : list (@PutRequest nat) := [item_C; item_empty].

(** A conversion that reads the one number the example asks for. *)
Definition Atoi_one (s : string) : option Z :=
  if decide (s = "1") then Some 1%Z else None.

End Scenario.

(** * Proofs *)

Section Proofs.

Context {V : Type}.
Variable nilValue : V.

#[local] Abbreviation World := (@World V).
#[local] Abbreviation CacheEntry := (@CacheEntry V).
#[local] Abbreviation Op := (@Op V).
#[local] Abbreviation M := (@M V).
#[local] Abbreviation BulkGetResponse := (@BulkGetResponse V).

Implicit Types (w : World) (e : CacheEntry) (h : gmap nat CacheEntry).
Implicit Types (d : gmap string ptr) (o : Op) (ops : list Op).
Implicit Types (response resp : BulkGetResponse) (value : V).

(** ** Wrap-around *)

Lemma incr64_no_overflow z :
  (- 2 ^ 63 ≤ z < max_int64)%Z → incr64 z = (z + 1)%Z.
Proof.
  unfold incr64, wrap64, max_int64. intros Hz.
  rewrite Z.mod_small; lia.
Qed.

(** ** Running the primitives *)

Lemma bind_run {A B} (m : M A) (k : A → M B) w a w' :
  m w = Some (a, w') → bind m k w = k a w'.
Proof. unfold bind. by intros ->. Qed.

Lemma load_run w a e : heap w !! a = Some e → load (Some a) w = Some (e, w).
Proof. unfold load. by intros ->. Qed.

Lemma assign_run w a e f :
  heap w !! a = Some e →
  assign (Some a) f w = Some (tt, set_heap (alter f a (heap w)) w).
Proof.
  unfold assign. intros He. rewrite He. do 3 f_equal.
  apply map_eq. intros x. rewrite lookup_insert, lookup_alter.
  destruct (decide (a = x)) as [<-|]; [by rewrite He | done].
Qed.

(** ** Views of an updated heap *)

Lemma nxt_alter_ne h f a x : x ≠ a → nxt (alter f a h) x = nxt h x.
Proof. intros. unfold nxt. by rewrite lookup_alter_ne. Qed.

Lemma prv_alter_ne h f a x : x ≠ a → prv (alter f a h) x = prv h x.
Proof. intros. unfold prv. by rewrite lookup_alter_ne. Qed.

Lemma nxt_alter_keep h f a x :
  (∀ e, Next (f e) = Next e) → nxt (alter f a h) x = nxt h x.
Proof.
  intros Hf. unfold nxt. rewrite lookup_alter.
  destruct (decide (a = x)) as [<-|]; [|done].
  destruct (h !! a); simpl; [apply Hf | done].
Qed.

Lemma prv_alter_keep h f a x :
  (∀ e, Prev (f e) = Prev e) → prv (alter f a h) x = prv h x.
Proof.
  intros Hf. unfold prv. rewrite lookup_alter.
  destruct (decide (a = x)) as [<-|]; [|done].
  destruct (h !! a); simpl; [apply Hf | done].
Qed.

Lemma key_at_alter_keep h f a x :
  (∀ e, Key (f e) = Key e) → key_at (alter f a h) x = key_at h x.
Proof.
  intros Hf. unfold key_at. rewrite lookup_alter.
  destruct (decide (a = x)) as [<-|]; [|done].
  destruct (h !! a); simpl; [by rewrite Hf | done].
Qed.

Lemma nxt_alter_withNext h a v : is_Some (h !! a) → nxt (alter (withNext v) a h) a = v.
Proof. intros [e He]. unfold nxt. by rewrite lookup_alter_eq, He. Qed.

Lemma prv_alter_withPrev h a v : is_Some (h !! a) → prv (alter (withPrev v) a h) a = v.
Proof. intros [e He]. unfold prv. by rewrite lookup_alter_eq, He. Qed.

Lemma nxt_is_Some h x y : nxt h x = Some y → is_Some (h !! x).
Proof. unfold nxt. destruct (h !! x); [eauto | done]. Qed.

Lemma prv_is_Some h x y : prv h x = Some y → is_Some (h !! x).
Proof. unfold prv. destruct (h !! x); [eauto | done]. Qed.

Lemma alter_is_Some (h : gmap nat CacheEntry) f a x :
  is_Some (alter f a h !! x) ↔ is_Some (h !! x).
Proof.
  rewrite lookup_alter. destruct (decide (a = x)) as [<-|]; [|done].
  by rewrite fmap_is_Some.
Qed.

(** ** Chains *)

Lemma linked_cons2 N P x y r :
  linked N P (x :: y :: r) ↔ N x = Some y ∧ P y = Some x ∧ linked N P (y :: r).
Proof. simpl. tauto. Qed.

Lemma linked_app_cons N P c1 x c2 :
  linked N P (c1 ++ x :: c2) ↔ linked N P (c1 ++ [x]) ∧ linked N P (x :: c2).
Proof.
  induction c1 as [|y c1 IH].
  - simpl. tauto.
  - destruct c1 as [|z c1].
    + simpl. tauto.
    + change ((y :: z :: c1) ++ x :: c2) with (y :: (z :: c1) ++ x :: c2).
      change ((y :: z :: c1) ++ [x]) with (y :: (z :: c1) ++ [x]).
      simpl app in *. rewrite !linked_cons2, IH. tauto.
Qed.

Lemma linked_frame N P N' P' c :
  (∀ z, z ∈ removelast c → N' z = N z) →
  (∀ z, z ∈ drop 1 c → P' z = P z) →
  linked N P c → linked N' P' c.
Proof.
  induction c as [|x c IH]; [done|].
  destruct c as [|y c]; [done|].
  intros HN HP. rewrite !linked_cons2. intros (Hx & Hy & Hr).
  split_and!.
  - rewrite HN; [done|]. simpl. left.
  - rewrite HP; [done|]. simpl. left.
  - apply IH; [| |done].
    + intros z Hz. apply HN. simpl in *. by right.
    + intros z Hz. apply HP. simpl in *. by right.
Qed.

Lemma removelast_snoc {A} (c : list A) x : removelast (c ++ [x]) = c.
Proof. apply removelast_last. Qed.

Lemma snoc_cases {A} (c : list A) : c = [] ∨ ∃ c' x, c = c' ++ [x].
Proof. destruct c as [|y c] using rev_ind; eauto. Qed.

Lemma linked_alloc N P c x :
  linked N P c → 2 ≤ length c → x ∈ c → is_Some (N x) ∨ is_Some (P x).
Proof.
  induction c as [|y c IH]; [by intros _ _ ?%elem_of_nil|].
  destruct c as [|z c]; [simpl; lia|].
  rewrite linked_cons2. intros (Hy & Hz & Hr) _ Hx.
  apply elem_of_cons in Hx as [->|Hx]; [left; eauto|].
  destruct c as [|u c].
  - apply list_elem_of_singleton in Hx as ->. right; eauto.
  - apply IH; [done|simpl; lia|done].
Qed.

(** ** Running the list operations *)

Lemma removeFromList_run w a p n :
  prv (heap w) a = Some p → nxt (heap w) a = Some n → p ≠ a →
  is_Some (heap w !! p) → is_Some (heap w !! n) →
  removeFromList (Some a) w =
    Some (tt, set_heap (alter (withPrev (Some p)) n
                          (alter (withNext (Some n)) p (heap w))) w).
Proof.
  intros Hp Hn Hpa [ep Hep] [en Hen].
  unfold prv in Hp. unfold nxt in Hn.
  destruct (heap w !! a) as [e|] eqn:He; [simpl in Hp, Hn|done].
  unfold removeFromList.
  rewrite (bind_run _ _ w e w) by by apply load_run.
  rewrite Hp, Hn.
  erewrite bind_run by (eapply assign_run; eauto).
  erewrite bind_run; cycle 1.
  { apply load_run. simpl. rewrite lookup_alter_ne by done. exact He. }
  cbv beta. rewrite Hp, Hn.
  assert (is_Some (alter (withNext (Some n)) p (heap w) !! n)) as [en' Hen'].
  { apply alter_is_Some. eauto. }
  erewrite assign_run by (simpl; eauto). done.
Qed.

Lemma addToHead_run w hd a f :
  head w = Some hd → nxt (heap w) hd = Some f → a ≠ hd →
  is_Some (heap w !! a) → is_Some (heap w !! f) →
  addToHead (Some a) w =
    Some (tt, set_heap (alter (withNext (Some a)) hd
                          (alter (withPrev (Some a)) f
                             (alter (withNext (Some f)) a
                                (alter (withPrev (Some hd)) a (heap w))))) w).
Proof.
  intros Hhd Hf Hne [ea Hea] [ef Hef].
  unfold nxt in Hf.
  destruct (heap w !! hd) as [eh|] eqn:Heh; [simpl in Hf|done].
  unfold addToHead.
  rewrite (bind_run _ _ w (Some hd) w) by (unfold gets; by rewrite Hhd).
  erewrite bind_run by (eapply assign_run; eauto).
  set (h1 := alter (withPrev (Some hd)) a (heap w)).
  assert (h1 !! hd = Some eh) as Heh1.
  { unfold h1. by rewrite lookup_alter_ne. }
  erewrite (bind_run (gets head)) by (unfold gets; simpl; by rewrite Hhd).
  erewrite bind_run by (apply load_run; simpl; exact Heh1).
  cbv beta. rewrite Hf.
  assert (is_Some (h1 !! a)) as [ea1 Hea1] by (apply alter_is_Some; eauto).
  erewrite bind_run by (eapply assign_run; simpl; eauto).
  set (h2 := alter (withNext (Some f)) a h1).
  assert (h2 !! hd = Some eh) as Heh2.
  { unfold h2. by rewrite lookup_alter_ne. }
  erewrite (bind_run (gets head)) by (unfold gets; simpl; by rewrite Hhd).
  erewrite bind_run by (apply load_run; simpl; exact Heh2).
  cbv beta. rewrite Hf.
  assert (is_Some (h2 !! f)) as [ef2 Hef2] by (do 2 apply alter_is_Some; eauto).
  erewrite bind_run by (eapply assign_run; simpl; eauto).
  set (h3 := alter (withPrev (Some a)) f h2).
  assert (is_Some (h3 !! hd)) as [eh3 Heh3] by (apply alter_is_Some; eauto).
  erewrite (bind_run (gets head)) by (unfold gets; simpl; by rewrite Hhd).
  erewrite assign_run by (simpl; eauto). done.
Qed.

Lemma elem_of_removelast {A} (c : list A) z : z ∈ removelast c → z ∈ c.
Proof.
  induction c as [|x c IH]; [done|].
  destruct c as [|y c]; [by intros ?%elem_of_nil|].
  change (removelast (x :: y :: c)) with (x :: removelast (y :: c)).
  rewrite !(elem_of_cons _ z x). intros [->|Hz]; [by left|right; by apply IH].
Qed.

Lemma elem_of_drop1 {A} (c : list A) z : z ∈ drop 1 c → z ∈ c.
Proof. destruct c; simpl; [done|]. rewrite drop_0. by right. Qed.

(** Unlinking [a] from between [p] and [n]. *)
Lemma chain_unlink h c1 p a n c2 :
  NoDup (c1 ++ p :: a :: n :: c2) →
  linked (nxt h) (prv h) (c1 ++ p :: a :: n :: c2) →
  let h' := alter (withPrev (Some p)) n (alter (withNext (Some n)) p h) in
  linked (nxt h') (prv h') (c1 ++ p :: n :: c2).
Proof.
  intros Hnd Hl h'.
  apply NoDup_app in Hnd as (Hc1 & Hsep & Hnd).
  apply NoDup_cons in Hnd as (Hp & Hnd).
  apply NoDup_cons in Hnd as (Ha & Hnd).
  apply NoDup_cons in Hnd as (Hn & Hc2).
  apply linked_app_cons in Hl as [Hl1 Hl2].
  rewrite !linked_cons2 in Hl2. destruct Hl2 as (Hpa & Hap & Han & Hna & Hl2).
  assert (is_Some (h !! p)) as Hip by eauto using nxt_is_Some.
  assert (is_Some (h !! n)) as Hin by eauto using prv_is_Some.
  apply linked_app_cons. split.
  - eapply linked_frame; [| |exact Hl1].
    + rewrite removelast_last. intros z Hz. unfold h'.
      rewrite nxt_alter_keep by done. apply nxt_alter_ne.
      intros ->. eapply Hsep; [done|left].
    + intros z Hz%elem_of_drop1. unfold h'.
      rewrite prv_alter_ne; [by rewrite prv_alter_keep|].
      intros ->. apply elem_of_app in Hz as [Hz|Hz%list_elem_of_singleton].
      * eapply Hsep; [done|]. do 2 right. left.
      * subst. apply Hp. right. left.
  - rewrite linked_cons2. split_and!.
    + unfold h'. rewrite nxt_alter_keep by done. by apply nxt_alter_withNext.
    + unfold h'. apply prv_alter_withPrev. by apply alter_is_Some.
    + eapply linked_frame; [| |exact Hl2].
      * intros z Hz%elem_of_removelast. unfold h'.
        rewrite nxt_alter_keep by done. apply nxt_alter_ne.
        intros ->. apply Hp. by right.
      * simpl. rewrite drop_0. intros z Hz. unfold h'.
        rewrite prv_alter_ne; [by rewrite prv_alter_keep|].
        intros ->. done.
Qed.

(** Linking [a] in between [hd] and [f]. *)
Lemma chain_push h hd a f c2 :
  NoDup (hd :: f :: c2) → a ∉ hd :: f :: c2 → is_Some (h !! a) →
  linked (nxt h) (prv h) (hd :: f :: c2) →
  let h' := alter (withNext (Some a)) hd
              (alter (withPrev (Some a)) f
                 (alter (withNext (Some f)) a
                    (alter (withPrev (Some hd)) a h))) in
  linked (nxt h') (prv h') (hd :: a :: f :: c2).
Proof.
  intros Hnd Ha Hia Hl h'.
  apply NoDup_cons in Hnd as (Hhd & Hnd).
  apply NoDup_cons in Hnd as (Hf & Hc2).
  rewrite !not_elem_of_cons in Ha. rewrite not_elem_of_cons in Hhd.
  destruct Ha as (Hahd & Haf & Hac2).
  destruct Hhd as (Hhdf & Hhdc2).
  rewrite linked_cons2 in Hl. destruct Hl as (Hhf & Hfh & Hl).
  assert (is_Some (h !! hd)) as Hihd by eauto using nxt_is_Some.
  assert (is_Some (h !! f)) as Hif by eauto using prv_is_Some.
  rewrite !linked_cons2. split_and!.
  - unfold h'. apply nxt_alter_withNext. by rewrite !alter_is_Some.
  - unfold h'. rewrite prv_alter_keep by done. rewrite prv_alter_ne by done.
    rewrite prv_alter_keep by done. by apply prv_alter_withPrev.
  - unfold h'. rewrite nxt_alter_ne by done. rewrite nxt_alter_keep by done.
    apply nxt_alter_withNext. by rewrite alter_is_Some.
  - unfold h'. rewrite prv_alter_keep by done. apply prv_alter_withPrev.
    by rewrite !alter_is_Some.
  - eapply linked_frame; [| |exact Hl].
    + intros z Hz%elem_of_removelast. unfold h'.
      assert (z ≠ hd ∧ z ≠ a) as [? ?].
      { apply elem_of_cons in Hz as [->|Hz]; [done|]. split; intros ->; done. }
      rewrite nxt_alter_ne by done. rewrite nxt_alter_keep by done.
      rewrite nxt_alter_ne by done. by rewrite nxt_alter_keep.
    + simpl. rewrite drop_0. intros z Hz. unfold h'.
      assert (z ≠ f ∧ z ≠ a) as [? ?] by (split; intros ->; done).
      rewrite prv_alter_keep by done. rewrite prv_alter_ne by done.
      rewrite prv_alter_keep by done. by rewrite prv_alter_ne.
Qed.

(** ** Payloads *)

Lemma same_payload_refl h : same_payload h h.
Proof. by intros x. Qed.

Lemma same_payload_trans h1 h2 h3 :
  same_payload h1 h2 → same_payload h2 h3 → same_payload h1 h3.
Proof. intros H12 H23 x. by rewrite H23. Qed.

Lemma same_payload_alter h f a :
  (∀ e, payload (f e) = payload e) → same_payload h (alter f a h).
Proof.
  intros Hf x. unfold pay. rewrite lookup_alter.
  destruct (decide (a = x)) as [<-|]; [|done].
  destruct (h !! a); simpl; [by rewrite Hf | done].
Qed.

Lemma same_payload_lookup h h' x e :
  same_payload h h' → h !! x = Some e →
  ∃ e', h' !! x = Some e' ∧ payload e' = payload e.
Proof.
  intros Hs He. specialize (Hs x). unfold pay in Hs. rewrite He in Hs.
  destruct (h' !! x) as [e'|]; simpl in Hs; [|done].
  exists e'. split; [done|]. congruence.
Qed.

Lemma same_payload_is_Some h h' x :
  same_payload h h' → is_Some (h' !! x) ↔ is_Some (h !! x).
Proof.
  intros Hs. specialize (Hs x). unfold pay in Hs.
  rewrite <-(fmap_is_Some payload (h' !! x)), Hs. apply fmap_is_Some.
Qed.

Lemma same_payload_key h h' x : same_payload h h' → key_at h' x = key_at h x.
Proof.
  intros Hs. specialize (Hs x). unfold pay, key_at in *.
  destruct (h !! x) as [e|], (h' !! x) as [e'|]; simpl in *; try done.
  f_equal. change (Key e') with (Key (payload e')).
  assert (payload e' = payload e) as -> by congruence. done.
Qed.

Lemma same_payload_proj {B} (g : CacheEntry → B) h h' x :
  (∀ e, g (payload e) = g e) → same_payload h h' → g <$> h' !! x = g <$> h !! x.
Proof.
  intros Hg Hs. specialize (Hs x). unfold pay in *.
  destruct (h !! x) as [e|], (h' !! x) as [e'|]; simpl in *; try done.
  f_equal. rewrite <-(Hg e'), <-(Hg e). f_equal. congruence.
Qed.

(** ** The list between the sentinels *)

Lemma dll_alloc h hd tl l x : dll h hd tl l → x ∈ hd :: l ++ [tl] → is_Some (h !! x).
Proof.
  intros [_ Hl] Hx.
  destruct (linked_alloc _ _ _ x Hl) as [[y Hy]|[y Hy]]; [|done| |].
  - simpl. rewrite length_app. simpl. lia.
  - eauto using nxt_is_Some.
  - eauto using prv_is_Some.
Qed.

Lemma dll_frame h h' hd tl l :
  (∀ x, x ∈ hd :: l ++ [tl] → nxt h' x = nxt h x ∧ prv h' x = prv h x) →
  dll h hd tl l → dll h' hd tl l.
Proof.
  intros Hf [Hnd Hl]. split; [done|].
  eapply linked_frame; [| |exact Hl].
  - intros z Hz%elem_of_removelast. by apply Hf.
  - intros z Hz%elem_of_drop1. by apply Hf.
Qed.

Lemma dll_alter_payload h hd tl l f a :
  (∀ e, Next (f e) = Next e) → (∀ e, Prev (f e) = Prev e) →
  dll h hd tl l → dll (alter f a h) hd tl l.
Proof.
  intros HN HP. apply dll_frame. intros x _.
  by rewrite nxt_alter_keep, prv_alter_keep.
Qed.

Lemma dll_tail_prev h hd tl l : dll h hd tl l → prv h tl = last (hd :: l).
Proof.
  intros [_ Hl].
  destruct (snoc_cases (hd :: l)) as [?|(c & p & Hc)]; [done|].
  change (hd :: l ++ [tl]) with ((hd :: l) ++ [tl]) in Hl.
  rewrite Hc in *. rewrite <-app_assoc in Hl. simpl in Hl.
  apply linked_app_cons in Hl as [_ Hl]. rewrite linked_cons2 in Hl.
  rewrite last_snoc. tauto.
Qed.

Lemma dll_removeFromList w hd tl l1 a l2 :
  dll (heap w) hd tl (l1 ++ a :: l2) →
  ∃ h', removeFromList (Some a) w = Some (tt, set_heap h' w) ∧
        dll h' hd tl (l1 ++ l2) ∧ same_payload (heap w) h'.
Proof.
  intros Hd. pose proof Hd as [Hnd Hl].
  destruct (snoc_cases (hd :: l1)) as [?|(c1 & p & Hc1)]; [done|].
  destruct (l2 ++ [tl]) as [|n c2] eqn:Hc2; [by destruct l2|].
  assert (hd :: (l1 ++ a :: l2) ++ [tl] = c1 ++ p :: a :: n :: c2) as Hch.
  { rewrite <-app_assoc. simpl. rewrite Hc2.
    change (hd :: l1 ++ a :: n :: c2) with ((hd :: l1) ++ a :: n :: c2).
    rewrite Hc1, <-app_assoc. done. }
  assert (hd :: (l1 ++ l2) ++ [tl] = c1 ++ p :: n :: c2) as Hch'.
  { rewrite <-app_assoc, Hc2.
    change (hd :: l1 ++ n :: c2) with ((hd :: l1) ++ n :: c2).
    rewrite Hc1, <-app_assoc. done. }
  rewrite Hch in Hnd, Hl.
  pose proof (chain_unlink _ _ _ _ _ _ Hnd Hl) as Hl'. cbv zeta in Hl'.
  pose proof Hl as Hl0.
  apply linked_app_cons in Hl0 as [_ Hl0].
  rewrite !linked_cons2 in Hl0. destruct Hl0 as (Hpa & Hap & Han & Hna & _).
  assert (p ≠ a) as Hpne.
  { apply NoDup_app in Hnd as (_ & _ & Hnd).
    apply NoDup_cons in Hnd as [Hp _]. intros ->. apply Hp. left. }
  eexists. split; [|split].
  - apply removeFromList_run; eauto using nxt_is_Some, prv_is_Some.
  - split.
    + rewrite Hch'.
      apply NoDup_app in Hnd as (? & Hsep & Hnd).
      apply NoDup_app. split; [done|]. split.
      * intros x Hx Hx'. eapply Hsep; [done|].
        rewrite !elem_of_cons in Hx'. rewrite !elem_of_cons. tauto.
      * rewrite !NoDup_cons in Hnd. rewrite !NoDup_cons.
        rewrite !not_elem_of_cons in Hnd. rewrite !not_elem_of_cons. tauto.
    + rewrite Hch'. exact Hl'.
  - eapply same_payload_trans; apply same_payload_alter; done.
Qed.

Lemma dll_addToHead w hd tl l a :
  head w = Some hd → dll (heap w) hd tl l →
  a ∉ hd :: l ++ [tl] → is_Some (heap w !! a) →
  ∃ h', addToHead (Some a) w = Some (tt, set_heap h' w) ∧
        dll h' hd tl (a :: l) ∧ same_payload (heap w) h'.
Proof.
  intros Hhd Hd Ha Hia. pose proof Hd as [Hnd Hl].
  destruct (l ++ [tl]) as [|f c2] eqn:Hc2; [by destruct l|].
  pose proof (chain_push _ _ _ _ _ Hnd Ha Hia Hl) as Hl'. cbv zeta in Hl'.
  rewrite linked_cons2 in Hl. destruct Hl as (Hhf & Hfh & _).
  eexists. split; [|split].
  - apply addToHead_run; eauto using prv_is_Some.
    intros ->. apply Ha. left.
  - split.
    + simpl. rewrite Hc2. rewrite perm_swap. by apply NoDup_cons.
    + simpl app. rewrite Hc2. exact Hl'.
  - repeat (eapply same_payload_trans; [|apply same_payload_alter; done]).
    apply same_payload_refl.
Qed.

Lemma dll_not_in h hd tl l1 a l2 :
  dll h hd tl (l1 ++ a :: l2) → a ∉ hd :: (l1 ++ l2) ++ [tl].
Proof.
  intros [Hnd _].
  assert (hd :: (l1 ++ a :: l2) ++ [tl] = (hd :: l1) ++ a :: l2 ++ [tl]) as Heq
    by (by rewrite <-app_assoc).
  rewrite Heq in Hnd.
  apply NoDup_app in Hnd as (_ & Hsep & Hnd).
  apply NoDup_cons in Hnd as [Ha _].
  assert (hd :: (l1 ++ l2) ++ [tl] = (hd :: l1) ++ l2 ++ [tl]) as ->
    by (by rewrite <-app_assoc).
  rewrite elem_of_app. intros [Hin|Hin]; [|done].
  eapply Hsep; [done|left].
Qed.

Lemma dll_moveToHead w hd tl l1 a l2 :
  head w = Some hd → dll (heap w) hd tl (l1 ++ a :: l2) →
  ∃ h', moveToHead (Some a) w = Some (tt, set_heap h' w) ∧
        dll h' hd tl (a :: l1 ++ l2) ∧ same_payload (heap w) h'.
Proof.
  intros Hhd Hd.
  destruct (dll_removeFromList _ _ _ _ _ _ Hd) as (h1 & Hrun1 & Hd1 & Hs1).
  assert (is_Some (h1 !! a)) as Hia.
  { apply (same_payload_is_Some _ _ _ Hs1). eapply dll_alloc; [done|].
    right. rewrite <-app_assoc. apply elem_of_app. right. left. }
  destruct (dll_addToHead (set_heap h1 w) hd tl (l1 ++ l2) a)
    as (h2 & Hrun2 & Hd2 & Hs2); [done|done|by eapply dll_not_in|done|].
  exists h2. split; [|split].
  - unfold moveToHead. erewrite bind_run by done. by rewrite Hrun2.
  - done.
  - by eapply same_payload_trans.
Qed.

(** ** The index *)

Lemma indexed_ext d h h' l l' :
  (∀ x, x ∈ l' ↔ x ∈ l) → (∀ x, x ∈ l → key_at h' x = key_at h x) →
  indexed d h l → indexed d h' l'.
Proof.
  intros Hl Hk Hi k p. rewrite (Hi k p). split.
  - intros (a & -> & Ha & Hka). exists a. rewrite Hl, Hk; done.
  - intros (a & -> & Ha & Hka). exists a. rewrite Hl in Ha. rewrite Hk in Hka; done.
Qed.

Lemma indexed_inj d h l a b k :
  indexed d h l → a ∈ l → b ∈ l → key_at h a = Some k → key_at h b = Some k → a = b.
Proof.
  intros Hi Ha Hb Hka Hkb.
  assert (d !! k = Some (Some a)) as H1 by (apply Hi; eauto).
  assert (d !! k = Some (Some b)) as H2 by (apply Hi; eauto).
  congruence.
Qed.

Lemma indexed_delete d h l1 a l2 k :
  NoDup (l1 ++ a :: l2) → key_at h a = Some k →
  indexed d h (l1 ++ a :: l2) → indexed (delete k d) h (l1 ++ l2).
Proof.
  intros Hnd Hka Hi k' p.
  assert (a ∈ l1 ++ a :: l2) as Hain by (apply elem_of_app; right; left).
  assert (a ∉ l1 ++ l2) as Hanin.
  { apply NoDup_app in Hnd as (_ & Hsep & Hnd). apply NoDup_cons in Hnd as [? _].
    rewrite elem_of_app. intros [?|?]; [|done]. eapply Hsep; [done|left]. }
  assert (∀ x, x ∈ l1 ++ l2 → x ∈ l1 ++ a :: l2) as Hsub.
  { intros x. rewrite !elem_of_app, elem_of_cons. tauto. }
  rewrite lookup_delete. destruct (decide (k = k')) as [<-|Hne].
  - split; [done|]. intros (b & -> & Hb & Hkb). exfalso.
    apply Hanin. rewrite (indexed_inj _ _ _ a b k Hi); auto.
  - rewrite (Hi k' p). split.
    + intros (b & -> & Hb & Hkb). exists b. split_and!; [done| |done].
      apply elem_of_app in Hb as [Hb|Hb]; [apply elem_of_app; by left|].
      apply elem_of_cons in Hb as [->|Hb]; [congruence|apply elem_of_app; by right].
    + intros (b & -> & Hb & Hkb). eauto.
Qed.

Lemma indexed_insert d h l a k :
  d !! k = None → key_at h a = Some k →
  indexed d h l → indexed (<[k := Some a]> d) h (a :: l).
Proof.
  intros Hnone Hka Hi k' p. rewrite lookup_insert.
  destruct (decide (k = k')) as [<-|Hne].
  - split.
    + intros [= <-]. exists a. split_and!; [done|left|done].
    + intros (b & -> & Hb & Hkb). apply elem_of_cons in Hb as [->|Hb]; [done|].
      exfalso. assert (d !! k = Some (Some b)) by (apply Hi; eauto). congruence.
  - rewrite (Hi k' p). split.
    + intros (b & -> & Hb & Hkb). exists b. split_and!; [done|by right|done].
    + intros (b & -> & Hb & Hkb). apply elem_of_cons in Hb as [->|Hb]; [congruence|].
      eauto.
Qed.

Lemma indexed_empty h : indexed ∅ h [].
Proof.
  intros k p. rewrite lookup_empty. split; [done|].
  by intros (a & _ & ?%elem_of_nil & _).
Qed.

Lemma indexed_size d h l :
  NoDup l → (∀ x, x ∈ l → is_Some (h !! x)) → indexed d h l → size d = length l.
Proof.
  revert d. induction l as [|a l IH]; intros d Hnd Hal Hi.
  - apply map_size_empty_iff, map_eq. intros k. rewrite lookup_empty.
    destruct (d !! k) as [p|] eqn:Hk; [|done].
    apply Hi in Hk as (a & _ & ?%elem_of_nil & _). done.
  - apply NoDup_cons in Hnd as [Ha Hnd].
    destruct (Hal a) as [e He]; [left|].
    assert (key_at h a = Some (Key e)) as Hka by (unfold key_at; by rewrite He).
    assert (d !! Key e = Some (Some a)) as Hd by (apply Hi; exists a; split_and!; [done|left|done]).
    rewrite <-(insert_delete_id d (Key e) (Some a)) by done.
    rewrite map_size_insert_None by apply lookup_delete_eq.
    simpl. f_equal. apply IH; [done| |].
    + intros x Hx. apply Hal. by right.
    + apply (indexed_delete d h [] a l (Key e)); [|done|done].
      simpl. by apply NoDup_cons.
Qed.

(** ** The representation invariant and the operations on the list *)

Lemma Repr_same w w' l :
  head w' = head w → tail w' = tail w → heap w' = heap w → data w' = data w →
  Repr w l → Repr w' l.
Proof.
  intros Hh Ht Hp Hd (hd & tl & ? & ? & ? & ?). exists hd, tl.
  rewrite Hh, Ht, Hp, Hd. done.
Qed.

Lemma Repr_nodes_alloc w l a : Repr w l → Some a ∈ nodes w l → is_Some (heap w !! a).
Proof.
  intros (hd & tl & Hhd & Htl & Hd & _) Ha. eapply dll_alloc; [done|].
  unfold nodes in Ha. rewrite Hhd, Htl in Ha.
  apply elem_of_cons in Ha as [[= ->]|Ha]; [left|right].
  apply elem_of_app in Ha as [Ha|Ha]; apply elem_of_app.
  - left. by apply list_elem_of_fmap in Ha as (x & [= ->] & Hx).
  - right. apply list_elem_of_singleton in Ha as [= ->]. left.
Qed.

Lemma Repr_alloc w l a : Repr w l → a ∈ l → is_Some (heap w !! a).
Proof.
  intros Hr Ha. eapply Repr_nodes_alloc; [done|]. unfold nodes.
  right. apply elem_of_app. left. by apply list_elem_of_fmap_2.
Qed.

Lemma Repr_NoDup w l : Repr w l → NoDup l.
Proof.
  intros (hd & tl & _ & _ & [Hnd _] & _).
  apply NoDup_cons in Hnd as [_ Hnd]. by apply NoDup_app in Hnd as (? & _).
Qed.

Lemma Repr_size w l : Repr w l → size (data w) = length l.
Proof.
  intros Hr. pose proof Hr as (hd & tl & _ & _ & _ & Hi).
  eapply indexed_size; [by eapply Repr_NoDup| |done].
  intros x Hx. by eapply Repr_alloc.
Qed.

Lemma Repr_lookup w l k p :
  Repr w l → data w !! k = Some p →
  ∃ a e, p = Some a ∧ a ∈ l ∧ heap w !! a = Some e ∧ Key e = k.
Proof.
  intros (hd & tl & _ & _ & _ & Hi) Hk.
  apply Hi in Hk as (a & -> & Ha & Hka). unfold key_at in Hka.
  destruct (heap w !! a) as [e|] eqn:He; simpl in Hka; [|done].
  exists a, e. split_and!; try done. congruence.
Qed.

Lemma Repr_fresh w l : Repr w l → Some (fresh (dom (heap w))) ∉ nodes w l.
Proof.
  intros Hr Hin. apply (Repr_nodes_alloc _ _ _ Hr) in Hin.
  apply elem_of_dom in Hin. by apply is_fresh in Hin.
Qed.

Lemma nodes_sub w w' l l' x :
  head w' = head w → tail w' = tail w → (∀ y, y ∈ l' → y ∈ l) →
  x ∉ nodes w l → x ∉ nodes w' l'.
Proof.
  unfold nodes. intros -> -> Hsub.
  rewrite !not_elem_of_cons, !elem_of_app, !list_elem_of_singleton.
  intros [? Hx]. split; [done|]. intros [Hin|?]; apply Hx; [left|by right].
  apply list_elem_of_fmap in Hin as (y & -> & Hy). apply list_elem_of_fmap_2. auto.
Qed.

Lemma Repr_payload w l a f :
  (∀ e, Key (f e) = Key e) → (∀ e, Next (f e) = Next e) → (∀ e, Prev (f e) = Prev e) →
  Repr w l → Repr (set_heap (alter f a (heap w)) w) l.
Proof.
  intros HK HN HP (hd & tl & Hhd & Htl & Hd & Hi). exists hd, tl. split_and!; try done.
  - by apply dll_alter_payload.
  - eapply indexed_ext; [done| |exact Hi]. intros x _. by apply key_at_alter_keep.
Qed.

Lemma Repr_new w l e :
  Repr w l → Repr (set_heap (<[fresh (dom (heap w)) := e]> (heap w)) w) l.
Proof.
  intros Hr. pose proof Hr as (hd & tl & Hhd & Htl & Hd & Hi).
  assert (∀ x, is_Some (heap w !! x) → x ≠ fresh (dom (heap w))) as Hne.
  { intros x Hx%elem_of_dom ->. by apply is_fresh in Hx. }
  exists hd, tl. split_and!; try done.
  - eapply dll_frame; [|exact Hd]. intros x Hx. simpl.
    unfold nxt, prv. rewrite lookup_insert_ne; [done|].
    apply not_eq_sym, Hne. by eapply dll_alloc.
  - eapply indexed_ext; [done| |exact Hi]. intros x Hx. simpl.
    unfold key_at. rewrite lookup_insert_ne; [done|].
    apply not_eq_sym, Hne. by eapply Repr_alloc.
Qed.

Lemma Repr_removeEntry w l1 a l2 e :
  Repr w (l1 ++ a :: l2) → heap w !! a = Some e →
  ∃ h', removeEntry (Some a) w =
          Some (tt, set_heap h' (set_data (delete (Key e) (data w)) w)) ∧
        Repr (set_heap h' (set_data (delete (Key e) (data w)) w)) (l1 ++ l2) ∧
        same_payload (heap w) h'.
Proof.
  intros Hr He. pose proof Hr as (hd & tl & Hhd & Htl & Hd & Hi).
  destruct (dll_removeFromList (set_data (delete (Key e) (data w)) w) hd tl l1 a l2)
    as (h' & Hrun & Hd' & Hs); [done|].
  exists h'. split_and!; [|exists hd, tl; split_and!|]; try done.
  - unfold removeEntry. erewrite bind_run by by apply load_run.
    unfold modify at 1. unfold bind at 1. exact Hrun.
  - simpl. eapply indexed_ext; [done| |].
    + intros x _. by apply same_payload_key.
    + apply (indexed_delete _ _ l1 a l2); [by eapply Repr_NoDup| |done].
      unfold key_at. simpl. by rewrite He.
Qed.

Lemma Repr_moveToHead w l1 a l2 :
  Repr w (l1 ++ a :: l2) →
  ∃ h', moveToHead (Some a) w = Some (tt, set_heap h' w) ∧
        Repr (set_heap h' w) (a :: l1 ++ l2) ∧ same_payload (heap w) h'.
Proof.
  intros (hd & tl & Hhd & Htl & Hd & Hi).
  destruct (dll_moveToHead w hd tl l1 a l2) as (h' & Hrun & Hd' & Hs); [done|done|].
  exists h'. split_and!; [|exists hd, tl; split_and!|]; try done.
  simpl. eapply indexed_ext; [| |exact Hi].
  - intros x. rewrite !elem_of_cons, !elem_of_app, !elem_of_cons. tauto.
  - intros x _. by apply same_payload_key.
Qed.

Lemma Repr_insert w l a e :
  Repr w l → Some a ∉ nodes w l → heap w !! a = Some e → data w !! Key e = None →
  ∃ h', addToHead (Some a) (set_data (<[Key e := Some a]> (data w)) w) =
          Some (tt, set_heap h' (set_data (<[Key e := Some a]> (data w)) w)) ∧
        Repr (set_heap h' (set_data (<[Key e := Some a]> (data w)) w)) (a :: l) ∧
        same_payload (heap w) h'.
Proof.
  intros (hd & tl & Hhd & Htl & Hd & Hi) Ha He Hk.
  destruct (dll_addToHead (set_data (<[Key e := Some a]> (data w)) w) hd tl l a)
    as (h' & Hrun & Hd' & Hs); [done|done| |simpl; eauto|].
  { intros Hin. apply Ha. unfold nodes. rewrite Hhd, Htl.
    apply (list_elem_of_fmap_2 Some) in Hin.
    by rewrite fmap_cons, fmap_app in Hin. }
  exists h'. split_and!; [|exists hd, tl; split_and!|]; try done.
  simpl. eapply indexed_ext; [done| |].
  - intros x _. by apply same_payload_key.
  - apply indexed_insert; [done| |done]. unfold key_at. simpl. by rewrite He.
Qed.

(** ** Keys in recency order *)

Lemma keyed_frame h h' l K :
  (∀ x, x ∈ l → key_at h' x = key_at h x) → keyed h l K → keyed h' l K.
Proof.
  intros Hf Hk. induction Hk as [|a k l K Ha Hk IH]; [constructor|].
  constructor.
  - rewrite Hf; [done|left].
  - apply IH. intros x Hx. apply Hf. by right.
Qed.

Lemma keyed_same_payload h h' l K : same_payload h h' → keyed h l K → keyed h' l K.
Proof. intros Hs. apply keyed_frame. intros x _. by apply same_payload_key. Qed.

Lemma keyed_split h l1 a l2 K :
  keyed h (l1 ++ a :: l2) K →
  ∃ K1 k K2, K = K1 ++ k :: K2 ∧ keyed h l1 K1 ∧ key_at h a = Some k ∧ keyed h l2 K2.
Proof.
  intros Hk. apply Forall2_app_inv_l in Hk as (K1 & K' & Hk1 & Hk' & ->).
  apply Forall2_cons_inv_l in Hk' as (k & K2 & Ha & Hk2 & ->).
  by exists K1, k, K2.
Qed.

Lemma keyed_app h l1 l2 K1 K2 : keyed h l1 K1 → keyed h l2 K2 → keyed h (l1 ++ l2) (K1 ++ K2).
Proof. apply Forall2_app. Qed.

Lemma keyed_elem h l K k : keyed h l K → k ∈ K → ∃ a, a ∈ l ∧ key_at h a = Some k.
Proof.
  intros Hk Hin. induction Hk as [|a k' l K Ha Hk IH]; [by apply elem_of_nil in Hin|].
  apply elem_of_cons in Hin as [->|Hin].
  - exists a. split; [left|done].
  - destruct (IH Hin) as (b & ? & ?). exists b. split; [by right|done].
Qed.

Lemma keyed_elem_inv h l K a : keyed h l K → a ∈ l → ∃ k, k ∈ K ∧ key_at h a = Some k.
Proof.
  intros Hk Hin. induction Hk as [|a' k l K Ha Hk IH]; [by apply elem_of_nil in Hin|].
  apply elem_of_cons in Hin as [->|Hin].
  - exists k. split; [left|done].
  - destruct (IH Hin) as (k' & ? & ?). exists k'. split; [by right|done].
Qed.

Lemma keyed_NoDup d h l K : indexed d h l → NoDup l → keyed h l K → NoDup K.
Proof.
  intros Hi Hnd Hk. revert d Hi Hnd.
  induction Hk as [|a k l K Ha Hk IH]; intros d Hi Hnd; [constructor|].
  pose proof Hnd as [Hal Hnd']%NoDup_cons. apply NoDup_cons. split.
  - intros Hin. destruct (keyed_elem _ _ _ _ Hk Hin) as (b & Hb & Hkb).
    apply Hal. rewrite (indexed_inj _ _ _ a b k Hi); [done|left|by right|done|done].
  - apply (IH (delete k d)); [|done].
    by apply (indexed_delete d h [] a l k).
Qed.

Lemma filter_ne_id (K : list string) k : k ∉ K → filter (λ x, x ≠ k) K = K.
Proof.
  induction K as [|x K IH]; [done|].
  rewrite not_elem_of_cons. intros [Hne Hk].
  rewrite filter_cons_True by done. by rewrite IH.
Qed.

Lemma filter_ne_split (K1 K2 : list string) k :
  NoDup (K1 ++ k :: K2) → filter (λ x, x ≠ k) (K1 ++ k :: K2) = K1 ++ K2.
Proof.
  intros Hnd. apply NoDup_app in Hnd as (_ & Hsep & Hnd).
  apply NoDup_cons in Hnd as [Hk _].
  rewrite filter_app, filter_cons_False by (intros ?; done).
  rewrite !filter_ne_id; [done|done|].
  intros Hin. eapply Hsep; [done|left].
Qed.

(** ** Eviction *)

Lemma Repr_tail_prev w l :
  Repr w l →
  ∃ hd tl et, head w = Some hd ∧ tail w = Some tl ∧ heap w !! tl = Some et ∧
              Prev et = last (hd :: l) ∧ hd ∉ l.
Proof.
  intros (hd & tl & Hhd & Htl & Hd & _).
  pose proof (dll_tail_prev _ _ _ _ Hd) as Hp.
  destruct (dll_alloc _ _ _ _ tl Hd) as [et Het].
  { right. apply elem_of_app. right. left. }
  exists hd, tl, et. split_and!; try done.
  - unfold prv in Hp. by rewrite Het in Hp.
  - destruct Hd as [Hnd _]. apply NoDup_cons in Hnd as [Hnd _].
    intros Hin. apply Hnd. apply elem_of_app. by left.
Qed.

Lemma Repr_evictLRU_nil w : Repr w [] → evictLRU w = Some (tt, w).
Proof.
  intros Hr. destruct (Repr_tail_prev _ _ Hr) as (hd & tl & et & Hhd & Htl & Het & Hp & _).
  unfold evictLRU.
  erewrite (bind_run (gets tail)) by (unfold gets; by rewrite Htl).
  erewrite bind_run by by apply load_run.
  erewrite (bind_run (gets head)) by (unfold gets; by rewrite Hhd).
  rewrite Hp. simpl. by rewrite decide_False by (intros ?; done).
Qed.

Lemma Repr_evictLRU_snoc w l a e :
  Repr w (l ++ [a]) → heap w !! a = Some e →
  ∃ h', evictLRU w =
          Some (tt, set_evictions (incr64 (evictions w))
                      (set_heap h' (set_data (delete (Key e) (data w)) w))) ∧
        Repr (set_evictions (incr64 (evictions w))
                (set_heap h' (set_data (delete (Key e) (data w)) w))) l ∧
        same_payload (heap w) h'.
Proof.
  intros Hr He.
  destruct (Repr_tail_prev _ _ Hr) as (hd & tl & et & Hhd & Htl & Het & Hp & Hnin).
  change (hd :: l ++ [a]) with ((hd :: l) ++ [a]) in Hp. rewrite last_snoc in Hp.
  destruct (Repr_removeEntry w l a [] e Hr He) as (h' & Hrun & Hr' & Hs).
  rewrite app_nil_r in Hr'.
  exists h'. split_and!; [| |done].
  - unfold evictLRU.
    erewrite (bind_run (gets tail)) by (unfold gets; by rewrite Htl).
    erewrite bind_run by by apply load_run.
    erewrite (bind_run (gets head)) by (unfold gets; by rewrite Hhd).
    rewrite Hp. rewrite decide_True.
    + erewrite bind_run by exact Hrun. done.
    + intros [= ->]. apply Hnin. apply elem_of_app. right. left.
  - eapply Repr_same; [..|exact Hr']; done.
Qed.

(** ** Facts about the abstraction *)

Lemma Abs_same w w' K :
  head w' = head w → tail w' = tail w → heap w' = heap w → data w' = data w →
  Abs w K → Abs w' K.
Proof.
  intros Hh Ht Hp Hd (l & Hr & Hk). exists l. split.
  - by eapply Repr_same.
  - by rewrite Hp.
Qed.

Lemma Abs_NoDup w K : Abs w K → NoDup K.
Proof.
  intros (l & Hr & Hk). pose proof Hr as (hd & tl & _ & _ & _ & Hi).
  eapply keyed_NoDup; [done|by eapply Repr_NoDup|done].
Qed.

Lemma Abs_size w K : Abs w K → size (data w) = length K.
Proof.
  intros (l & Hr & Hk). rewrite (Repr_size _ _ Hr).
  by eapply Forall2_length.
Qed.

Lemma Abs_elem w K k : Abs w K → k ∈ K ↔ is_Some (data w !! k).
Proof.
  intros (l & Hr & Hk). pose proof Hr as (hd & tl & _ & _ & _ & Hi). split.
  - intros Hin. destruct (keyed_elem _ _ _ _ Hk Hin) as (a & Ha & Hka).
    exists (Some a). apply Hi. eauto.
  - intros [p Hp]. apply Hi in Hp as (a & -> & Ha & Hka).
    destruct (keyed_elem_inv _ _ _ _ Hk Ha) as (k' & Hk' & Hka'). congruence.
Qed.

Lemma Abs_lookup w K k p :
  Abs w K → data w !! k = Some p →
  ∃ a e, p = Some a ∧ heap w !! a = Some e ∧ Key e = k.
Proof.
  intros (l & Hr & _) Hp.
  destruct (Repr_lookup _ _ _ _ Hr Hp) as (a & e & -> & _ & ? & ?). eauto.
Qed.

Lemma Abs_payload w K a f :
  (∀ e, Key (f e) = Key e) → (∀ e, Next (f e) = Next e) → (∀ e, Prev (f e) = Prev e) →
  Abs w K → Abs (set_heap (alter f a (heap w)) w) K.
Proof.
  intros HK HN HP (l & Hr & Hk). exists l. split; [by apply Repr_payload|].
  simpl. eapply keyed_frame; [|done]. intros x _. by apply key_at_alter_keep.
Qed.

Lemma Abs_split w K k a :
  Abs w K → data w !! k = Some (Some a) →
  ∃ l1 l2 K1 K2 e,
    Repr w (l1 ++ a :: l2) ∧ K = K1 ++ k :: K2 ∧ heap w !! a = Some e ∧ Key e = k ∧
    keyed (heap w) l1 K1 ∧ keyed (heap w) l2 K2.
Proof.
  intros (l & Hr & Hk) Hd.
  destruct (Repr_lookup _ _ _ _ Hr Hd) as (a' & e & [= <-] & Ha & He & HKe).
  apply list_elem_of_split in Ha as (l1 & l2 & ->).
  apply keyed_split in Hk as (K1 & k' & K2 & -> & Hk1 & Hka & Hk2).
  unfold key_at in Hka. rewrite He in Hka. simpl in Hka.
  exists l1, l2, K1, K2, e. split_and!; try done. congruence.
Qed.

Lemma Abs_removeEntry w K k a :
  Abs w K → data w !! k = Some (Some a) →
  ∃ h', removeEntry (Some a) w =
          Some (tt, set_heap h' (set_data (delete k (data w)) w)) ∧
        Abs (set_heap h' (set_data (delete k (data w)) w)) (filter (λ x, x ≠ k) K) ∧
        same_payload (heap w) h'.
Proof.
  intros Ha Hd. pose proof (Abs_NoDup _ _ Ha) as Hnd.
  destruct (Abs_split _ _ _ _ Ha Hd) as (l1 & l2 & K1 & K2 & e & Hr & -> & He & <- & Hk1 & Hk2).
  destruct (Repr_removeEntry _ _ _ _ _ Hr He) as (h' & Hrun & Hr' & Hs).
  exists h'. split_and!; [done| |done].
  exists (l1 ++ l2). split; [done|]. rewrite filter_ne_split by done.
  simpl. apply keyed_app; by eapply keyed_same_payload.
Qed.

Lemma Abs_moveToHead w K k a :
  Abs w K → data w !! k = Some (Some a) →
  ∃ h', moveToHead (Some a) w = Some (tt, set_heap h' w) ∧
        Abs (set_heap h' w) (k :: filter (λ x, x ≠ k) K) ∧
        same_payload (heap w) h'.
Proof.
  intros Ha Hd. pose proof (Abs_NoDup _ _ Ha) as Hnd.
  destruct (Abs_split _ _ _ _ Ha Hd) as (l1 & l2 & K1 & K2 & e & Hr & -> & He & <- & Hk1 & Hk2).
  destruct (Repr_moveToHead _ _ _ _ Hr) as (h' & Hrun & Hr' & Hs).
  exists h'. split_and!; [done| |done].
  exists (a :: l1 ++ l2). split; [done|]. rewrite filter_ne_split by done.
  simpl. constructor.
  - rewrite (same_payload_key _ _ _ Hs). unfold key_at. by rewrite He.
  - apply keyed_app; by eapply keyed_same_payload.
Qed.

(** ** Get *)

Lemma IsExpired_run w a e :
  heap w !! a = Some e →
  IsExpired (Some a) w = Some (expiredAt e (clock w (ticks w)), afterIsExpired e w).
Proof.
  intros He. unfold IsExpired. erewrite bind_run by by apply load_run.
  unfold expiredAt, afterIsExpired. destruct (Expiration e =? 0)%Z; done.
Qed.

Lemma afterIsExpired_fields e w :
  let w' := afterIsExpired e w in
  data w' = data w ∧ head w' = head w ∧ tail w' = tail w ∧ heap w' = heap w ∧
  clock w' = clock w ∧ hits w' = hits w ∧ misses w' = misses w ∧
  evictions w' = evictions w ∧ expiredRemovals w' = expiredRemovals w ∧
  maxSize w' = maxSize w ∧ defaultTTL w' = defaultTTL w.
Proof. unfold afterIsExpired. destruct (Expiration e =? 0)%Z; done. Qed.

Lemma Get_empty w : Get "" w = Some ((None, false), w).
Proof. done. Qed.

Lemma Get_missing w key :
  key ≠ "" → data w !! key = None →
  Get key w = Some ((None, false), set_misses (incr64 (misses w)) w).
Proof.
  intros Hne Hd. unfold Get. rewrite decide_False by done.
  unfold bind, gets. by rewrite Hd.
Qed.

Lemma Get_expired w K key a e :
  Abs w K → key ≠ "" → data w !! key = Some (Some a) → heap w !! a = Some e →
  expiredAt e (clock w (ticks w)) = true →
  ∃ h',
    let w' := set_misses (incr64 (misses w))
                (set_expiredRemovals (incr64 (expiredRemovals w))
                   (set_heap h' (set_data (delete key (data w))
                                   (set_ticks (S (ticks w)) w)))) in
    Get key w = Some ((None, false), w') ∧
    Abs w' (filter (λ x, x ≠ key) K) ∧ same_payload (heap w) h'.
Proof.
  intros Ha Hne Hd He Hexp.
  assert (afterIsExpired e w = set_ticks (S (ticks w)) w) as Hw1.
  { unfold afterIsExpired, expiredAt in *. by destruct (Expiration e =? 0)%Z. }
  destruct (Abs_removeEntry (set_ticks (S (ticks w)) w) K key a) as (h' & Hrun & Ha' & Hs);
    [by eapply Abs_same; [..|exact Ha]|done|].
  exists h'. split_and!; [| |done].
  - unfold Get. rewrite decide_False by done.
    erewrite (bind_run (gets data)) by done. rewrite Hd.
    erewrite bind_run by by apply IsExpired_run. rewrite Hexp, Hw1.
    erewrite bind_run by exact Hrun. done.
  - eapply Abs_same; [..|exact Ha']; done.
Qed.

Lemma Get_live w K key a e :
  Abs w K → key ≠ "" → data w !! key = Some (Some a) → heap w !! a = Some e →
  expiredAt e (clock w (ticks w)) = false →
  ∃ h',
    let t := ticks (afterIsExpired e w) in
    let w' := set_hits (incr64 (hits w)) (set_heap h' (set_ticks (S t) w)) in
    Get key w = Some ((Some a, true), w') ∧
    Abs w' (key :: filter (λ x, x ≠ key) K) ∧
    same_payload (alter (withAccessedAt (clock w t)) a (heap w)) h'.
Proof.
  intros Ha Hne Hd He Hexp.
  set (t := ticks (afterIsExpired e w)).
  set (w2 := set_heap (alter (withAccessedAt (clock w t)) a (heap w)) (set_ticks (S t) w)).
  assert (Abs w2 K) as Ha2.
  { eapply (Abs_same (set_heap (alter (withAccessedAt (clock w t)) a (heap w)) w));
      [done..|]. by apply Abs_payload. }
  destruct (Abs_moveToHead w2 K key a Ha2 Hd) as (h' & Hrun & Ha' & Hs).
  exists h'. split_and!; [| |done].
  - unfold Get. rewrite decide_False by done.
    erewrite (bind_run (gets data)) by done. rewrite Hd.
    erewrite bind_run by by apply IsExpired_run. rewrite Hexp.
    assert (UpdateAccessTime (Some a) (afterIsExpired e w) = Some (tt, w2)) as Hupd.
    { unfold UpdateAccessTime, time_Now. unfold bind at 1.
      erewrite assign_run; cycle 1.
      { simpl. destruct (afterIsExpired_fields e w) as (_ & _ & _ & -> & _). exact He. }
      unfold w2, t, afterIsExpired. destruct (Expiration e =? 0)%Z; done. }
    erewrite bind_run by exact Hupd.
    erewrite bind_run by exact Hrun. done.
  - eapply Abs_same; [..|exact Ha']; done.
Qed.

(** ** Delete and Clear *)

Lemma Delete_empty w : Delete "" w = Some ((false, false), w).
Proof. done. Qed.

Lemma Delete_missing w key :
  data w !! key = None → Delete key w = Some ((false, false), w).
Proof.
  intros Hd. unfold Delete. destruct (decide (key = "")); [done|].
  unfold bind, gets. by rewrite Hd.
Qed.

Lemma Delete_present w K key a :
  Abs w K → key ≠ "" → data w !! key = Some (Some a) →
  ∃ h',
    let w' := set_heap h' (set_data (delete key (data w)) w) in
    Delete key w = Some ((true, true), w') ∧
    Abs w' (filter (λ x, x ≠ key) K) ∧ same_payload (heap w) h'.
Proof.
  intros Ha Hne Hd.
  destruct (Abs_removeEntry w K key a Ha Hd) as (h' & Hrun & Ha' & Hs).
  exists h'. split_and!; [|done|done].
  unfold Delete. rewrite decide_False by done.
  erewrite (bind_run (gets data)) by done. rewrite Hd.
  erewrite bind_run by exact Hrun. done.
Qed.

Lemma Clear_spec w K :
  Abs w K →
  ∃ h',
    let w' := set_heap h' (set_data ∅ w) in
    Clear w = Some (Z.of_nat (size (data w)), w') ∧
    Abs w' [] ∧ same_payload (heap w) h'.
Proof.
  intros (l & Hr & Hk). pose proof Hr as (hd & tl & Hhd & Htl & Hd & Hi).
  destruct (dll_alloc _ _ _ _ hd Hd) as [eh Heh]; [left|].
  destruct (dll_alloc _ _ _ _ tl Hd) as [et Het].
  { right. apply elem_of_app. right. left. }
  assert (hd ≠ tl) as Hne.
  { destruct Hd as [Hnd _]. apply NoDup_cons in Hnd as [Hnd _].
    intros ->. apply Hnd. apply elem_of_app. right. left. }
  set (h' := alter (withPrev (Some hd)) tl (alter (withNext (Some tl)) hd (heap w))).
  exists h'. split_and!.
  - unfold Clear. erewrite (bind_run (gets _)) by done.
    unfold modify at 1. unfold bind at 1.
    erewrite (bind_run (gets head)) by (unfold gets; simpl; by rewrite Hhd).
    erewrite (bind_run (gets tail)) by (unfold gets; simpl; by rewrite Htl).
    erewrite bind_run by (eapply assign_run; simpl; eauto).
    erewrite (bind_run (gets tail)) by (unfold gets; simpl; by rewrite Htl).
    erewrite (bind_run (gets head)) by (unfold gets; simpl; by rewrite Hhd).
    assert (is_Some (alter (withNext (Some tl)) hd (heap w) !! tl)) as [et' Het'].
    { apply alter_is_Some. eauto. }
    erewrite bind_run by (eapply assign_run; simpl; eauto). done.
  - exists []. split; [|constructor]. exists hd, tl. split_and!; try done.
    + split.
      * simpl. apply NoDup_cons. split; [|apply NoDup_singleton].
        by intros ?%list_elem_of_singleton.
      * simpl. split_and!; try done.
        -- unfold h'. rewrite nxt_alter_keep by done. apply nxt_alter_withNext. eauto.
        -- unfold h'. apply prv_alter_withPrev. apply alter_is_Some. eauto.
    + apply indexed_empty.
  - unfold h'. eapply same_payload_trans; by apply same_payload_alter.
Qed.

(** ** Put *)

Lemma Put_unfold key value ttl w :
  key ≠ "" →
  Put key value ttl w =
    Put_body key value (putExpiration ttl w) (clock w (putTicks ttl w))
      (set_ticks (S (putTicks ttl w)) w).
Proof.
  intros Hne. unfold Put. rewrite decide_False by done.
  unfold putExpiration, putTicks, effectiveTTL.
  unfold bind at 1. unfold gets at 1.
  destruct ttl as [t|]; [destruct (0 <? t)%Z|]; try destruct (0 <? defaultTTL w)%Z; done.
Qed.

Lemma Put_empty value ttl w :
  Put "" value ttl w = Some (Some "key cannot be empty", w).
Proof. done. Qed.

Lemma Put_existing w K key value ttl a :
  Abs w K → key ≠ "" → data w !! key = Some (Some a) →
  ∃ h',
    let x := putExpiration ttl w in
    let now := clock w (putTicks ttl w) in
    let w' := set_heap h' (set_ticks (S (putTicks ttl w)) w) in
    Put key value ttl w = Some (None, w') ∧
    Abs w' (key :: filter (λ x, x ≠ key) K) ∧
    same_payload
      (alter (withAccessedAt now) a
         (alter (withExpiration x) a (alter (withValue value) a (heap w)))) h'.
Proof.
  intros Ha Hne Hd.
  destruct (Abs_lookup _ _ _ _ Ha Hd) as (a' & e & [= <-] & He & HKe).
  set (x := putExpiration ttl w). set (now := clock w (putTicks ttl w)).
  set (w1 := set_ticks (S (putTicks ttl w)) w).
  set (h1 := alter (withValue value) a (heap w)).
  set (h2 := alter (withExpiration x) a h1).
  set (h3 := alter (withAccessedAt now) a h2).
  assert (Abs (set_heap h3 w1) K) as Ha3.
  { assert (Abs w1 K) as Ha1 by (eapply Abs_same; [..|exact Ha]; done).
    apply (Abs_payload _ _ a (withValue value)) in Ha1; [|done..].
    apply (Abs_payload _ _ a (withExpiration x)) in Ha1; [|done..].
    apply (Abs_payload _ _ a (withAccessedAt now)) in Ha1; [|done..].
    exact Ha1. }
  destruct (Abs_moveToHead (set_heap h3 w1) K key a Ha3 Hd) as (h' & Hrun & Ha' & Hs).
  exists h'. split_and!; [|done|done].
  rewrite Put_unfold by done. fold x now w1. unfold Put_body.
  erewrite (bind_run (gets data)) by done.
  change (data w1) with (data w). rewrite Hd.
  assert (is_Some (h1 !! a)) as [e1 He1] by (apply alter_is_Some; eauto).
  assert (is_Some (h2 !! a)) as [e2 He2] by (apply alter_is_Some; eauto).
  erewrite bind_run by (eapply assign_run; simpl; eauto).
  erewrite bind_run by (eapply assign_run; simpl; eauto).
  erewrite bind_run by (eapply assign_run; simpl; eauto).
  erewrite bind_run by exact Hrun. done.
Qed.

Lemma Put_finish w l K a e key :
  Repr w l → keyed (heap w) l K → Some a ∉ nodes w l →
  heap w !! a = Some e → Key e = key → data w !! key = None →
  ∃ h',
    let w' := set_heap h' (set_data (<[key := Some a]> (data w)) w) in
    (modify (λ w, set_data (<[key := Some a]> (data w)) w);;
     addToHead (Some a);; ret (@None string)) w = Some (None, w') ∧
    Abs w' (key :: K) ∧ same_payload (heap w) h'.
Proof.
  intros Hr Hk Ha He <- Hd.
  destruct (Repr_insert w l a e Hr Ha He Hd) as (h' & Hrun & Hr' & Hs).
  exists h'. split_and!; [| |done].
  - unfold modify at 1. unfold bind at 1.
    erewrite bind_run by exact Hrun. done.
  - exists (a :: l). split; [done|]. simpl. constructor.
    + rewrite (same_payload_key _ _ _ Hs). unfold key_at. by rewrite He.
    + by eapply keyed_same_payload.
Qed.

Lemma Put_new w K key value ttl :
  Abs w K → key ≠ "" → data w !! key = None →
  ∃ h',
    let a := fresh (dom (heap w)) in
    let x := putExpiration ttl w in
    let now := clock w (putTicks ttl w) in
    let w' :=
      mkWorld
        (<[key := Some a]>
           (match lruVictim w K with Some v => delete v (data w) | None => data w end))
        (head w) (tail w) (maxSize w) (defaultTTL w) (startTime w) (hits w) (misses w)
        (match lruVictim w K with Some _ => incr64 (evictions w) | None => evictions w end)
        (expiredRemovals w) h' (clock w) (S (putTicks ttl w)) in
    Put key value ttl w = Some (None, w') ∧
    Abs w' (key :: match lruVictim w K with Some _ => removelast K | None => K end) ∧
    same_payload (<[a := mkEntry key value x now now None None]> (heap w)) h'.
Proof.
  intros Ha Hne Hd. pose proof (Abs_size _ _ Ha) as Hsz.
  destruct Ha as (l & Hr & Hk).
  set (a := fresh (dom (heap w))).
  set (x := putExpiration ttl w). set (now := clock w (putTicks ttl w)).
  set (e0 := mkEntry key value x now now None None).
  set (w1 := set_ticks (S (putTicks ttl w)) w).
  set (w2 := set_heap (<[a := e0]> (heap w)) w1).
  assert (Repr w2 l) as Hr2.
  { eapply (Repr_same (set_heap (<[a := e0]> (heap w)) w)); [done..|]. by apply Repr_new. }
  assert (Some a ∉ nodes w2 l) as Ha2.
  { eapply (nodes_sub w); [done..|]. by apply Repr_fresh. }
  assert (heap w2 !! a = Some e0) as He2 by (simpl; apply lookup_insert_eq).
  assert (keyed (heap w2) l K) as Hk2.
  { eapply keyed_frame; [|exact Hk]. intros y Hy. simpl. unfold key_at.
    rewrite lookup_insert_ne; [done|]. intros <-.
    apply Ha2. unfold nodes. right. apply elem_of_app. left.
    by apply list_elem_of_fmap_2. }
  assert (Put key value ttl w =
          ((if (maxSize w <=? Z.of_nat (length K))%Z then evictLRU else ret tt);;
           modify (λ w, set_data (<[key := Some a]> (data w)) w);;
           addToHead (Some a);; ret None) w2) as ->.
  { rewrite Put_unfold by done. fold x now w1. unfold Put_body.
    erewrite (bind_run (gets data)) by done.
    change (data w1) with (data w). rewrite Hd.
    erewrite (bind_run (new _) _ w1 (Some a) w2) by done.
    erewrite (bind_run (gets _)) by done.
    erewrite (bind_run (gets maxSize)) by done.
    change (size (data w2)) with (size (data w)). rewrite Hsz. done. }
  unfold lruVictim.
  destruct (maxSize w <=? Z.of_nat (length K))%Z eqn:Hfull;
    [destruct (snoc_cases l) as [->|(l' & v & ->)]|].
  - (* full, but nothing to evict *)
    apply Forall2_nil_inv_l in Hk2 as Hnil. subst K. simpl.
    erewrite bind_run by by apply Repr_evictLRU_nil.
    destruct (Put_finish w2 [] [] a e0 key) as (h' & Hrun & Ha' & Hs); try done.
    exists h'. split_and!; [|eapply Abs_same; [..|exact Ha']|]; done.
  - (* full: the last entry of the list goes *)
    pose proof Hk2 as Hk2'.
    apply Forall2_app_inv_l in Hk2' as (K' & Kv & Hk' & Hkv & ->).
    apply Forall2_cons_inv_l in Hkv as (kv & Knil & Hv & ->%Forall2_nil_inv_l & ->).
    unfold key_at in Hv. destruct (heap w2 !! v) as [ev|] eqn:Hev; [|done].
    simpl in Hv. injection Hv as Hv.
    destruct (Repr_evictLRU_snoc w2 l' v ev Hr2 Hev) as (h3 & Hrun3 & Hr3 & Hs3).
    rewrite Hv in Hrun3, Hr3.
    set (w3 := set_evictions (incr64 (evictions w2))
                 (set_heap h3 (set_data (delete kv (data w2)) w2))) in *.
    destruct (same_payload_lookup _ _ _ _ Hs3 He2) as (e3 & He3 & Hpe3).
    destruct (Put_finish w3 l' K' a e3 key) as (h' & Hrun & Ha' & Hs); try done.
    + simpl. by eapply keyed_same_payload.
    + eapply (nodes_sub w2); [done|done| |done].
      intros y Hy. apply elem_of_app. by left.
    + change (Key e3) with (Key (payload e3)). by rewrite Hpe3.
    + simpl. apply lookup_delete_None. by right.
    + rewrite last_snoc, removelast_last.
      exists h'. split_and!.
      * erewrite bind_run by exact Hrun3. exact Hrun.
      * eapply Abs_same; [..|exact Ha']; done.
      * eapply same_payload_trans; [exact Hs3|exact Hs].
  - (* room left *)
    destruct (Put_finish w2 l K a e0 key) as (h' & Hrun & Ha' & Hs); try done.
    exists h'. split_and!; [|eapply Abs_same; [..|exact Ha']|]; done.
Qed.

(** ** The sweep *)

Lemma config_same_trans w1 w2 w3 :
  config_same w1 w2 → config_same w2 w3 → config_same w1 w3.
Proof.
  unfold config_same. intros (-> & -> & -> & -> & -> & ->) (-> & -> & -> & -> & -> & ->).
  done.
Qed.

Lemma collectExpired_spec order : ∀ acc w K,
  Abs w K → ∃ ks t, collectExpired order acc w = Some (ks, set_ticks t w).
Proof.
  induction order as [|key order IH]; intros acc w K Ha.
  - exists acc, (ticks w). simpl. unfold ret. by destruct w.
  - simpl. erewrite (bind_run (gets data)) by done.
    destruct (data w !! key) as [p|] eqn:Hd; [|by eapply IH].
    destruct (Abs_lookup _ _ _ _ Ha Hd) as (a & e & -> & He & _).
    erewrite bind_run by by apply IsExpired_run.
    unfold afterIsExpired. destruct (Expiration e =? 0)%Z; [by eapply IH|].
    destruct (IH (if expiredAt e (clock w (ticks w)) then acc ++ [key] else acc)
                (set_ticks (S (ticks w)) w) K) as (ks & t & Hrun).
    { eapply Abs_same; [..|exact Ha]; done. }
    exists ks, t. by rewrite Hrun.
Qed.

Lemma removeExpired_spec ks : ∀ w K,
  Abs w K →
  ∃ w' K', removeExpired ks w = Some (tt, w') ∧ Abs w' K' ∧ sublist K' K ∧
           config_same w w' ∧ ticks w' = ticks w ∧ hits w' = hits w ∧
           misses w' = misses w ∧ evictions w' = evictions w.
Proof.
  induction ks as [|key ks IH]; intros w K Ha.
  - exists w, K. by split_and!.
  - simpl. erewrite (bind_run (gets data)) by done.
    destruct (data w !! key) as [p|] eqn:Hd; [|by apply IH].
    destruct (Abs_lookup _ _ _ _ Ha Hd) as (a & e & -> & He & _).
    destruct (Abs_removeEntry w K key a Ha Hd) as (h' & Hrun & Ha' & Hs).
    erewrite bind_run by exact Hrun.
    unfold modify at 1. unfold bind at 1.
    destruct (IH (set_expiredRemovals (incr64 (expiredRemovals w))
                    (set_heap h' (set_data (delete key (data w)) w)))
                 (filter (λ x, x ≠ key) K))
      as (w' & K' & Hrun' & Ha'' & Hsub & Hc & Ht & Hh & Hm & He');
      [eapply Abs_same; [..|exact Ha']; done|].
    exists w', K'. split_and!; try done.
    etrans; [exact Hsub|]. apply sublist_filter.
Qed.

Lemma cleanupExpired_spec order w K :
  Abs w K →
  ∃ w' K', cleanupExpired order w = Some (tt, w') ∧ Abs w' K' ∧ sublist K' K ∧
           config_same w w' ∧ hits w' = hits w ∧ misses w' = misses w ∧
           evictions w' = evictions w.
Proof.
  intros Ha. destruct (collectExpired_spec order [] w K Ha) as (ks & t & Hrun).
  destruct (removeExpired_spec ks (set_ticks t w) K)
    as (w' & K' & Hrun' & Ha' & Hsub & Hc & _ & Hh & Hm & He);
    [eapply Abs_same; [..|exact Ha]; done|].
  exists w', K'. split_and!; try done.
  unfold cleanupExpired. by erewrite bind_run by exact Hrun.
Qed.

(** ** Construction *)

Lemma NewCacheService_spec ms dttl w :
  ∃ h hd tl,
    let w0 := mkWorld ∅ (Some hd) (Some tl) ms dttl (clock w (ticks w)) 0 0 0 0
                h (clock w) (S (ticks w)) in
    NewCacheService nilValue ms dttl w = Some (tt, w0) ∧ Abs w0 [].
Proof.
  set (hd := fresh (dom (heap w))).
  set (h1 := <[hd := zeroEntry nilValue]> (heap w)).
  set (tl := fresh (dom h1)).
  set (h3 := alter (withPrev (Some hd)) tl
               (alter (withNext (Some tl)) hd (<[tl := zeroEntry nilValue]> h1))).
  assert (hd ≠ tl) as Hne.
  { intros Heq. assert (hd ∈ dom h1) as Hin.
    { apply elem_of_dom. unfold h1. rewrite lookup_insert_eq. eauto. }
    rewrite Heq in Hin. by apply is_fresh in Hin. }
  assert (is_Some (<[tl := zeroEntry nilValue]> h1 !! hd)) as [eh Heh].
  { rewrite lookup_insert_ne by done. unfold h1. rewrite lookup_insert_eq. eauto. }
  assert (is_Some (alter (withNext (Some tl)) hd (<[tl := zeroEntry nilValue]> h1) !! tl))
    as [et Het].
  { apply alter_is_Some. rewrite lookup_insert_eq. eauto. }
  exists h3, hd, tl. split.
  - set (w2 := mkWorld ∅ (Some hd) (Some tl) ms dttl (clock w (ticks w)) 0 0 0 0
                 (<[tl := zeroEntry nilValue]> h1) (clock w) (S (ticks w))).
    assert (NewCacheService nilValue ms dttl w =
            (do h <- gets head; do t <- gets tail;
             assign h (withNext t);;
             do t <- gets tail; do h <- gets head;
             assign t (withPrev h)) w2) as -> by reflexivity.
    erewrite (bind_run (gets head) _ w2 (Some hd) w2) by done.
    erewrite (bind_run (gets tail) _ w2 (Some tl) w2) by done.
    erewrite (bind_run (assign _ _)) by (eapply assign_run; exact Heh).
    erewrite (bind_run (gets tail) _ _ (Some tl)) by done.
    erewrite (bind_run (gets head) _ _ (Some hd)) by done.
    erewrite assign_run by exact Het. done.
  - exists []. split; [|constructor]. exists hd, tl. split_and!; try done.
    + split.
      * simpl. apply NoDup_cons. split; [|apply NoDup_singleton].
        by intros ?%list_elem_of_singleton.
      * simpl. split_and!; try done.
        -- unfold h3. rewrite nxt_alter_keep by done. apply nxt_alter_withNext. eauto.
        -- unfold h3. apply prv_alter_withPrev. eauto.
    + apply indexed_empty.
Qed.

(** ** One operation of a history *)

Lemma sublist_elem (K' K : list string) x : sublist K' K → x ∈ K' → x ∈ K.
Proof.
  induction 1 as [|y K1 K2 _ IH|y K1 K2 _ IH]; [done| |].
  - rewrite !elem_of_cons. intros [->|?]; [left|right]; auto.
  - intros ?. right. auto.
Qed.

Lemma sublist_removelast (K : list string) : sublist (removelast K) K.
Proof.
  destruct (snoc_cases K) as [->|(K' & v & ->)]; [constructor|].
  rewrite removelast_last. by apply sublist_inserts_r.
Qed.

Lemma filter_ne_length (K : list string) k :
  k ∈ K → S (length (filter (λ x, x ≠ k) K)) ≤ length K.
Proof. intros Hin. apply (length_filter_lt (λ x, x ≠ k) K k Hin). by intros ?. Qed.

Lemma filter_ne_not_elem (K : list string) k : k ∉ filter (λ x, x ≠ k) K.
Proof. rewrite list_elem_of_filter. by intros [? _]. Qed.

Lemma step_spec o w K :
  Abs w K → "" ∉ K →
  ∃ w' K',
    step o w = Some (tt, w') ∧ Abs w' K' ∧ ("" ∉ K') ∧ config_same w w' ∧
    ((0 < maxSize w)%Z → (Z.of_nat (length K) ≤ maxSize w)%Z →
     (Z.of_nat (length K') ≤ maxSize w)%Z) ∧
    match touched o w with
    | Some k => ∃ K'', K' = k :: K'' ∧ sublist K'' K ∧ k ∉ K''
    | None => sublist K' K
    end.
Proof.
  intros Ha He.
  assert (∀ k, "" ∉ filter (λ x, x ≠ k) K) as Hef.
  { intros k [_ ?]%list_elem_of_filter. done. }
  destruct o as [key value ttl|key|key| |order|]; simpl step; simpl touched.
  - (* Put *)
    destruct (decide (key = "")) as [->|Hne].
    { exists w, K. by split_and!. }
    destruct (data w !! key) as [p|] eqn:Hd.
    + destruct (Abs_lookup _ _ _ _ Ha Hd) as (a & e & -> & _ & _).
      destruct (Put_existing w K key value ttl a Ha Hne Hd) as (h' & Hrun & Ha' & _).
      cbv zeta in Hrun, Ha'.
      eexists _, _. split_and!.
      * erewrite bind_run by exact Hrun. done.
      * exact Ha'.
      * apply not_elem_of_cons. split; [by apply not_eq_sym|apply Hef].
      * done.
      * intros _ Hlen. simpl length.
        assert (key ∈ K) as Hin by (apply (Abs_elem _ _ _ Ha); eauto).
        pose proof (filter_ne_length K key Hin). lia.
      * eexists. split_and!; [done|apply sublist_filter|apply filter_ne_not_elem].
    + destruct (Put_new w K key value ttl Ha Hne Hd) as (h' & Hrun & Ha' & _).
      cbv zeta in Hrun, Ha'.
      assert (key ∉ K) as Hnin.
      { rewrite (Abs_elem _ _ _ Ha), Hd. by intros [? ?]. }
      assert (sublist (match lruVictim w K with Some _ => removelast K | None => K end) K)
        as Hsub.
      { destruct (lruVictim w K); [apply sublist_removelast|done]. }
      eexists _, _. split_and!.
      * erewrite bind_run by exact Hrun. done.
      * exact Ha'.
      * apply not_elem_of_cons. split; [by apply not_eq_sym|].
        intros Hin. apply He. eapply sublist_elem; done.
      * done.
      * intros Hpos Hlen. simpl length. unfold lruVictim.
        destruct (maxSize w <=? Z.of_nat (length K))%Z eqn:Hfull.
        -- apply Z.leb_le in Hfull.
           destruct (snoc_cases K) as [->|(K0 & v & ->)]; [simpl in *; lia|].
           rewrite last_snoc, removelast_last. rewrite length_app in Hlen.
           simpl in Hlen. lia.
        -- apply Z.leb_gt in Hfull. lia.
      * eexists. split_and!; [done|exact Hsub|].
        intros Hin. apply Hnin. eapply sublist_elem; done.
  - (* Get *)
    destruct (decide (key = "")) as [->|Hne].
    { exists w, K. rewrite Get_empty. by split_and!. }
    destruct (data w !! key) as [p|] eqn:Hd.
    + destruct (Abs_lookup _ _ _ _ Ha Hd) as (a & e & -> & Hea & _).
      destruct (expiredAt e (clock w (ticks w))) eqn:Hexp.
      * destruct (Get_expired w K key a e Ha Hne Hd Hea Hexp) as (h' & Hrun & Ha' & _).
        cbv zeta in Hrun, Ha'. rewrite Hrun.
        eexists _, _. split_and!.
        -- erewrite bind_run by exact Hrun. done.
        -- exact Ha'.
        -- apply Hef.
        -- done.
        -- intros _ Hlen. pose proof (length_filter (λ x, x ≠ key) K). lia.
        -- apply sublist_filter.
      * destruct (Get_live w K key a e Ha Hne Hd Hea Hexp) as (h' & Hrun & Ha' & _).
        cbv zeta in Hrun, Ha'. rewrite Hrun.
        eexists _, _. split_and!.
        -- erewrite bind_run by exact Hrun. done.
        -- exact Ha'.
        -- apply not_elem_of_cons. split; [by apply not_eq_sym|apply Hef].
        -- done.
        -- intros _ Hlen. simpl length.
           assert (key ∈ K) as Hin by (apply (Abs_elem _ _ _ Ha); eauto).
           pose proof (filter_ne_length K key Hin). lia.
        -- eexists. split_and!; [done|apply sublist_filter|apply filter_ne_not_elem].
    + rewrite (Get_missing w key Hne Hd).
      exists (set_misses (incr64 (misses w)) w), K. split_and!; try done.
      erewrite bind_run by by apply Get_missing. done.
  - (* Delete *)
    destruct (decide (key = "")) as [->|Hne].
    { exists w, K. by split_and!. }
    destruct (data w !! key) as [p|] eqn:Hd.
    + destruct (Abs_lookup _ _ _ _ Ha Hd) as (a & e & -> & _ & _).
      destruct (Delete_present w K key a Ha Hne Hd) as (h' & Hrun & Ha' & _).
      cbv zeta in Hrun, Ha'.
      eexists _, _. split_and!.
      * erewrite bind_run by exact Hrun. done.
      * exact Ha'.
      * apply Hef.
      * done.
      * intros _ Hlen. pose proof (length_filter (λ x, x ≠ key) K). lia.
      * apply sublist_filter.
    + exists w, K. split_and!; try done.
      erewrite bind_run by by apply Delete_missing. done.
  - (* Clear *)
    destruct (Clear_spec w K Ha) as (h' & Hrun & Ha' & _).
    cbv zeta in Hrun, Ha'.
    eexists _, _. split_and!.
    + erewrite bind_run by exact Hrun. done.
    + exact Ha'.
    + by intros ?%elem_of_nil.
    + done.
    + simpl. lia.
    + apply sublist_nil_l.
  - (* sweep *)
    destruct (cleanupExpired_spec order w K Ha) as (w' & K' & Hrun & Ha' & Hsub & Hc & _).
    exists w', K'. split_and!; try done.
    + intros Hin. apply He. eapply sublist_elem; done.
    + intros _ Hlen. apply sublist_length in Hsub. lia.
  - (* a reading of the clock *)
    exists (set_ticks (S (ticks w)) w), K. by split_and!.
Qed.

(** ** Stamps *)

Lemma recent_mono stamps b b' K : b ≤ b' → recent stamps b K → recent stamps b' K.
Proof.
  destruct K as [|k K]; [done|]. simpl. intros Hb (s & Hs & Hlt & Hr).
  exists s. split_and!; [done|lia|done].
Qed.

Lemma recent_sublist stamps K' K : sublist K' K → ∀ b, recent stamps b K → recent stamps b K'.
Proof.
  induction 1 as [|x K1 K2 _ IH|x K1 K2 _ IH]; intros b; [done| |].
  - simpl. intros (s & Hs & Hlt & Hr). exists s. split_and!; auto.
  - simpl. intros (s & Hs & Hlt & Hr). apply (recent_mono _ s); [lia|auto].
Qed.

Lemma recent_insert stamps b K k n :
  k ∉ K → recent stamps b K → recent (<[k := n]> stamps) b K.
Proof.
  revert b. induction K as [|x K IH]; intros b; [done|].
  rewrite not_elem_of_cons. intros [Hne Hk]. simpl.
  intros (s & Hs & Hlt & Hr). exists s. split_and!; [|done|auto].
  by rewrite lookup_insert_ne.
Qed.

Lemma recent_touch stamps n K K'' k :
  recent stamps n K → sublist K'' K → k ∉ K'' →
  recent (<[k := n]> stamps) (S n) (k :: K'').
Proof.
  intros Hr Hsub Hk. simpl. exists n. split_and!; [apply lookup_insert_eq|lia|].
  apply recent_insert; [done|]. by eapply recent_sublist.
Qed.

Lemma recent_bound stamps b K k :
  recent stamps b K → k ∈ K → ∃ s, stamps !! k = Some s ∧ s < b.
Proof.
  revert b. induction K as [|x K IH]; intros b; [by intros _ ?%elem_of_nil|].
  simpl. intros (s & Hs & Hlt & Hr). rewrite elem_of_cons. intros [->|Hin]; [eauto|].
  destruct (IH s Hr Hin) as (s' & ? & ?). exists s'. split; [done|lia].
Qed.

Lemma recent_last stamps b K v k :
  recent stamps b (K ++ [v]) → k ∈ K →
  ∃ sv sk, stamps !! v = Some sv ∧ stamps !! k = Some sk ∧ sv < sk.
Proof.
  revert b. induction K as [|x K IH]; intros b; [by intros _ ?%elem_of_nil|].
  simpl. intros (s & Hs & Hlt & Hr). rewrite elem_of_cons. intros [->|Hin].
  - destruct (recent_bound _ _ _ v Hr) as (sv & ? & ?).
    { apply elem_of_app. right. left. }
    exists sv, s. done.
  - by eapply IH.
Qed.

(** ** Histories *)

Lemma run_spec ops : ∀ w K n stamps,
  Abs w K → "" ∉ K → recent stamps n K →
  ∃ w' K',
    run ops w = Some (tt, w') ∧ Abs w' K' ∧ ("" ∉ K') ∧ config_same w w' ∧
    ((0 < maxSize w)%Z → (Z.of_nat (length K) ≤ maxSize w)%Z →
     (Z.of_nat (length K') ≤ maxSize w)%Z) ∧
    recent (lastTouch ops w n stamps) (n + length ops) K'.
Proof.
  induction ops as [|o ops IH]; intros w K n stamps Ha He Hr.
  - exists w, K. split_and!; try done. simpl. by rewrite Nat.add_0_r.
  - destruct (step_spec o w K Ha He) as (w1 & K1 & Hrun1 & Ha1 & He1 & Hc1 & Hlen1 & Ht).
    set (stamps1 := match touched o w with
                    | Some key => <[key := n]> stamps
                    | None => stamps
                    end).
    assert (recent stamps1 (S n) K1) as Hr1.
    { unfold stamps1. destruct (touched o w) as [k|].
      - destruct Ht as (K'' & -> & Hsub & Hk). by eapply recent_touch.
      - apply (recent_mono _ n); [lia|]. by eapply recent_sublist. }
    destruct (IH w1 K1 (S n) stamps1 Ha1 He1 Hr1)
      as (w' & K' & Hrun & Ha' & He' & Hc' & Hlen' & Hr').
    exists w', K'. split_and!; try done.
    + simpl. erewrite bind_run by exact Hrun1. exact Hrun.
    + by eapply config_same_trans.
    + intros Hpos Hlen. destruct Hc1 as (Hms & _). rewrite Hms in Hlen'. auto.
    + simpl. rewrite Hrun1. fold stamps1.
      replace (n + S (length ops)) with (S n + length ops) by lia. done.
Qed.

Lemma reach_spec ms dttl clk ops :
  ∃ w K,
    reach nilValue ms dttl clk ops = Some w ∧ Abs w K ∧ ("" ∉ K) ∧
    maxSize w = ms ∧ defaultTTL w = dttl ∧ clock w = clk ∧
    ((0 < ms)%Z → (Z.of_nat (length K) ≤ ms)%Z) ∧
    recent (history nilValue ms dttl clk ops) (length ops) K.
Proof.
  destruct (NewCacheService_spec ms dttl (blank clk)) as (h & hd & tl & Hnew & Ha0).
  cbv zeta in Hnew, Ha0.
  set (w0 := mkWorld ∅ (Some hd) (Some tl) ms dttl (clock (blank clk) (ticks (blank clk)))
               0 0 0 0 h (clock (blank clk)) (S (ticks (blank clk)))) in *.
  destruct (run_spec ops w0 [] 0 ∅ Ha0) as (w & K & Hrun & Ha & He & Hc & Hlen & Hr);
    [by intros ?%elem_of_nil|done|].
  destruct Hc as (Hms & Hd & Hclk & _).
  exists w, K. split_and!; try done.
  - unfold reach. erewrite bind_run by exact Hnew. by rewrite Hrun.
  - intros Hpos. apply Hlen; simpl; lia.
  - unfold history. by rewrite Hnew.
Qed.

Lemma reach_WF ms dttl clk ops w : reach nilValue ms dttl clk ops = Some w → WF w.
Proof.
  intros Hw. destruct (reach_spec ms dttl clk ops) as (w' & K & Hw' & Ha & He & _).
  exists K. split; [|done]. congruence.
Qed.

(** ** Well-formedness is preserved *)

Lemma step_WF o w : WF w → ∃ w', step o w = Some (tt, w') ∧ WF w'.
Proof.
  intros (K & Ha & He).
  destruct (step_spec o w K Ha He) as (w' & K' & Hrun & Ha' & He' & _).
  exists w'. split; [done|]. by exists K'.
Qed.

Lemma Get_WF key w r w' : WF w → Get key w = Some (r, w') → WF w'.
Proof.
  intros Hwf Hrun. destruct (step_WF (OpGet key) w Hwf) as (w'' & Hstep & Hwf').
  simpl in Hstep. unfold bind in Hstep. rewrite Hrun in Hstep.
  injection Hstep as <-. done.
Qed.

Lemma Put_WF key value ttl w r w' : WF w → Put key value ttl w = Some (r, w') → WF w'.
Proof.
  intros Hwf Hrun. destruct (step_WF (OpPut key value ttl) w Hwf) as (w'' & Hstep & Hwf').
  simpl in Hstep. unfold bind in Hstep. rewrite Hrun in Hstep.
  injection Hstep as <-. done.
Qed.

Lemma Delete_WF key w r w' : WF w → Delete key w = Some (r, w') → WF w'.
Proof.
  intros Hwf Hrun. destruct (step_WF (OpDelete key) w Hwf) as (w'' & Hstep & Hwf').
  simpl in Hstep. unfold bind in Hstep. rewrite Hrun in Hstep.
  injection Hstep as <-. done.
Qed.

Lemma WF_present w key p :
  WF w → data w !! key = Some p →
  key ≠ "" ∧ ∃ a e, p = Some a ∧ heap w !! a = Some e ∧ Key e = key.
Proof.
  intros (K & Ha & He) Hd. split.
  - intros ->. apply He. apply (Abs_elem _ _ _ Ha). eauto.
  - by eapply Abs_lookup.
Qed.

(** ** What [Put] leaves behind *)

Lemma payload_Value e e' : payload e' = payload e → Value e' = Value e.
Proof. intros H. change (Value (payload e') = Value (payload e)). by rewrite H. Qed.

Lemma payload_Expiration e e' : payload e' = payload e → Expiration e' = Expiration e.
Proof. intros H. change (Expiration (payload e') = Expiration (payload e)). by rewrite H. Qed.

Lemma Put_stores w key value ttl :
  WF w → key ≠ "" →
  ∃ w1 a e1,
    Put key value ttl w = Some (None, w1) ∧ WF w1 ∧
    data w1 !! key = Some (Some a) ∧ heap w1 !! a = Some e1 ∧
    Value e1 = value ∧ Expiration e1 = putExpiration ttl w ∧
    clock w1 = clock w ∧ ticks w1 = S (putTicks ttl w).
Proof.
  intros Hwf Hne. pose proof Hwf as (K & Ha & He).
  destruct (data w !! key) as [p|] eqn:Hd.
  - destruct (Abs_lookup _ _ _ _ Ha Hd) as (a & e & -> & Hea & _).
    destruct (Put_existing w K key value ttl a Ha Hne Hd) as (h' & Hrun & Ha' & Hs).
    cbv zeta in Hrun, Ha', Hs.
    destruct (same_payload_lookup _ _ a
                (withAccessedAt (clock w (putTicks ttl w))
                   (withExpiration (putExpiration ttl w) (withValue value e))) Hs)
      as (e1 & He1 & Hp).
    { rewrite lookup_alter_eq, lookup_alter_eq, lookup_alter_eq, Hea. done. }
    eexists _, a, e1. split_and!; [exact Hrun|by eapply Put_WF|done|done| | |done|done].
    + by rewrite (payload_Value _ _ Hp).
    + by rewrite (payload_Expiration _ _ Hp).
  - destruct (Put_new w K key value ttl Ha Hne Hd) as (h' & Hrun & Ha' & Hs).
    cbv zeta in Hrun, Ha', Hs.
    destruct (same_payload_lookup _ _ (fresh (dom (heap w)))
                (mkEntry key value (putExpiration ttl w) (clock w (putTicks ttl w))
                   (clock w (putTicks ttl w)) None None) Hs)
      as (e1 & He1 & Hp).
    { apply lookup_insert_eq. }
    eexists _, _, e1. split_and!; [exact Hrun|by eapply Put_WF| |exact He1| | |done|done].
    + simpl. apply lookup_insert_eq.
    + by rewrite (payload_Value _ _ Hp).
    + by rewrite (payload_Expiration _ _ Hp).
Qed.

Lemma Put_at_capacity w K key value ttl :
  Abs w K → (0 < maxSize w)%Z → key ≠ "" → data w !! key = None →
  (maxSize w ≤ Z.of_nat (size (data w)))%Z →
  ∃ K0 victim a h',
    let w' := mkWorld (<[key := Some a]> (delete victim (data w)))
                (head w) (tail w) (maxSize w) (defaultTTL w) (startTime w)
                (hits w) (misses w) (incr64 (evictions w)) (expiredRemovals w)
                h' (clock w) (S (putTicks ttl w)) in
    K = K0 ++ [victim] ∧ Put key value ttl w = Some (None, w') ∧ Abs w' (key :: K0).
Proof.
  intros Ha Hpos Hne Hd Hfull. pose proof (Abs_size _ _ Ha) as Hsz.
  destruct (Put_new w K key value ttl Ha Hne Hd) as (h' & Hrun & Ha' & _).
  cbv zeta in Hrun, Ha'.
  destruct (snoc_cases K) as [->|(K0 & v & ->)]; [simpl in Hsz; lia|].
  assert (lruVictim w (K0 ++ [v]) = Some v) as Hv.
  { unfold lruVictim. rewrite <-Hsz.
    destruct (maxSize w <=? Z.of_nat (size (data w)))%Z eqn:Hle.
    - apply last_snoc.
    - apply Z.leb_gt in Hle. lia. }
  rewrite Hv in Hrun, Ha'. rewrite removelast_last in Ha'.
  by exists K0, v, (fresh (dom (heap w))), h'.
Qed.

(** ** Bulk reads *)

Lemma ToResponse_run w a e :
  heap w !! a = Some e →
  ToResponse (Some a) w =
    Some (mkGetResponse (Key e) (Value e) true (expiredAt e (clock w (ticks w)))
            (CreatedAt e) (AccessedAt e), afterIsExpired e w).
Proof.
  intros He. unfold ToResponse. erewrite bind_run by by apply load_run.
  erewrite bind_run by by apply IsExpired_run. done.
Qed.

Lemma afterIsExpired_WF e w : WF w → WF (afterIsExpired e w).
Proof. unfold afterIsExpired. by destruct (Expiration e =? 0)%Z. Qed.

Lemma Get_cases w key :
  WF w →
  ∃ p found w1,
    Get key w = Some ((p, found), w1) ∧ WF w1 ∧
    if found then
      ∃ a e1, p = Some a ∧ heap w1 !! a = Some e1 ∧ Key e1 = key ∧ key ≠ "" ∧
              hits w1 = incr64 (hits w) ∧ misses w1 = misses w
    else
      hits w1 = hits w ∧
      misses w1 = if decide (key = "") then misses w else incr64 (misses w).
Proof.
  intros Hwf. destruct (decide (key = "")) as [->|Hne].
  { exists None, false, w. by rewrite Get_empty. }
  destruct (data w !! key) as [p|] eqn:Hd.
  - destruct (WF_present _ _ _ Hwf Hd) as (_ & a & e & -> & He & _).
    pose proof Hwf as (K & Ha & _).
    destruct (expiredAt e (clock w (ticks w))) eqn:Hexp.
    + destruct (Get_expired w K key a e Ha Hne Hd He Hexp) as (h' & Hrun & _).
      cbv zeta in Hrun. eexists None, false, _.
      split_and!; [exact Hrun|by eapply Get_WF|done|done].
    + destruct (Get_live w K key a e Ha Hne Hd He Hexp) as (h' & Hrun & _).
      cbv zeta in Hrun. pose proof (Get_WF _ _ _ _ Hwf Hrun) as Hwf1.
      destruct (WF_present _ (key) (Some a) Hwf1) as (_ & a' & e1 & [= <-] & He1 & HK);
        [exact Hd|].
      eexists (Some a), true, _. split_and!; [exact Hrun|done|].
      exists a, e1. by split_and!.
  - exists None, false, (set_misses (incr64 (misses w)) w).
    split_and!; [by apply Get_missing| |done|done].
    eapply Get_WF; [done|by apply Get_missing].
Qed.

Lemma tally_cons_same b outs : tally b (b :: outs) = S (tally b outs).
Proof. unfold tally. by rewrite filter_cons_True. Qed.

Lemma tally_cons_other b b' outs : b' ≠ b → tally b (b' :: outs) = tally b outs.
Proof. intros Hne. unfold tally. by rewrite filter_cons_False. Qed.

Lemma missed_cons_miss key keys outs :
  key ≠ "" → missed (key :: keys) (false :: outs) = S (missed keys outs).
Proof. intros Hne. unfold missed. simpl zip. by rewrite filter_cons_True. Qed.

Lemma missed_cons_skip key keys found outs :
  key = "" ∨ found = true → missed (key :: keys) (found :: outs) = missed keys outs.
Proof.
  intros Hs. unfold missed. simpl zip. rewrite filter_cons_False; [done|].
  simpl. intros [? ?]. destruct Hs; congruence.
Qed.

Lemma iter_incr64_shift n z : Nat.iter n incr64 (incr64 z) = incr64 (Nat.iter n incr64 z).
Proof. induction n as [|n IH]; [done|]. simpl. by rewrite IH. Qed.

Lemma BulkGet_loop_spec keys : ∀ w response,
  WF w →
  ∃ outs response' w',
    BulkGet_loop nilValue keys response w = Some (response', w') ∧ WF w' ∧
    bulk_steps keys w outs w' ∧
    Found response' = (Found response + Z.of_nat (tally true outs))%Z ∧
    NotFound response' = (NotFound response + Z.of_nat (tally false outs))%Z ∧
    length outs = length keys ∧
    (∀ k, k ∈ keys →
          ∃ r, Results response' !! k = Some r ∧ rKey r = k ∧
               (k, rFound r) ∈ zip keys outs) ∧
    (∀ k, k ∉ keys → Results response' !! k = Results response !! k) ∧
    hits w' = Nat.iter (tally true outs) incr64 (hits w) ∧
    misses w' = Nat.iter (missed keys outs) incr64 (misses w).
Proof.
  induction keys as [|key keys IH]; intros w response Hwf.
  - exists [], response, w. split_and!; try done; try (simpl; lia).
    all: try (by intros k ?%elem_of_nil).
    all: try (unfold tally; simpl; lia).
    constructor.
  - destruct (Get_cases w key Hwf) as (p & found & w1 & Hget & Hwf1 & Hout).
    destruct found.
    + destruct Hout as (a & e1 & -> & He1 & HK & Hne & Hh & Hm).
      set (r1 := mkGetResponse (Key e1) (Value e1) true
                   (expiredAt e1 (clock w1 (ticks w1))) (CreatedAt e1) (AccessedAt e1)).
      set (resp1 := mkBulkGetResponse (<[key := r1]> (Results response))
                      (Found response + 1) (NotFound response)).
      destruct (IH (afterIsExpired e1 w1) resp1 (afterIsExpired_WF _ _ Hwf1))
        as (outs & resp' & w' & Hrun & Hwf' & Hsteps & HF & HN & Hlen & Hres & Hfr & Hh' & Hm').
      simpl in HF, HN.
      exists (true :: outs), resp', w'. split_and!.
      * simpl. erewrite bind_run by exact Hget. cbv beta iota.
        erewrite (bind_run _ _ w1 resp1 (afterIsExpired e1 w1)); [exact Hrun|].
        erewrite bind_run by by apply ToResponse_run. done.
      * exact Hwf'.
      * econstructor; [exact Hget| |exact Hsteps].
        unfold afterIsExpired. destruct (Expiration e1 =? 0)%Z; [by left|by right].
      * rewrite HF, tally_cons_same. lia.
      * rewrite HN, tally_cons_other by done. lia.
      * simpl. by rewrite Hlen.
      * intros k Hk. destruct (decide (k ∈ keys)) as [Hin|Hnin].
        -- destruct (Hres k Hin) as (r & Hr & Hkr & Hz). exists r.
           split_and!; [done|done|]. simpl. by right.
        -- apply elem_of_cons in Hk as [->|?]; [|done].
           exists r1. split_and!; [|done|simpl; left].
           rewrite (Hfr key Hnin). simpl. apply lookup_insert_eq.
      * intros k Hk. apply not_elem_of_cons in Hk as [Hne' Hnin].
        rewrite (Hfr k Hnin). simpl. by rewrite lookup_insert_ne.
      * rewrite Hh', tally_cons_same.
        replace (hits (afterIsExpired e1 w1)) with (hits w1)
          by (unfold afterIsExpired; by destruct (Expiration e1 =? 0)%Z).
        rewrite Hh. simpl. apply iter_incr64_shift.
      * rewrite Hm', missed_cons_skip by (by right).
        replace (misses (afterIsExpired e1 w1)) with (misses w1)
          by (unfold afterIsExpired; by destruct (Expiration e1 =? 0)%Z).
        by rewrite Hm.
    + destruct Hout as (Hh & Hm).
      set (r1 := mkGetResponse key nilValue false false zeroTime zeroTime).
      set (resp1 := mkBulkGetResponse (<[key := r1]> (Results response))
                      (Found response) (NotFound response + 1)).
      destruct (IH w1 resp1 Hwf1)
        as (outs & resp' & w' & Hrun & Hwf' & Hsteps & HF & HN & Hlen & Hres & Hfr & Hh' & Hm').
      simpl in HF, HN.
      exists (false :: outs), resp', w'. split_and!.
      * simpl. erewrite bind_run by exact Hget. cbv beta iota.
        erewrite (bind_run _ _ w1 resp1 w1); [exact Hrun|done].
      * exact Hwf'.
      * econstructor; [exact Hget|by left|exact Hsteps].
      * rewrite HF, tally_cons_other by done. lia.
      * rewrite HN, tally_cons_same. lia.
      * simpl. by rewrite Hlen.
      * intros k Hk. destruct (decide (k ∈ keys)) as [Hin|Hnin].
        -- destruct (Hres k Hin) as (r & Hr & Hkr & Hz). exists r.
           split_and!; [done|done|]. simpl. by right.
        -- apply elem_of_cons in Hk as [->|?]; [|done].
           exists r1. split_and!; [|done|simpl; left].
           rewrite (Hfr key Hnin). simpl. apply lookup_insert_eq.
      * intros k Hk. apply not_elem_of_cons in Hk as [Hne' Hnin].
        rewrite (Hfr k Hnin). simpl. by rewrite lookup_insert_ne.
      * rewrite Hh', tally_cons_other by done. by rewrite Hh.
      * rewrite Hm', Hm. destruct (decide (key = "")) as [->|Hne].
        -- by rewrite missed_cons_skip by (by left).
        -- rewrite missed_cons_miss by done. simpl. apply iter_incr64_shift.
Qed.

Lemma tally_total outs : tally true outs + tally false outs = length outs.
Proof.
  induction outs as [|[] outs IH]; [done| |].
  - rewrite tally_cons_same, tally_cons_other by done. simpl. lia.
  - rewrite tally_cons_same, tally_cons_other by done. simpl. lia.
Qed.

(** A bulk read is a history of reads and clock readings. *)
Lemma bulk_steps_run keys w outs w' :
  bulk_steps keys w outs w' →
  ∃ ops, run ops w = Some (tt, w') ∧ omap get_key ops = keys ∧
         Forall (λ o, o = OpNow ∨ ∃ key, o = OpGet key) ops.
Proof.
  induction 1 as [w|key keys w p found w1 w2 outs w3 Hget Hgap _ (ops & Hrun & Hk & Hall)].
  - exists []. by split_and!.
  - destruct Hgap as [->|[-> ->]].
    + exists (OpGet key :: ops). split_and!.
      * simpl. erewrite (bind_run (_ ;; _) _ w tt w1); [exact Hrun|].
        by erewrite bind_run by exact Hget.
      * rewrite <-Hk. reflexivity.
      * constructor; [right; eauto|done].
    + exists (OpGet key :: OpNow :: ops). split_and!.
      * simpl. erewrite (bind_run (_ ;; _) _ w tt w1); cycle 1.
        { by erewrite bind_run by exact Hget. }
        erewrite (bind_run (_ ;; _) _ w1 tt (set_ticks (S (ticks w1)) w1)); [exact Hrun|done].
      * rewrite <-Hk. reflexivity.
      * constructor; [right; eauto|]. constructor; [by left|done].
Qed.

(** ** The remaining TTL at the boundary *)

Lemma GetTTL_boundary w a e :
  heap w !! a = Some e → Expiration e ≠ 0%Z →
  Expiration e = Unix (clock w (ticks w)) →
  GetTTL (Some a) w = Some (0%Z, set_ticks (S (ticks w)) w).
Proof.
  intros He Hx Heq. unfold GetTTL. erewrite bind_run by by apply load_run.
  apply Z.eqb_neq in Hx. rewrite Hx.
  unfold time_Now. unfold bind at 1. rewrite <-Heq, Z.sub_diag. done.
Qed.

(** * The claims *)

(** C10.  [Put] with the empty key returns the invalid-key error and leaves
    the whole state as it was: the index, the heap with the recency list,
    every counter, and even the clock, which is not read. *)
Theorem Put_empty_key_no_effect (w : World) (value : V) (ttl : option Z) :
  Put "" value ttl w = Some (Some "key cannot be empty", w).
Proof. apply Put_empty. Qed.

(** C5.  The four outcomes of [Get] on a well-formed state.  An empty key:
    not found, the state is unchanged.  A missing key: not found, and the
    state differs in the misses counter only, which is incremented.  A key
    whose entry [IsExpired] reports expired: not found, the entry leaves the
    index and the recency list, whose other keys keep their order, and the
    expired-removals and misses counters are incremented; hits and evictions
    stay.  A key whose entry is live: found, only the hits counter is
    incremented, and the key moves to the front of the recency list.  The
    state stays well formed.  Every present key falls in one of the last two
    cases. *)
Theorem Get_outcomes (w : World) (key : string) :
  WF w →
  (key = "" → Get key w = Some ((None, false), w)) ∧
  (key ≠ "" → data w !! key = None →
   Get key w = Some ((None, false), set_misses (incr64 (misses w)) w)) ∧
  (∀ p, data w !! key = Some p →
        ∃ a e, p = Some a ∧ heap w !! a = Some e ∧
          if expiredAt e (clock w (ticks w)) then
            ∃ w', Get key w = Some ((None, false), w') ∧
                  data w' = delete key (data w) ∧
                  expiredRemovals w' = incr64 (expiredRemovals w) ∧
                  misses w' = incr64 (misses w) ∧
                  hits w' = hits w ∧ evictions w' = evictions w ∧
                  WF w' ∧
                  (∀ K, Abs w K → Abs w' (filter (λ x, x ≠ key) K))
          else
            ∃ w', Get key w = Some ((Some a, true), w') ∧
                  data w' = data w ∧
                  hits w' = incr64 (hits w) ∧
                  misses w' = misses w ∧ evictions w' = evictions w ∧
                  expiredRemovals w' = expiredRemovals w ∧
                  WF w' ∧
                  (∀ K, Abs w K → Abs w' (key :: filter (λ x, x ≠ key) K))).
Proof.
  intros Hwf. split_and!.
  - intros ->. apply Get_empty.
  - apply Get_missing.
  - intros p Hd. destruct (WF_present _ _ _ Hwf Hd) as (Hne & a & e & -> & He & _).
    pose proof Hwf as (K & Ha & _).
    exists a, e. split_and!; [done..|].
    destruct (expiredAt e (clock w (ticks w))) eqn:Hexp.
    + destruct (Get_expired w K key a e Ha Hne Hd He Hexp) as (h' & Hrun & _).
      cbv zeta in Hrun. eexists. split; [exact Hrun|].
      split_and!; [done..| |].
      * by eapply Get_WF.
      * intros K0 Ha0.
        destruct (Get_expired w K0 key a e Ha0 Hne Hd He Hexp) as (h0 & Hrun0 & Ha0' & _).
        cbv zeta in Hrun0, Ha0'. rewrite Hrun in Hrun0. by injection Hrun0 as ->.
    + destruct (Get_live w K key a e Ha Hne Hd He Hexp) as (h' & Hrun & _).
      cbv zeta in Hrun. eexists. split; [exact Hrun|].
      split_and!; [done..| |].
      * by eapply Get_WF.
      * intros K0 Ha0.
        destruct (Get_live w K0 key a e Ha0 Hne Hd He Hexp) as (h0 & Hrun0 & Ha0' & _).
        cbv zeta in Hrun0, Ha0'. rewrite Hrun in Hrun0. by injection Hrun0 as ->.
Qed.

(** C1, as the code has it.  [IsExpired] compares with [>]: an entry whose
    expiration is set and lies strictly before the current Unix second is
    removed by [Get] and reported not found, whatever the sweep did; at the
    boundary, when the current Unix second equals the expiration, [Get] still
    returns the entry. *)
Theorem Get_expiry (w : World) (key : string) (a : nat) (e : CacheEntry) :
  WF w → data w !! key = Some (Some a) → heap w !! a = Some e →
  Expiration e ≠ 0%Z →
  ((Expiration e < Unix (clock w (ticks w)))%Z →
   ∃ w', Get key w = Some ((None, false), w') ∧
         data w' = delete key (data w) ∧ data w' !! key = None ∧ WF w') ∧
  (Expiration e = Unix (clock w (ticks w)) →
   ∃ w', Get key w = Some ((Some a, true), w')).
Proof.
  intros Hwf Hd He Hx.
  destruct (WF_present _ _ _ Hwf Hd) as (Hne & _).
  pose proof Hwf as (K & Ha & _).
  apply Z.eqb_neq in Hx. split.
  - intros Hlt.
    assert (expiredAt e (clock w (ticks w)) = true) as Hexp.
    { unfold expiredAt. rewrite Hx. simpl. apply Z.gtb_lt. lia. }
    destruct (Get_expired w K key a e Ha Hne Hd He Hexp) as (h' & Hrun & _).
    cbv zeta in Hrun. eexists. split_and!; [exact Hrun|done| |by eapply Get_WF].
    simpl. apply lookup_delete_eq.
  - intros Heq.
    assert (expiredAt e (clock w (ticks w)) = false) as Hexp.
    { unfold expiredAt. rewrite Hx. simpl. rewrite Z.gtb_ltb. apply Z.ltb_ge. lia. }
    destruct (Get_live w K key a e Ha Hne Hd He Hexp) as (h' & Hrun & _).
    cbv zeta in Hrun. eexists. exact Hrun.
Qed.

(** C9.  [Delete] of a key that is in the index with an entry that has already
    expired (and that no sweep has removed): the entry is removed, both
    results are true, and the hits, misses, evictions and expired-removals
    counters are as before; the clock is not even read. *)
Theorem Delete_expired_entry (w : World) (key : string) (a : nat) (e : CacheEntry) :
  WF w → data w !! key = Some (Some a) → heap w !! a = Some e →
  expiredAt e (clock w (ticks w)) = true →
  ∃ w', Delete key w = Some ((true, true), w') ∧
        data w' = delete key (data w) ∧ data w' !! key = None ∧
        hits w' = hits w ∧ misses w' = misses w ∧
        evictions w' = evictions w ∧ expiredRemovals w' = expiredRemovals w ∧
        ticks w' = ticks w ∧ WF w'.
Proof.
  intros Hwf Hd He _.
  destruct (WF_present _ _ _ Hwf Hd) as (Hne & _).
  pose proof Hwf as (K & Ha & _).
  destruct (Delete_present w K key a Ha Hne Hd) as (h' & Hrun & _).
  cbv zeta in Hrun. eexists. split_and!; [exact Hrun|done| |done..|by eapply Delete_WF].
  simpl. apply lookup_delete_eq.
Qed.

(** C6.  [Clear] returns the number of entries held when it is called, leaves
    an empty index and an empty list between the sentinels, and leaves the
    four counters as they were.  On an empty cache the number is 0. *)
Theorem Clear_empties (w : World) :
  WF w →
  ∃ K w', Abs w K ∧
          Clear w = Some (Z.of_nat (length K), w') ∧
          length K = size (data w) ∧
          data w' = ∅ ∧ Abs w' [] ∧
          hits w' = hits w ∧ misses w' = misses w ∧
          evictions w' = evictions w ∧ expiredRemovals w' = expiredRemovals w ∧
          (data w = ∅ → Z.of_nat (length K) = 0%Z).
Proof.
  intros (K & Ha & _). pose proof (Abs_size _ _ Ha) as Hsz.
  destruct (Clear_spec w K Ha) as (h' & Hrun & Ha' & _). cbv zeta in Hrun, Ha'.
  rewrite Hsz in Hrun.
  eexists K, _. split_and!; [done|exact Hrun|done|done|exact Ha'|done..|].
  intros Hd. rewrite Hd, map_size_empty in Hsz. by rewrite <-Hsz.
Qed.

(** C4.  After a successful [Put] of [value] under a non-empty key, [Get] of
    that key finds the entry and the entry carries [value], provided the
    clock reading that [Get] compares is earlier than the reading at which
    [Put] computed the expiration plus the TTL that [Put] applied (when it
    applied none, the entry never expires).  [Put] itself always succeeds on a
    well-formed state. *)
Theorem Put_then_Get (w : World) (key : string) (value : V) (ttl : option Z) :
  WF w → key ≠ "" →
  ∃ w1, Put key value ttl w = Some (None, w1) ∧ WF w1 ∧
        ((∀ t, effectiveTTL ttl (defaultTTL w) = Some t →
               (clock w1 (ticks w1) < Add (clock w (ticks w)) t)%Z) →
         ∃ a e w2, Get key w1 = Some ((Some a, true), w2) ∧
                   heap w2 !! a = Some e ∧ Value e = value).
Proof.
  intros Hwf Hne.
  destruct (Put_stores w key value ttl Hwf Hne)
    as (w1 & a & e1 & Hrun & Hwf1 & Hd1 & He1 & Hv1 & Hx1 & Hclk & Ht).
  exists w1. split_and!; [done|done|]. intros Hfresh.
  assert (expiredAt e1 (clock w1 (ticks w1)) = false) as Hexp.
  { unfold expiredAt. rewrite Hx1. unfold putExpiration.
    destruct (effectiveTTL ttl (defaultTTL w)) as [t|] eqn:Ht'; [|done].
    apply andb_false_iff. right. rewrite Z.gtb_ltb. apply Z.ltb_ge.
    specialize (Hfresh t eq_refl). unfold Unix.
    apply Z.div_le_mono; lia. }
  pose proof Hwf1 as (K1 & Ha1 & _).
  destruct (Get_live w1 K1 key a e1 Ha1 Hne Hd1 He1 Hexp) as (h' & Hget & _ & Hs).
  cbv zeta in Hget, Hs.
  destruct (same_payload_lookup _ _ a
              (withAccessedAt (clock w1 (ticks (afterIsExpired e1 w1))) e1) Hs)
    as (e2 & He2 & Hp).
  { rewrite lookup_alter_eq, He1. done. }
  eexists a, e2, _. split_and!; [exact Hget|exact He2|].
  by rewrite (payload_Value _ _ Hp).
Qed.

(** C2.  A cache built with a positive capacity never panics, and after any
    sequence of [Put], [Get], [Delete], [Clear] and sweeps it holds at most
    [capacity] entries.  When it is full, [Put] of a new key removes exactly
    one entry, the last of the recency list, before it inserts: the index
    loses that key and gains the new one, its size is unchanged, and the
    evictions counter is incremented.  The entry removed is the least
    recently used: its last touch in the history (a [Put] of it, or a [Get]
    that found it) is older than the last touch of every other key of the
    index. *)
Theorem capacity_respected (ms dttl : Z) (clk : nat → Z) (ops : list Op) :
  (0 < ms)%Z →
  ∃ w K,
    reach nilValue ms dttl clk ops = Some w ∧ Abs w K ∧ maxSize w = ms ∧
    (Z.of_nat (size (data w)) ≤ ms)%Z ∧
    ∀ key value ttl,
      key ≠ "" → data w !! key = None → (ms ≤ Z.of_nat (size (data w)))%Z →
      ∃ victim a w',
        last K = Some victim ∧ is_Some (data w !! victim) ∧
        Put key value ttl w = Some (None, w') ∧
        data w' = <[key := Some a]> (delete victim (data w)) ∧
        size (data w') = size (data w) ∧
        evictions w' = incr64 (evictions w) ∧
        Abs w' (key :: removelast K) ∧
        ∀ k, is_Some (data w !! k) → k ≠ victim →
             ∃ sv sk, history nilValue ms dttl clk ops !! victim = Some sv ∧
                      history nilValue ms dttl clk ops !! k = Some sk ∧ sv < sk.
Proof.
  intros Hpos.
  destruct (reach_spec ms dttl clk ops) as (w & K & Hw & Ha & He & Hms & _ & _ & Hlen & Hr).
  pose proof (Abs_size _ _ Ha) as Hsz.
  exists w, K. split_and!; [done|done|done|rewrite Hsz; auto|].
  intros key value ttl Hne Hd Hfull.
  destruct (Put_at_capacity w K key value ttl Ha) as (K0 & v & a & h' & -> & Hrun & Ha');
    [lia|done|done|lia|].
  cbv zeta in Hrun, Ha'.
  assert (is_Some (data w !! v)) as Hv.
  { apply (Abs_elem _ _ _ Ha). apply elem_of_app. right. left. }
  eexists v, a, _. split_and!; [apply last_snoc|done|exact Hrun|done| |done| |].
  - simpl. rewrite map_size_insert_None by (apply lookup_delete_None; by right).
    rewrite (map_size_delete_Some _ _ Hv). destruct Hv as [pv Hv].
    assert (size (data w) ≠ 0); [|lia].
    intros H0%map_size_empty_iff. by rewrite H0, lookup_empty in Hv.
  - by rewrite removelast_last.
  - intros k Hk Hkv. eapply recent_last; [exact Hr|].
    apply (Abs_elem _ _ _ Ha) in Hk. apply elem_of_app in Hk as [Hk|Hk]; [done|].
    by apply list_elem_of_singleton in Hk.
Qed.

(** C3.  In a cache built with a positive capacity and driven by any history
    of operations, when [Put] inserts a new key into a full cache, the key it
    evicts is the one whose last touch (successful [Put] or successful [Get])
    is older than the last touch of every other key in the cache; the other
    keys stay, and the evictions counter is incremented once. *)
Theorem evicts_least_recently_touched
    (ms dttl : Z) (clk : nat → Z) (ops : list Op) (w : World)
    (key : string) (value : V) (ttl : option Z) :
  (0 < ms)%Z → reach nilValue ms dttl clk ops = Some w →
  key ≠ "" → data w !! key = None → (ms ≤ Z.of_nat (size (data w)))%Z →
  ∃ victim w',
    Put key value ttl w = Some (None, w') ∧
    is_Some (data w !! victim) ∧ data w' !! victim = None ∧
    (∀ k, k ≠ victim → k ≠ key → data w' !! k = data w !! k) ∧
    evictions w' = incr64 (evictions w) ∧
    ∀ k, is_Some (data w !! k) → k ≠ victim →
         ∃ sv sk, history nilValue ms dttl clk ops !! victim = Some sv ∧
                  history nilValue ms dttl clk ops !! k = Some sk ∧ sv < sk.
Proof.
  intros Hpos Hw Hne Hd Hfull.
  destruct (reach_spec ms dttl clk ops) as (w0 & K & Hw0 & Ha & He & Hms & _ & _ & _ & Hr).
  assert (w0 = w) as -> by congruence.
  destruct (Put_at_capacity w K key value ttl Ha) as (K0 & v & a & h' & -> & Hrun & Ha');
    [lia|done|done|lia|].
  cbv zeta in Hrun, Ha'.
  assert (is_Some (data w !! v)) as Hv.
  { apply (Abs_elem _ _ _ Ha). apply elem_of_app. right. left. }
  assert (v ≠ key) as Hvk.
  { intros ->. destruct Hv as [? Hv]. congruence. }
  eexists v, _. split_and!; [exact Hrun|done| | |done|].
  - simpl. rewrite lookup_insert_ne by done. apply lookup_delete_eq.
  - intros k Hkv Hkk. simpl.
    rewrite lookup_insert_ne by done. by rewrite lookup_delete_ne.
  - intros k Hk Hkv. eapply recent_last; [exact Hr|].
    apply (Abs_elem _ _ _ Ha) in Hk. apply elem_of_app in Hk as [Hk|Hk]; [done|].
    by apply list_elem_of_singleton in Hk.
Qed.

(** C7.  [BulkGet] never fails on a well-formed state.  It runs [Get] once
    for each element of the list, in the order given and each on the state
    its predecessor left, so a key listed twice is read twice: every
    successful read increments the hits counter and every unsuccessful read of
    a non-empty key the misses counter.  The response counts the successful
    and the unsuccessful reads, the two counts add up to the length of the
    list, and it holds an outcome for every key of the list, which is the
    outcome of a read of that key. *)
Theorem BulkGet_reads_each_key (w : World) (keys : list string) :
  WF w →
  ∃ outs response w',
    BulkGet nilValue keys w = Some (response, w') ∧ WF w' ∧
    bulk_steps keys w outs w' ∧
    Found response = Z.of_nat (tally true outs) ∧
    NotFound response = Z.of_nat (tally false outs) ∧
    (Found response + NotFound response)%Z = Z.of_nat (length keys) ∧
    (∀ k, k ∈ keys →
          ∃ r, Results response !! k = Some r ∧ rKey r = k ∧
               (k, rFound r) ∈ zip keys outs) ∧
    hits w' = Nat.iter (tally true outs) incr64 (hits w) ∧
    misses w' = Nat.iter (missed keys outs) incr64 (misses w).
Proof.
  intros Hwf.
  destruct (BulkGet_loop_spec keys w (mkBulkGetResponse ∅ 0 0) Hwf)
    as (outs & resp' & w' & Hrun & Hwf' & Hsteps & HF & HN & Hlen & Hres & _ & Hh & Hm).
  simpl in HF, HN.
  exists outs, resp', w'. split_and!; try done.
  rewrite HF, HN, <-Hlen, <-(tally_total outs). lia.
Qed.

(** * Beyond the claims *)

#[local] Abbreviation PutRequest := (@PutRequest V).
#[local] Abbreviation BulkPutResponse := (@BulkPutResponse).

Implicit Types (item : PutRequest) (items : list PutRequest).

(** ** The entry stored under a key *)

Lemma pay_alter_ne h f a b : b ≠ a → pay (alter f a h) b = pay h b.
Proof. intros. unfold pay. by rewrite lookup_alter_ne. Qed.

Lemma pay_alter_eq h f a e :
  h !! a = Some e → pay (alter f a h) a = Some (payload (f e)).
Proof. intros He. unfold pay. by rewrite lookup_alter_eq, He. Qed.

Lemma entry_of_Some w k a e :
  data w !! k = Some (Some a) → heap w !! a = Some e →
  entry_of w k = Some (payload e).
Proof. intros Hd He. unfold entry_of, pay. rewrite Hd. simpl. by rewrite He. Qed.

Lemma entry_of_None w k : data w !! k = None → entry_of w k = None.
Proof. intros Hd. unfold entry_of. by rewrite Hd. Qed.

Lemma entry_of_ext w w' k :
  data w' !! k = data w !! k → same_payload (heap w) (heap w') →
  entry_of w' k = entry_of w k.
Proof.
  intros Hd Hs. unfold entry_of. rewrite Hd.
  destruct (data w !! k) as [[a|]|]; simpl; auto.
Qed.

Lemma entry_of_altered w w' f a k :
  data w' !! k = data w !! k → data w !! k ≠ Some (Some a) →
  same_payload (alter f a (heap w)) (heap w') →
  entry_of w' k = entry_of w k.
Proof.
  intros Hd Hne Hs. unfold entry_of. rewrite Hd.
  destruct (data w !! k) as [[b|]|]; simpl; auto.
  rewrite Hs. apply pay_alter_ne. congruence.
Qed.

Lemma Abs_data_inj w K k1 k2 a :
  Abs w K → data w !! k1 = Some (Some a) → data w !! k2 = Some (Some a) → k1 = k2.
Proof.
  intros Ha H1 H2.
  destruct (Abs_lookup _ _ _ _ Ha H1) as (a1 & e1 & [= <-] & He1 & <-).
  destruct (Abs_lookup _ _ _ _ Ha H2) as (a2 & e2 & [= <-] & He2 & <-).
  congruence.
Qed.

Lemma Abs_no_empty w K K' : Abs w K → Abs w K' → "" ∉ K → "" ∉ K'.
Proof.
  intros Ha Ha' He Hin. apply He.
  apply (Abs_elem _ _ _ Ha). by apply (Abs_elem _ _ _ Ha').
Qed.

Lemma WF_empty_key w : WF w → data w !! "" = None.
Proof.
  intros (K & Ha & He). destruct (data w !! "") eqn:Hd; [|done].
  exfalso. apply He. apply (Abs_elem _ _ _ Ha). eauto.
Qed.

(** ** What a read does to the rest of the cache *)

Lemma Get_effect w K key :
  Abs w K → "" ∉ K →
  ∃ p found w',
    Get key w = Some ((p, found), w') ∧
    if found then
      ∃ a e e', p = Some a ∧ key ≠ "" ∧
        data w !! key = Some (Some a) ∧ heap w !! a = Some e ∧
        expiredAt e (clock w (ticks w)) = false ∧
        data w' = data w ∧ heap w' !! a = Some e' ∧
        payload e' = payload (withAccessedAt (clock w (ticks (afterIsExpired e w))) e) ∧
        Abs w' (key :: filter (λ x, x ≠ key) K) ∧
        (∀ k, k ≠ key → entry_of w' k = entry_of w k) ∧
        hits w' = incr64 (hits w) ∧ misses w' = misses w ∧
        evictions w' = evictions w ∧ expiredRemovals w' = expiredRemovals w
    else
      p = None ∧ Abs w' (filter (λ x, x ≠ key) K) ∧
      entry_of w' key = None ∧
      (∀ k, k ≠ key → entry_of w' k = entry_of w k) ∧
      hits w' = hits w ∧ evictions w' = evictions w ∧
      (∀ e, entry_of w key = Some e → expiredAt e (clock w (ticks w)) = true) ∧
      misses w' = (if decide (key = "") then misses w else incr64 (misses w)) ∧
      expiredRemovals w' =
        match entry_of w key with
        | Some _ => incr64 (expiredRemovals w)
        | None => expiredRemovals w
        end.
Proof.
  intros Ha He.
  assert (data w !! "" = None) as Hempty by (apply WF_empty_key; by exists K).
  destruct (decide (key = "")) as [->|Hne].
  { exists None, false, w. rewrite Get_empty.
    assert (entry_of w "" = None) as Hn by by apply entry_of_None.
    split_and!; try done.
    - by rewrite filter_ne_id.
    - intros e. by rewrite Hn.
    - by rewrite Hn. }
  destruct (data w !! key) as [p|] eqn:Hd.
  - destruct (Abs_lookup _ _ _ _ Ha Hd) as (a & e & -> & Hea & HK).
    assert (entry_of w key = Some (payload e)) as Hent by by eapply entry_of_Some.
    destruct (expiredAt e (clock w (ticks w))) eqn:Hexp.
    + destruct (Get_expired w K key a e Ha Hne Hd Hea Hexp) as (h' & Hrun & Ha' & Hs).
      cbv zeta in Hrun, Ha'. eexists None, false, _. split; [exact Hrun|].
      split_and!; try done.
      * apply entry_of_None. simpl. apply lookup_delete_eq.
      * intros k Hk. apply entry_of_ext; [|done]. simpl. by apply lookup_delete_ne.
      * intros e0. rewrite Hent. intros [= <-]. exact Hexp.
      * by rewrite Hent.
    + destruct (Get_live w K key a e Ha Hne Hd Hea Hexp) as (h' & Hrun & Ha' & Hs).
      cbv zeta in Hrun, Ha', Hs. eexists (Some a), true, _. split; [exact Hrun|].
      destruct (same_payload_lookup _ _ a
                  (withAccessedAt (clock w (ticks (afterIsExpired e w))) e) Hs)
        as (e' & He' & Hp).
      { by rewrite lookup_alter_eq, Hea. }
      exists a, e, e'. split_and!; try done.
      intros k Hk. eapply entry_of_altered; [done| |exact Hs].
      intros Hk'. apply Hk. by eapply Abs_data_inj.
  - exists None, false, (set_misses (incr64 (misses w)) w).
    split; [by apply Get_missing|].
    assert (entry_of w key = None) as Hn by by apply entry_of_None.
    split_and!; try done.
    + rewrite filter_ne_id; [done|]. rewrite (Abs_elem _ _ _ Ha), Hd. by intros [? ?].
    + intros e. by rewrite Hn.
    + by rewrite Hn.
Qed.


Lemma payload_Key e e' : payload e' = payload e → Key e' = Key e.
Proof. intros H. change (Key (payload e') = Key (payload e)). by rewrite H. Qed.

Lemma payload_CreatedAt e e' : payload e' = payload e → CreatedAt e' = CreatedAt e.
Proof. intros H. change (CreatedAt (payload e') = CreatedAt (payload e)). by rewrite H. Qed.

Lemma payload_AccessedAt e e' : payload e' = payload e → AccessedAt e' = AccessedAt e.
Proof. intros H. change (AccessedAt (payload e') = AccessedAt (payload e)). by rewrite H. Qed.

(** X1.  A [Get] that finds nothing (empty key, missing key, expired entry)
    returns nil, leaves the key absent, and leaves every other key with the
    entry it had and in the recency order it had; hits and evictions are
    untouched. *)
Theorem Get_miss_frame (w w' : World) (key : string) (p : ptr) :
  WF w → Get key w = Some ((p, false), w') →
  p = None ∧ entry_of w' key = None ∧
  (∀ k, k ≠ key → entry_of w' k = entry_of w k) ∧
  (∀ K, Abs w K → Abs w' (filter (λ x, x ≠ key) K)) ∧
  hits w' = hits w ∧ evictions w' = evictions w ∧ WF w'.
Proof.
  intros Hwf Hrun. pose proof Hwf as (K0 & Ha0 & He0).
  destruct (Get_effect w K0 key Ha0 He0) as (p0 & found & w0 & Hrun0 & Hcase).
  rewrite Hrun in Hrun0. injection Hrun0 as <- <- <-.
  destruct Hcase as (-> & _ & Hk & Hfr & Hh & Hev & _).
  split_and!; try done; [|by eapply Get_WF].
  intros K Ha. pose proof (Abs_no_empty _ _ _ Ha0 Ha He0) as He.
  destruct (Get_effect w K key Ha He) as (p1 & found1 & w1 & Hrun1 & Hcase1).
  rewrite Hrun in Hrun1. injection Hrun1 as <- <- <-. tauto.
Qed.

(** X2.  A [Get] that finds the entry returns a pointer to it: the key, the
    value, the expiration and the creation time are the stored ones; the
    index is the same map; every other key keeps its entry; and the key moves
    to the front of the recency order while the others keep their relative
    order. *)
Theorem Get_hit_promotes (w w' : World) (key : string) (p : ptr) :
  WF w → Get key w = Some ((p, true), w') →
  ∃ a e e',
    p = Some a ∧ entry_of w key = Some e ∧ heap w' !! a = Some e' ∧
    Key e' = key ∧ Value e' = Value e ∧ Expiration e' = Expiration e ∧
    CreatedAt e' = CreatedAt e ∧
    data w' = data w ∧
    (∀ k, k ≠ key → entry_of w' k = entry_of w k) ∧
    (∀ K, Abs w K → Abs w' (key :: filter (λ x, x ≠ key) K)).
Proof.
  intros Hwf Hrun. pose proof Hwf as (K0 & Ha0 & He0).
  destruct (Get_effect w K0 key Ha0 He0) as (p0 & found & w0 & Hrun0 & Hcase).
  rewrite Hrun in Hrun0. injection Hrun0 as <- <- <-.
  destruct Hcase as (a & e & e' & -> & Hne & Hd & He & _ & Hd' & He' & Hp & _ & Hfr & _).
  destruct (Abs_lookup _ _ _ _ Ha0 Hd) as (a0 & e0 & [= <-] & He0' & HK).
  assert (e0 = e) as -> by congruence.
  exists a, (payload e), e'. split_and!; try done.
  - by eapply entry_of_Some.
  - by rewrite (payload_Key _ _ Hp).
  - by rewrite (payload_Value _ _ Hp).
  - by rewrite (payload_Expiration _ _ Hp).
  - by rewrite (payload_CreatedAt _ _ Hp).
  - intros K Ha. pose proof (Abs_no_empty _ _ _ Ha0 Ha He0) as HeK.
    destruct (Get_effect w K key Ha HeK) as (p1 & found1 & w1 & Hrun1 & Hcase1).
    rewrite Hrun in Hrun1. injection Hrun1 as <- <- <-.
    destruct Hcase1 as (? & ? & ? & _ & _ & _ & _ & _ & _ & _ & _ & HA & _). exact HA.
Qed.

(** ** Delete *)

(** X3.  [Delete] answers (true, true) exactly when the key is in the index,
    and (false, false) otherwise.  Afterwards the key is absent, every other
    key has the entry and the place in the recency order it had, no counter
    has moved and the clock has not been read; a second [Delete] of the key
    answers (false, false) and changes nothing. *)
Theorem Delete_effect (w : World) (key : string) :
  WF w →
  ∃ b w',
    Delete key w = Some ((b, b), w') ∧
    (b = true ↔ is_Some (data w !! key)) ∧
    entry_of w' key = None ∧
    (∀ k, k ≠ key → entry_of w' k = entry_of w k) ∧
    (∀ K, Abs w K → Abs w' (filter (λ x, x ≠ key) K)) ∧
    hits w' = hits w ∧ misses w' = misses w ∧ evictions w' = evictions w ∧
    expiredRemovals w' = expiredRemovals w ∧ ticks w' = ticks w ∧
    Delete key w' = Some ((false, false), w').
Proof.
  intros Hwf. pose proof Hwf as (K0 & Ha0 & He0).
  destruct (data w !! key) as [p|] eqn:Hd.
  - destruct (WF_present _ _ _ Hwf Hd) as (Hne & a & e & -> & Hea & _).
    destruct (Delete_present w K0 key a Ha0 Hne Hd) as (h' & Hrun & _ & Hs).
    cbv zeta in Hrun. eexists true, _. split; [exact Hrun|].
    split_and!; try done.
    + apply entry_of_None. simpl. apply lookup_delete_eq.
    + intros k Hk. apply entry_of_ext; [|done]. simpl. by apply lookup_delete_ne.
    + intros K Ha.
      destruct (Delete_present w K key a Ha Hne Hd) as (h1 & Hrun1 & Ha1 & _).
      cbv zeta in Hrun1, Ha1. rewrite Hrun in Hrun1. by injection Hrun1 as <-.
    + apply Delete_missing. simpl. apply lookup_delete_eq.
  - exists false, w. split; [by apply Delete_missing|].
    split_and!; try done; try (by apply entry_of_None); try (by apply Delete_missing).
    intros K Ha. rewrite filter_ne_id; [done|].
    rewrite (Abs_elem _ _ _ Ha), Hd. by intros [? ?].
Qed.


(** ** Put *)

Lemma entry_of_fresh w w' K k e0 :
  Abs w K → data w' !! k = data w !! k →
  same_payload (<[fresh (dom (heap w)) := e0]> (heap w)) (heap w') →
  entry_of w' k = entry_of w k.
Proof.
  intros Ha Hd Hs. unfold entry_of. rewrite Hd.
  destruct (data w !! k) as [p|] eqn:Hk; [|done].
  destruct (Abs_lookup _ _ _ _ Ha Hk) as (b & e & -> & He & _). simpl.
  rewrite Hs. unfold pay. rewrite lookup_insert_ne; [done|].
  intros Heq. assert (b ∈ dom (heap w)) as Hin by (apply elem_of_dom; eauto).
  rewrite <-Heq in Hin. by apply is_fresh in Hin.
Qed.

Lemma Put_effect_K w K key value ttl :
  Abs w K → key ≠ "" →
  ∃ w' e,
    Put key value ttl w = Some (None, w') ∧
    entry_of w' key = Some e ∧ Key e = key ∧ Value e = value ∧
    Expiration e = putExpiration ttl w ∧
    AccessedAt e = clock w (putTicks ttl w) ∧
    CreatedAt e = match entry_of w key with
                  | Some e0 => CreatedAt e0
                  | None => clock w (putTicks ttl w)
                  end ∧
    (∀ k, k ≠ key →
          entry_of w' k =
            if decide (data w !! key = None ∧ lruVictim w K = Some k) then None
            else entry_of w k) ∧
    Abs w' (key :: match data w !! key with
                   | Some _ => filter (λ x, x ≠ key) K
                   | None => match lruVictim w K with
                             | Some _ => removelast K
                             | None => K
                             end
                   end) ∧
    hits w' = hits w ∧ misses w' = misses w ∧
    expiredRemovals w' = expiredRemovals w ∧
    evictions w' = match data w !! key, lruVictim w K with
                   | None, Some _ => incr64 (evictions w)
                   | _, _ => evictions w
                   end ∧
    clock w' = clock w ∧ ticks w' = S (putTicks ttl w) ∧
    (is_Some (data w !! key) → data w' = data w).
Proof.
  intros Ha Hne.
  destruct (data w !! key) as [p|] eqn:Hd.
  - destruct (Abs_lookup _ _ _ _ Ha Hd) as (a & e & -> & Hea & HK).
    destruct (Put_existing w K key value ttl a Ha Hne Hd) as (h' & Hrun & Ha' & Hs).
    cbv zeta in Hrun, Ha', Hs.
    destruct (same_payload_lookup _ _ a
                (withAccessedAt (clock w (putTicks ttl w))
                   (withExpiration (putExpiration ttl w) (withValue value e))) Hs)
      as (e1 & He1 & Hp).
    { rewrite lookup_alter_eq, lookup_alter_eq, lookup_alter_eq, Hea. done. }
    eexists _, (payload e1). split; [exact Hrun|].
    rewrite (entry_of_Some w key a e Hd Hea).
    split_and!; try done; try (rewrite Hp; done); try (by eapply entry_of_Some).
    + intros k Hk. rewrite decide_False by (by intros [? _]).
      unfold entry_of. simpl.
      destruct (data w !! k) as [[b|]|] eqn:Hkd; simpl; auto.
      rewrite Hs. rewrite !pay_alter_ne; [done|..];
        intros ->; apply Hk; by eapply Abs_data_inj.
  - destruct (Put_new w K key value ttl Ha Hne Hd) as (h' & Hrun & Ha' & Hs).
    cbv zeta in Hrun, Ha', Hs.
    destruct (same_payload_lookup _ _ (fresh (dom (heap w)))
                (mkEntry key value (putExpiration ttl w) (clock w (putTicks ttl w))
                   (clock w (putTicks ttl w)) None None) Hs)
      as (e1 & He1 & Hp).
    { apply lookup_insert_eq. }
    eexists _, (payload e1). split; [exact Hrun|].
    rewrite (entry_of_None w key Hd).
    split_and!; try done; try (rewrite Hp; done).
    + eapply entry_of_Some; [|exact He1]. simpl. apply lookup_insert_eq.
    + intros k Hk. destruct (lruVictim w K) as [v|] eqn:Hv.
      * destruct (decide (v = k)) as [->|Hvk].
        -- rewrite decide_True by done. apply entry_of_None. simpl.
           rewrite lookup_insert_ne by done. apply lookup_delete_eq.
        -- rewrite decide_False by (intros [_ [= ?]]; done).
           eapply entry_of_fresh; [exact Ha| |exact Hs]. simpl.
           rewrite lookup_insert_ne by done. by rewrite lookup_delete_ne.
      * rewrite decide_False by (by intros [_ ?]).
        eapply entry_of_fresh; [exact Ha| |exact Hs]. simpl.
        by rewrite lookup_insert_ne.
Qed.

(** X4.  [Put] of a non-empty key always succeeds on a well-formed cache.
    Afterwards the key holds the value written, the expiration [Put] computed
    and the time of the write as access time; the creation time is the old
    one if the key was there and the time of the write if not.  Every other
    key keeps the entry it had, except the one key that is evicted when the
    key is new and the cache is full; hits, misses and expired-removals do
    not move. *)
Theorem Put_effect (w : World) (key : string) (value : V) (ttl : option Z) :
  WF w → key ≠ "" →
  ∃ K w' e,
    Abs w K ∧ Put key value ttl w = Some (None, w') ∧ WF w' ∧
    entry_of w' key = Some e ∧ Key e = key ∧ Value e = value ∧
    Expiration e = putExpiration ttl w ∧
    AccessedAt e = clock w (putTicks ttl w) ∧
    CreatedAt e = match entry_of w key with
                  | Some e0 => CreatedAt e0
                  | None => clock w (putTicks ttl w)
                  end ∧
    (∀ k, k ≠ key →
          entry_of w' k =
            if decide (data w !! key = None ∧ lruVictim w K = Some k) then None
            else entry_of w k) ∧
    hits w' = hits w ∧ misses w' = misses w ∧
    expiredRemovals w' = expiredRemovals w.
Proof.
  intros Hwf Hne. pose proof Hwf as (K & Ha & He).
  destruct (Put_effect_K w K key value ttl Ha Hne)
    as (w' & e & Hrun & H1 & H2 & H3 & H4 & H5 & H6 & H7 & _ & H9 & H10 & H11 & _).
  exists K, w', e. split_and!; try done. by eapply Put_WF.
Qed.

(** X5.  [Put] on a key that is already in the index updates the entry in
    place: the index is the same map (the same node), nothing is evicted, no
    other key changes, the creation time stays, and the key moves to the
    front of the recency order while the others keep their relative order. *)
Theorem Put_overwrites_in_place (w : World) (key : string) (value : V) (ttl : option Z) :
  WF w → is_Some (data w !! key) →
  ∃ w' e0 e,
    Put key value ttl w = Some (None, w') ∧
    data w' = data w ∧ evictions w' = evictions w ∧
    entry_of w key = Some e0 ∧ entry_of w' key = Some e ∧
    Value e = value ∧ CreatedAt e = CreatedAt e0 ∧
    (∀ k, k ≠ key → entry_of w' k = entry_of w k) ∧
    (∀ K, Abs w K → Abs w' (key :: filter (λ x, x ≠ key) K)).
Proof.
  intros Hwf [p Hd]. pose proof Hwf as (K0 & Ha0 & He0).
  destruct (WF_present _ _ _ Hwf Hd) as (Hne & a & e0 & -> & Hea & _).
  destruct (Put_effect_K w K0 key value ttl Ha0 Hne)
    as (w' & e & Hrun & H1 & _ & H3 & _ & _ & H6 & H7 & _ & _ & _ & _ & H12 & _ & _ & H15).
  rewrite Hd in H12. rewrite (entry_of_Some w key a e0 Hd Hea) in H6.
  exists w', (payload e0), e. split_and!; try done.
  - apply H15. eauto.
  - by eapply entry_of_Some.
  - intros k Hk. rewrite (H7 k Hk). rewrite decide_False; [done|].
    intros [? _]. congruence.
  - intros K Ha.
    destruct (Put_effect_K w K key value ttl Ha Hne) as (w1 & e1 & Hrun1 & Hrest).
    rewrite Hrun in Hrun1. injection Hrun1 as <-.
    destruct Hrest as (_ & _ & _ & _ & _ & _ & _ & HA & _). by rewrite Hd in HA.
Qed.


(** ** Counters and sizes along a history *)

Lemma removelast_length (K : list string) : K ≠ [] → S (length (removelast K)) = length K.
Proof.
  destruct (snoc_cases K) as [->|(K' & v & ->)]; [done|]. intros _.
  rewrite removelast_last, length_app. simpl. lia.
Qed.

Lemma step_detail o w K :
  Abs w K → "" ∉ K →
  ∃ w' K' (dh dm : nat),
    step o w = Some (tt, w') ∧ Abs w' K' ∧ ("" ∉ K') ∧ config_same w w' ∧
    (Z.of_nat (length K') ≤ Z.max (Z.of_nat (length K)) (Z.max 1 (maxSize w)))%Z ∧
    hits w' = Nat.iter dh incr64 (hits w) ∧
    misses w' = Nat.iter dm incr64 (misses w) ∧
    dh + dm = (if is_request o then 1 else 0).
Proof.
  intros Ha He.
  assert (∀ k, "" ∉ filter (λ x, x ≠ k) K) as Hef.
  { intros k [_ ?]%list_elem_of_filter. done. }
  assert (∀ k, (Z.of_nat (length (filter (λ x, x ≠ k) K)) ≤ Z.of_nat (length K))%Z) as Hlf.
  { intros k. pose proof (length_filter (λ x, x ≠ k) K). lia. }
  destruct o as [key value ttl|key|key| |order|]; simpl step; simpl is_request.
  - (* Put *)
    destruct (decide (key = "")) as [->|Hne].
    { exists w, K, 0, 0. split_and!; try done. lia. }
    destruct (Put_effect_K w K key value ttl Ha Hne)
      as (w' & e & Hrun & _ & _ & _ & _ & _ & _ & _ & Ha' & Hh & Hm & _ & _ & Hc & _ & _).
    eexists w', _, 0, 0. split_and!; [by erewrite bind_run by exact Hrun|exact Ha'| | | |done..].
    + apply not_elem_of_cons. split; [done|].
      destruct (data w !! key); [apply Hef|].
      destruct (lruVictim w K); [|done].
      intros Hin. apply He. eapply sublist_elem; [apply sublist_removelast|done].
    + destruct (step_spec (OpPut key value ttl) w K Ha He) as (w2 & K2 & Hs & _ & _ & Hcs & _).
      simpl in Hs. erewrite bind_run in Hs by exact Hrun. by injection Hs as <-.
    + simpl length. destruct (data w !! key) as [p|] eqn:Hd.
      * assert (key ∈ K) as Hin by (apply (Abs_elem _ _ _ Ha); eauto).
        pose proof (filter_ne_length K key Hin). lia.
      * unfold lruVictim. destruct (maxSize w <=? Z.of_nat (length K))%Z eqn:Hfull.
        -- destruct (last K) eqn:Hl.
           ++ assert (K ≠ []) as HK by (by intros ->).
              pose proof (removelast_length K HK). lia.
           ++ apply last_None in Hl as ->. simpl. lia.
        -- apply Z.leb_gt in Hfull. lia.
  - (* Get *)
    destruct (Get_effect w K key Ha He) as (p & found & w' & Hrun & Hcase).
    assert (config_same w w') as Hcs.
    { destruct (step_spec (OpGet key) w K Ha He) as (w2 & K2 & Hs & _ & _ & Hcs & _).
      simpl in Hs. erewrite bind_run in Hs by exact Hrun. by injection Hs as <-. }
    destruct found.
    + destruct Hcase as (a & e & e' & _ & Hne & Hd & _ & _ & _ & _ & _ & Ha' & _ & Hh & Hm & _).
      eexists w', _, 1, 0. split_and!; [by erewrite bind_run by exact Hrun|exact Ha'| |done| |done|done|].
      * apply not_elem_of_cons. split; [done|apply Hef].
      * simpl length. assert (key ∈ K) as Hin by (apply (Abs_elem _ _ _ Ha); eauto).
        pose proof (filter_ne_length K key Hin). lia.
      * by rewrite bool_decide_true.
    + destruct Hcase as (_ & Ha' & _ & _ & Hh & _ & _ & Hm & _).
      destruct (decide (key = "")) as [->|Hne].
      * eexists w', _, 0, 0. split_and!; [by erewrite bind_run by exact Hrun|exact Ha'|apply Hef|done| |done|done|].
        -- specialize (Hlf ""). lia.
        -- by rewrite bool_decide_false by (by intros ?).
      * eexists w', _, 0, 1. split_and!; [by erewrite bind_run by exact Hrun|exact Ha'|apply Hef|done| |done|done|].
        -- specialize (Hlf key). lia.
        -- by rewrite bool_decide_true.
  - (* Delete *)
    destruct (decide (key = "")) as [->|Hne].
    { exists w, K, 0, 0. split_and!; try done. lia. }
    destruct (data w !! key) as [p|] eqn:Hd.
    + destruct (Abs_lookup _ _ _ _ Ha Hd) as (a & e & -> & _ & _).
      destruct (Delete_present w K key a Ha Hne Hd) as (h' & Hrun & Ha' & _).
      cbv zeta in Hrun, Ha'.
      eexists _, _, 0, 0. split_and!; [by erewrite bind_run by exact Hrun|exact Ha'|apply Hef|done| |done..].
      specialize (Hlf key). lia.
    + exists w, K, 0, 0. split_and!; try done; [|lia].
      by erewrite bind_run by by apply Delete_missing.
  - (* Clear *)
    destruct (Clear_spec w K Ha) as (h' & Hrun & Ha' & _). cbv zeta in Hrun, Ha'.
    eexists _, _, 0, 0. split_and!; [by erewrite bind_run by exact Hrun|exact Ha'| |done| |done..].
    + by intros ?%elem_of_nil.
    + simpl. lia.
  - (* sweep *)
    destruct (cleanupExpired_spec order w K Ha)
      as (w' & K' & Hrun & Ha' & Hsub & Hc & Hh & Hm & _).
    exists w', K', 0, 0. split_and!; try done.
    + intros Hin. apply He. eapply sublist_elem; done.
    + apply sublist_length in Hsub. lia.
  - (* a reading of the clock *)
    exists (set_ticks (S (ticks w)) w), K, 0, 0. split_and!; try done. lia.
Qed.


Lemma wrap64_small z : (- 2 ^ 63 ≤ z ≤ max_int64)%Z → wrap64 z = z.
Proof. unfold wrap64, max_int64. intros Hz. rewrite Z.mod_small; lia. Qed.

Lemma requests_cons o ops :
  requests (o :: ops) = (if is_request o then 1 else 0) + requests ops.
Proof.
  unfold requests. destruct (is_request o) eqn:Ho.
  - by rewrite filter_cons_True.
  - rewrite filter_cons_False; [done|]. by rewrite Ho.
Qed.

Lemma run_detail ops : ∀ w K,
  Abs w K → "" ∉ K →
  (Z.of_nat (length K) ≤ Z.max 1 (maxSize w))%Z →
  ∃ w' K',
    run ops w = Some (tt, w') ∧ Abs w' K' ∧ ("" ∉ K') ∧ config_same w w' ∧
    (Z.of_nat (length K') ≤ Z.max 1 (maxSize w))%Z ∧
    ∀ n : Z,
      (0 ≤ hits w)%Z → (0 ≤ misses w)%Z → (hits w + misses w = n)%Z →
      (n + Z.of_nat (length ops) ≤ max_int64)%Z →
      (0 ≤ hits w')%Z ∧ (0 ≤ misses w')%Z ∧
      (hits w' + misses w' = n + Z.of_nat (requests ops))%Z.
Proof.
  induction ops as [|o ops IH]; intros w K Ha He Hlen.
  - exists w, K. split_and!; try done. intros n ? ? ? ?.
    unfold requests. simpl. lia.
  - destruct (step_detail o w K Ha He)
      as (w1 & K1 & dh & dm & Hrun1 & Ha1 & He1 & Hc1 & Hlen1 & Hh1 & Hm1 & Hd).
    pose proof Hc1 as (Hms & _).
    destruct (IH w1 K1 Ha1 He1) as (w' & K' & Hrun & Ha' & He' & Hc' & Hlen' & Hcnt);
      [rewrite Hms; lia|].
    exists w', K'. split_and!; try done.
    + simpl. by erewrite bind_run by exact Hrun1.
    + by eapply config_same_trans.
    + by rewrite <-Hms.
    + intros n Hh Hm Hn Hbound. simpl length in Hbound.
      assert (hits w1 = hits w + Z.of_nat dh ∧ misses w1 = misses w + Z.of_nat dm)%Z
        as [Hh1' Hm1'].
      { unfold max_int64 in Hbound.
        destruct (is_request o); destruct dh as [|[|dh]]; destruct dm as [|[|dm]];
          try lia; simpl in Hh1, Hm1; rewrite Hh1, Hm1;
          rewrite ?incr64_no_overflow by (unfold max_int64; lia); lia. }
      destruct (Hcnt (n + Z.of_nat (dh + dm))%Z) as (? & ? & Hsum); try lia.
      { destruct (is_request o); lia. }
      split_and!; [done|done|]. rewrite Hsum, requests_cons, Hd.
      destruct (is_request o); lia.
Qed.

Lemma reach_detail ms dttl clk ops :
  ∃ w K,
    reach nilValue ms dttl clk ops = Some w ∧ Abs w K ∧ ("" ∉ K) ∧
    maxSize w = ms ∧ defaultTTL w = dttl ∧ clock w = clk ∧ startTime w = clk 0 ∧
    (Z.of_nat (length K) ≤ Z.max 1 ms)%Z ∧
    ((Z.of_nat (length ops) ≤ max_int64)%Z →
     (0 ≤ hits w)%Z ∧ (0 ≤ misses w)%Z ∧
     (hits w + misses w = Z.of_nat (requests ops))%Z).
Proof.
  destruct (NewCacheService_spec ms dttl (blank clk)) as (h & hd & tl & Hnew & Ha0).
  cbv zeta in Hnew, Ha0.
  set (w0 := mkWorld ∅ (Some hd) (Some tl) ms dttl (clock (blank clk) (ticks (blank clk)))
               0 0 0 0 h (clock (blank clk)) (S (ticks (blank clk)))) in *.
  destruct (run_detail ops w0 [] Ha0) as (w & K & Hrun & Ha & He & Hc & Hlen & Hcnt);
    [by intros ?%elem_of_nil|simpl; lia|].
  destruct Hc as (Hms & Hd & Hclk & _ & _ & Hst).
  exists w, K. split_and!; try done.
  - unfold reach. erewrite bind_run by exact Hnew. by rewrite Hrun.
  - intros Hb. destruct (Hcnt 0%Z) as (? & ? & ?); simpl; lia.
Qed.

(** X6.  For every capacity (positive or not), every default TTL and every
    history, the constructor and the operations run without a nil
    dereference, and afterwards the recency list holds exactly the keys of
    the index, each once, and never the empty key. *)
Theorem index_and_list_agree (ms dttl : Z) (clk : nat → Z) (ops : list Op) :
  ∃ w K,
    reach nilValue ms dttl clk ops = Some w ∧ Abs w K ∧
    NoDup K ∧ ("" ∉ K) ∧
    (∀ k, k ∈ K ↔ is_Some (data w !! k)) ∧
    length K = size (data w) ∧
    (∀ k, is_Some (data w !! k) → ∃ e, entry_of w k = Some e ∧ Key e = k).
Proof.
  destruct (reach_detail ms dttl clk ops) as (w & K & Hw & Ha & He & _).
  exists w, K. split_and!; try done.
  - by eapply Abs_NoDup.
  - intros k. by apply Abs_elem.
  - symmetry. by apply Abs_size.
  - intros k [p Hk]. destruct (Abs_lookup _ _ _ _ Ha Hk) as (a & e & -> & Hea & HK).
    exists (payload e). split; [by eapply entry_of_Some|done].
Qed.

(** X7.  Whatever the capacity given to the constructor, the index never
    holds more than max(1, capacity) entries: a cache built with a capacity
    of zero or less still stores one entry at a time. *)
Theorem size_bounded_for_any_capacity (ms dttl : Z) (clk : nat → Z) (ops : list Op) :
  ∃ w, reach nilValue ms dttl clk ops = Some w ∧
       (Z.of_nat (size (data w)) ≤ Z.max 1 ms)%Z.
Proof.
  destruct (reach_detail ms dttl clk ops) as (w & K & Hw & Ha & _ & _ & _ & _ & _ & Hlen & _).
  exists w. split; [done|]. by rewrite (Abs_size _ _ Ha).
Qed.

(** ** GetStats and GetConfiguration *)

Section StatsProofs.

Context {F : Type}.
Variable float64_zero : F.
Variable float64_quot : Z → Z → F.
Variable Duration_String : Z → string.

Lemma GetStats_run w :
  GetStats float64_zero float64_quot Duration_String w =
    Some (mkCacheStats (hits w) (misses w)
            (if (0 <? wrap64 (hits w + misses w))%Z
             then float64_quot (hits w) (wrap64 (hits w + misses w))
             else float64_zero)
            (wrap64 (hits w + misses w)) (Z.of_nat (size (data w))) (maxSize w)
            (evictions w) (expiredRemovals w)
            (Duration_String (Sub (clock w (ticks w)) (startTime w))),
          set_ticks (S (ticks w)) w).
Proof. reflexivity. Qed.

(** X8.  After a history of fewer than 2^63 operations, [GetStats] reports
    hits and misses that are non-negative and add up to the number of [Get]
    calls with a non-empty key, which is also the total it reports; the hit
    rate is the zero float when there was no such call and the quotient of
    hits by the total otherwise; the size reported is the size of the index,
    the capacity is the constructor's; and [GetStats] changes nothing but the
    position of the clock. *)
Theorem GetStats_consistent (ms dttl : Z) (clk : nat → Z) (ops : list Op) :
  (Z.of_nat (length ops) ≤ max_int64)%Z →
  ∃ w stats,
    reach nilValue ms dttl clk ops = Some w ∧
    GetStats float64_zero float64_quot Duration_String w =
      Some (stats, set_ticks (S (ticks w)) w) ∧
    (0 ≤ sHits stats)%Z ∧ (0 ≤ sMisses stats)%Z ∧
    (sHits stats + sMisses stats = Z.of_nat (requests ops))%Z ∧
    sTotalRequests stats = Z.of_nat (requests ops) ∧
    sHitRate stats =
      (if (0 <? Z.of_nat (requests ops))%Z
       then float64_quot (sHits stats) (Z.of_nat (requests ops))
       else float64_zero) ∧
    sCurrentSize stats = Z.of_nat (size (data w)) ∧
    (sCurrentSize stats ≤ Z.max 1 ms)%Z ∧
    sMaxSize stats = ms ∧
    sEvictions stats = evictions w ∧ sExpiredRemovals stats = expiredRemovals w.
Proof.
  intros Hb.
  destruct (reach_detail ms dttl clk ops)
    as (w & K & Hw & Ha & _ & Hms & _ & _ & _ & Hlen & Hcnt).
  destruct (Hcnt Hb) as (Hh & Hm & Hsum).
  assert (Z.of_nat (requests ops) ≤ Z.of_nat (length ops))%Z as Hr.
  { unfold requests. pose proof (length_filter (λ o, is_request o = true) ops). lia. }
  assert (wrap64 (hits w + misses w) = Z.of_nat (requests ops)) as Hw64.
  { rewrite Hsum. apply wrap64_small. unfold max_int64 in *. lia. }
  eexists w, _. split; [done|]. split; [apply GetStats_run|]. simpl.
  rewrite Hw64. split_and!; try done. by rewrite (Abs_size _ _ Ha).
Qed.

End StatsProofs.

(** X9.  [GetConfiguration] returns the capacity and the default TTL given
    to the constructor, a cleanup interval of 30 seconds and the time read at
    construction, whatever the history since, and changes nothing. *)
Theorem GetConfiguration_constant (ms dttl : Z) (clk : nat → Z) (ops : list Op) :
  ∃ w, reach nilValue ms dttl clk ops = Some w ∧
       GetConfiguration w =
         Some (mkCacheConfiguration ms dttl 30000000000 (clk 0), w).
Proof.
  destruct (reach_detail ms dttl clk ops) as (w & K & Hw & _ & _ & Hms & Hd & _ & Hst & _).
  exists w. split; [done|]. unfold GetConfiguration, bind, gets, ret.
  by rewrite Hms, Hd, Hst.
Qed.


(** ** Time to live, in whole seconds *)

Lemma putExpiration_seconds w t :
  (0 < t)%Z →
  putExpiration (Some (t * Second)%Z) w = (Unix (clock w (ticks w)) + t)%Z ∧
  putTicks (Some (t * Second)%Z) w = S (ticks w).
Proof.
  intros Ht. unfold putExpiration, putTicks, effectiveTTL.
  replace (0 <? t * Second)%Z with true
    by (symmetry; apply Z.ltb_lt; unfold Second; lia).
  split; [|done]. unfold Unix, Add, Second. by rewrite Z.div_add by lia.
Qed.

(** X10.  Expiration is decided on whole seconds.  After [Put] with a TTL of
    [t] seconds, a [Get] of the key finds the entry exactly when the second
    of the clock read by [Get] is at most the second of the clock read by
    [Put] plus [t]; so the entry outlives its TTL by up to one second.  When
    that sum is 0 the stored expiration means no expiration and the entry is
    found whatever the clock. *)
Theorem Put_Get_whole_seconds (w : World) (key : string) (value : V) (t : Z) :
  WF w → key ≠ "" → (0 < t)%Z →
  ∃ w1 p found w2,
    Put key value (Some (t * Second)%Z) w = Some (None, w1) ∧
    Get key w1 = Some ((p, found), w2) ∧
    (found = true ↔
       (Unix (clock w (ticks w)) + t = 0 ∨
        Unix (clock w (S (S (ticks w)))) ≤ Unix (clock w (ticks w)) + t)%Z) ∧
    (found = false → entry_of w2 key = None).
Proof.
  intros Hwf Hne Ht. pose proof Hwf as (K & Ha & He).
  destruct (Put_effect_K w K key value (Some (t * Second)%Z) Ha Hne)
    as (w1 & e & Hput & Hent & _ & _ & Hexp & _ & _ & _ & _ & _ & _ & _ & _ &
        Hclk & Hticks & _).
  destruct (putExpiration_seconds w t Ht) as [HpE HpT].
  rewrite HpE in Hexp. rewrite HpT in Hticks.
  destruct (Put_WF _ _ _ _ _ _ Hwf Hput) as (K1 & Ha1 & He1).
  destruct (Get_effect w1 K1 key Ha1 He1) as (p & found & w2 & Hget & Hcase).
  exists w1, p, found, w2. split_and!; [done|done| |].
  - destruct found.
    + destruct Hcase as (a & e0 & e' & -> & _ & Hd & Hh & Hx & _).
      rewrite (entry_of_Some _ _ _ _ Hd Hh) in Hent. injection Hent as <-.
      simpl in Hexp. split; [intros _|done].
      unfold expiredAt in Hx. rewrite Hclk, Hticks, Hexp in Hx.
      destruct (Z.eqb_spec (Unix (clock w (ticks w)) + t) 0); [by left|right].
      simpl in Hx. rewrite Z.gtb_ltb in Hx. by apply Z.ltb_ge in Hx.
    + split; [done|]. intros Hor.
      destruct Hcase as (_ & _ & _ & _ & _ & _ & Hall & _).
      specialize (Hall e Hent). unfold expiredAt in Hall.
      rewrite Hclk, Hticks, Hexp in Hall.
      apply andb_true_iff in Hall as [Hnz Hgt].
      apply negb_true_iff, Z.eqb_neq in Hnz.
      rewrite Z.gtb_ltb in Hgt. apply Z.ltb_lt in Hgt. lia.
  - intros ->. by destruct Hcase as (_ & _ & Hn & _).
Qed.

(** ** Reading protects from the next eviction *)

(** X11.  In a cache holding at least two entries, the key that a [Get] has
    just found is not the one that the next insertion of a new key evicts,
    whatever the capacity: after that [Put] the key is still in the index
    with the entry it had. *)
Theorem read_key_survives_next_insert
    (w w1 : World) (key key2 : string) (p : ptr) (value : V) (ttl : option Z) :
  WF w → Get key w = Some ((p, true), w1) →
  key2 ≠ "" → data w !! key2 = None → 2 ≤ size (data w) →
  ∃ w2,
    Put key2 value ttl w1 = Some (None, w2) ∧
    is_Some (data w2 !! key) ∧ is_Some (data w2 !! key2) ∧
    entry_of w2 key = entry_of w1 key.
Proof.
  intros (K & Ha & He) Hget Hne2 Hd2 Hsz.
  destruct (Get_effect w K key Ha He) as (p' & found & w1' & Hget' & Hcase).
  rewrite Hget in Hget'. injection Hget' as <- <- <-.
  destruct Hcase as (a & e & e' & -> & Hne & Hd & _ & _ & Hdata & _ & _ & Ha1 & _).
  set (K0 := filter (λ x, x ≠ key) K) in *.
  assert (K0 ≠ []) as Hnn.
  { intros HK. pose proof (Abs_size _ _ Ha1) as Hs1.
    rewrite Hdata, HK in Hs1. simpl in Hs1. lia. }
  assert (key ≠ key2) as Hkk by (intros ->; rewrite Hd2 in Hd; done).
  assert (data w1 !! key2 = None) as Hd2' by by rewrite Hdata.
  destruct (Put_effect_K w1 (key :: K0) key2 value ttl Ha1 Hne2)
    as (w2 & e2 & Hput & _ & _ & _ & _ & _ & _ & Hfr & Ha2 & _).
  exists w2. split_and!; [done| | |].
  - apply (Abs_elem _ _ _ Ha2). rewrite Hd2'. apply elem_of_cons. right.
    destruct (lruVictim w1 (key :: K0)); [|by left].
    destruct K0 as [|k0 K0']; [done|]. by left.
  - apply (Abs_elem _ _ _ Ha2). by left.
  - rewrite (Hfr key Hkk). apply decide_False. intros [_ Hv].
    unfold lruVictim in Hv. destruct (maxSize w1 <=? _)%Z; [|done].
    destruct K0 as [|k0 K0'] eqn:HK0; [done|].
    change (last (key :: k0 :: K0')) with (last (k0 :: K0')) in Hv.
    assert (key ∈ K0) as Hin.
    { rewrite HK0. apply last_Some_elem_of in Hv. done. }
    by apply filter_ne_not_elem in Hin.
Qed.

(** ** Remaining time and expiry of an entry *)

Lemma GetTTL_run w a e :
  heap w !! a = Some e →
  GetTTL (Some a) w =
    Some (if (Expiration e =? 0)%Z then (-1)%Z
          else Z.max 0 (wrap64 (Expiration e - Unix (clock w (ticks w)))),
          afterIsExpired e w).
Proof.
  intros He. unfold GetTTL. erewrite bind_run by by apply load_run.
  unfold afterIsExpired. destruct (Expiration e =? 0)%Z; [done|].
  unfold time_Now. unfold bind at 1.
  destruct (Z.ltb_spec (wrap64 (Expiration e - Unix (clock w (ticks w)))) 0);
    unfold ret; do 2 f_equal; lia.
Qed.

(** X12.  [GetTTL] and [IsExpired], asked about the same entry at the same
    clock reading.  [GetTTL] is -1 exactly for an entry without expiration,
    and is otherwise the [int64] difference between the expiration and the
    second of the clock, or 0 when that is negative.  When the difference
    does not wrap, it is the whole seconds left: [GetTTL] is then 0 for an
    entry that [IsExpired] reports expired, but also for an entry in the
    second of its expiration, which [IsExpired] still reports alive.  Both
    read the clock once, and only for an entry that has an expiration. *)
Theorem GetTTL_and_IsExpired (w : World) (a : nat) (e : CacheEntry) :
  heap w !! a = Some e →
  ∃ ttl expired,
    GetTTL (Some a) w = Some (ttl, afterIsExpired e w) ∧
    IsExpired (Some a) w = Some (expired, afterIsExpired e w) ∧
    (ttl = (-1)%Z ↔ Expiration e = 0%Z) ∧
    (Expiration e ≠ 0%Z →
       ttl = Z.max 0 (wrap64 (Expiration e - Unix (clock w (ticks w))))) ∧
    ((- 2 ^ 63 ≤ Expiration e - Unix (clock w (ticks w)) ≤ max_int64)%Z →
       (Expiration e ≠ 0%Z →
          ttl = Z.max 0 (Expiration e - Unix (clock w (ticks w)))) ∧
       (expired = true → ttl = 0%Z) ∧
       (ttl = 0%Z → expired = false →
          Expiration e = Unix (clock w (ticks w)))).
Proof.
  intros He. eexists _, _. split; [by apply GetTTL_run|].
  split; [by apply IsExpired_run|]. unfold expiredAt.
  destruct (Z.eqb_spec (Expiration e) 0) as [Hz|Hz].
  - split_and!; done.
  - cbn [negb andb]. rewrite Z.gtb_ltb. split_and!.
    + split; [lia|done].
    + done.
    + intros Hr. rewrite (wrap64_small _ Hr). split_and!.
      * done.
      * intros Hlt%Z.ltb_lt. lia.
      * intros Hm Hlt%Z.ltb_ge. lia.
Qed.

Lemma SetExpiration_run w a e ttl :
  heap w !! a = Some e →
  SetExpiration (Some a) ttl w =
    Some (tt,
          if (0 <? ttl)%Z then
            set_heap (<[a := withExpiration (Unix (Add (clock w (ticks w)) ttl)) e]> (heap w))
              (set_ticks (S (ticks w)) w)
          else set_heap (<[a := withExpiration 0 e]> (heap w)) w).
Proof.
  intros He. unfold SetExpiration. destruct (0 <? ttl)%Z.
  - unfold time_Now. unfold bind at 1. unfold assign. simpl. by rewrite He.
  - unfold assign. by rewrite He.
Qed.

Lemma Unix_plus_seconds now t : Unix (now + t * 1000000000) = (Unix now + t)%Z.
Proof. unfold Unix. by rewrite Z.div_add by lia. Qed.

(** X13.  [SetExpiration] followed by [GetTTL] on the same entry.  With a
    TTL that is not positive the entry has no expiration afterwards: [GetTTL]
    answers -1 and [IsExpired] false, without reading the clock.  With a TTL
    of [t] whole seconds, [GetTTL] answers the [int64] difference between [t]
    and the seconds by which the clock has advanced, or 0 when that is
    negative; when the difference does not wrap, that is [t] less the
    seconds by which the clock has advanced, and 0 once they exceed [t]. *)
Theorem SetExpiration_then_GetTTL (w : World) (a : nat) (e : CacheEntry) (t : Z) :
  heap w !! a = Some e →
  ∃ w1 ttl w2,
    SetExpiration (Some a) (t * Second)%Z w = Some (tt, w1) ∧
    GetTTL (Some a) w1 = Some (ttl, w2) ∧
    ((t ≤ 0)%Z →
       ttl = (-1)%Z ∧ w2 = w1 ∧ IsExpired (Some a) w1 = Some (false, w1)) ∧
    ((0 < t)%Z → (Unix (clock w (ticks w)) + t ≠ 0)%Z →
       ttl = Z.max 0 (wrap64 (t - (Unix (clock w (S (ticks w)))
                                   - Unix (clock w (ticks w))))) ∧
       ((- 2 ^ 63 ≤ t - (Unix (clock w (S (ticks w))) - Unix (clock w (ticks w)))
         ≤ max_int64)%Z →
        ttl = Z.max 0 (t - (Unix (clock w (S (ticks w)))
                            - Unix (clock w (ticks w)))))).
Proof.
  intros He. rewrite (SetExpiration_run _ _ _ _ He).
  destruct (Z.ltb_spec 0 (t * Second)) as [Hpos|Hpos]; eexists _, _, _; (split; [done|]).
  - assert (0 < t)%Z as Ht by (unfold Second in Hpos; lia).
    split; [apply GetTTL_run; simpl; apply lookup_insert_eq|].
    cbn [Expiration withExpiration clock ticks set_heap set_ticks].
    unfold Add, Second. rewrite !Unix_plus_seconds.
    split; [intros; lia|]. intros _ Hnz.
    apply Z.eqb_neq in Hnz. rewrite Hnz.
    replace (Unix (clock w (ticks w)) + t - Unix (clock w (S (ticks w))))%Z
      with (t - (Unix (clock w (S (ticks w))) - Unix (clock w (ticks w))))%Z by lia.
    split; [done|]. intros Hr. by rewrite (wrap64_small _ Hr).
  - assert (t ≤ 0)%Z as Ht by (unfold Second in Hpos; lia).
    split; [apply GetTTL_run; simpl; apply lookup_insert_eq|].
    cbn [Expiration withExpiration Z.eqb].
    split; [|intros; lia]. intros _. split_and!; [done|done|].
    erewrite IsExpired_run by (simpl; apply lookup_insert_eq). done.
Qed.


(** ** ListKeys and the handler that limits it *)

Lemma filter_Forall_id {A} (P : A → Prop) `{!∀ x, Decision (P x)} (l : list A) :
  Forall P l → filter P l = l.
Proof.
  induction 1 as [|x l Hx _ IH]; [done|]. by rewrite filter_cons_True, IH.
Qed.

Lemma ListKeys_loop_run order : ∀ keys w,
  ListKeys_loop order keys w =
    Some (keys ++ filter (λ k, is_Some (data w !! k)) order, w).
Proof.
  induction order as [|key order IH]; intros keys w; simpl.
  - unfold ret. by rewrite app_nil_r.
  - unfold gets. unfold bind at 1. destruct (data w !! key) as [p|] eqn:Hd.
    + rewrite IH, filter_cons_True by (rewrite Hd; eauto). by rewrite <-app_assoc.
    + rewrite IH, filter_cons_False; [done|]. rewrite Hd. by intros [? ?].
Qed.

Lemma ranges_elem d order k : ranges d order → k ∈ order ↔ is_Some (d !! k).
Proof.
  intros [_ Hdom]. rewrite <-elem_of_dom, <-Hdom. by rewrite elem_of_list_to_set.
Qed.

Lemma ranges_length d order : ranges d order → length order = size d.
Proof.
  intros [Hnd Hdom]. rewrite <-size_dom, <-Hdom. by rewrite size_list_to_set.
Qed.

Lemma ListKeys_run w order : ranges (data w) order → ListKeys order w = Some (order, w).
Proof.
  intros Hr. unfold ListKeys. rewrite ListKeys_loop_run. simpl. do 2 f_equal.
  apply filter_Forall_id, Forall_forall. intros k Hk. by apply (ranges_elem _ _ _ Hr).
Qed.

(** X14.  [ListKeys] returns every key of the index exactly once, in the
    order in which the map was ranged over, and nothing else.  It does not
    read the clock, so keys whose entries have expired but are not yet
    removed are listed too, and it changes nothing: no counter, no recency
    order. *)
Theorem ListKeys_lists_index (w : World) (order : list string) :
  ranges (data w) order →
  ∃ keys,
    ListKeys order w = Some (keys, w) ∧ keys = order ∧
    NoDup keys ∧ (∀ k, k ∈ keys ↔ is_Some (data w !! k)) ∧
    length keys = size (data w).
Proof.
  intros Hr. exists order. split_and!.
  - by apply ListKeys_run.
  - done.
  - by destruct Hr.
  - intros k. by apply ranges_elem.
  - by apply ranges_length.
Qed.

Section HandlerProofs.

Variable Atoi : string → option Z.

Lemma keysLimit_pos q : (0 < keysLimit Atoi q)%Z.
Proof.
  unfold keysLimit. destruct (Atoi _) as [limit|]; [|done].
  destruct (Z.leb_spec limit 0); lia.
Qed.

(** X15.  The handler of the key listing always answers 200, and the limit
    it applies is always positive.  The body holds the first [limit] keys of the listing (all of
    them when there are no more than [limit]), their number, which is the
    smaller of the limit and the size of the index, whether the index holds
    more than [limit] keys, and the size of the index.  The keys are distinct
    keys of the index, and the cache is left as it was. *)
Theorem handler_GetKeys_limits
    (w : World) (limitQuery : option string) (order1 order2 order3 : list string) :
  ranges (data w) order1 → ranges (data w) order2 → ranges (data w) order3 →
  let limit := keysLimit Atoi limitQuery in
  let total := Z.of_nat (size (data w)) in
  ∃ body,
    handler_GetKeys Atoi limitQuery order1 order2 order3 w = Some ((200%Z, body), w) ∧
    (0 < limit)%Z ∧
    kKeys body = take (Z.to_nat limit) order1 ∧
    kCount body = Z.min total limit ∧
    kLimited body = (limit <? total)%Z ∧
    kTotalKeys body = total ∧
    NoDup (kKeys body) ∧
    (∀ k, k ∈ kKeys body → is_Some (data w !! k)).
Proof.
  intros Hr1 Hr2 Hr3 limit total.
  pose proof (keysLimit_pos limitQuery) as Hpos. fold limit in Hpos.
  pose proof (ranges_length _ _ Hr1) as Hl1.
  pose proof (ranges_length _ _ Hr2) as Hl2.
  pose proof (ranges_length _ _ Hr3) as Hl3.
  assert ((if (limit <? Z.of_nat (length order1))%Z
           then take (Z.to_nat limit) order1 else order1)
          = take (Z.to_nat limit) order1) as Htake.
  { destruct (Z.ltb_spec limit (Z.of_nat (length order1))); [done|].
    rewrite take_ge; [done|lia]. }
  eexists. split.
  { unfold handler_GetKeys. fold limit.
    erewrite bind_run by by apply ListKeys_run.
    erewrite bind_run by by apply ListKeys_run.
    erewrite bind_run by by apply ListKeys_run.
    rewrite Htake. reflexivity. }
  simpl. split_and!.
  - done.
  - done.
  - rewrite length_take, Hl1. unfold total. lia.
  - by rewrite Hl2.
  - by rewrite Hl3.
  - eapply sublist_NoDup; [by destruct Hr1|apply sublist_take].
  - intros k Hk. apply (ranges_elem _ _ _ Hr1).
    eapply sublist_elem; [apply sublist_take|done].
Qed.

End HandlerProofs.

(** ** BulkPut *)

Lemma length_filter_split {A} (P : A → Prop) `{!∀ x, Decision (P x)} (l : list A) :
  length (filter (λ x, ¬ P x) l) + length (filter P l) = length l.
Proof.
  induction l as [|x l IH]; [done|]. destruct (decide (P x)).
  - rewrite filter_cons_False by tauto. rewrite filter_cons_True by done. simpl. lia.
  - rewrite filter_cons_True by done. rewrite filter_cons_False by done. simpl. lia.
Qed.

Lemma BulkPut_loop_spec items : ∀ w (response : BulkPutResponse),
  WF w →
  ∃ w',
    BulkPut_loop items response w =
      Some (mkBulkPutResponse
              (Successful response
               + Z.of_nat (length (filter (λ item, pKey item ≠ "") items)))
              (Failed response
               + Z.of_nat (length (filter (λ item, pKey item = "") items)))
              (Errors response ++
               replicate (length (filter (λ item, pKey item = "") items))
                 "Key '': key cannot be empty"), w') ∧
    run (item_op <$> items) w = Some (tt, w') ∧ WF w'.
Proof.
  induction items as [|item items IH]; intros w response Hwf.
  - exists w. split_and!; [|done|done]. simpl. unfold ret. do 2 f_equal.
    destruct response. simpl. rewrite app_nil_r. f_equal; lia.
  - simpl BulkPut_loop. simpl fmap. simpl run.
    destruct (decide (pKey item = "")) as [Heq|Hne].
    + rewrite Heq. erewrite bind_run by apply Put_empty.
      destruct (IH w (mkBulkPutResponse (Successful response) (Failed response + 1)
                        (Errors response ++ [keyError "" "key cannot be empty"])) Hwf)
        as (w' & Hrun & Hrun2 & Hwf').
      exists w'. split_and!; [| |done].
      2:{ erewrite (bind_run _ _ w tt w); [exact Hrun2|]. unfold bind.
          by rewrite Put_empty. }
      rewrite Hrun. simpl.
      rewrite filter_cons_False by (intros H; by apply H).
      rewrite filter_cons_True by done. simpl length.
      do 2 f_equal. f_equal; [lia|]. by rewrite <-app_assoc.
    + destruct (Put_stores w (pKey item) (pValue item) (itemTTL item) Hwf Hne)
        as (w1 & _ & _ & Hput & Hwf1 & _).
      erewrite bind_run by exact Hput.
      destruct (IH w1 (mkBulkPutResponse (Successful response + 1) (Failed response)
                         (Errors response)) Hwf1)
        as (w' & Hrun & Hrun2 & Hwf').
      exists w'. split_and!; [| |done].
      * rewrite Hrun. simpl.
        rewrite filter_cons_True by done.
        rewrite filter_cons_False by (intros H; by apply Hne). simpl length.
        do 2 f_equal. f_equal; lia.
      * erewrite (bind_run _ _ w tt w1); [exact Hrun2|]. unfold bind.
        by rewrite Hput.
Qed.

(** X16.  [BulkPut] is the chain of the [Put]s of its items, in order, and
    keeps the cache well formed.  An item fails exactly when its key is
    empty; the two counts it reports are the numbers of items with a
    non-empty and with an empty key, so they add up to the number of items;
    and every error message is the same text, since a failing key is
    empty. *)
Theorem BulkPut_counts (w : World) (items : list PutRequest) :
  WF w →
  ∃ (response : BulkPutResponse) w',
    BulkPut items w = Some (response, w') ∧
    run (item_op <$> items) w = Some (tt, w') ∧ WF w' ∧
    Successful response = Z.of_nat (length (filter (λ item, pKey item ≠ "") items)) ∧
    Failed response = Z.of_nat (length (filter (λ item, pKey item = "") items)) ∧
    (Successful response + Failed response = Z.of_nat (length items))%Z ∧
    Errors response =
      replicate (Z.to_nat (Failed response)) "Key '': key cannot be empty".
Proof.
  intros Hwf.
  destruct (BulkPut_loop_spec items w (mkBulkPutResponse 0 0 []) Hwf)
    as (w' & Hrun & Hrun2 & Hwf').
  eexists _, w'. split; [exact Hrun|]. simpl. split_and!; try done.
  - pose proof (length_filter_split (λ item : PutRequest, pKey item = "") items). lia.
  - f_equal. lia.
Qed.


Lemma run_app ops1 : ∀ ops2 w w1,
  run ops1 w = Some (tt, w1) → run (ops1 ++ ops2) w = run ops2 w1.
Proof.
  induction ops1 as [|o ops1 IH]; intros ops2 w w1 Hrun; simpl in *.
  - by injection Hrun as <-.
  - unfold bind in *. destruct (step o w) as [[[] w0]|]; [|done]. by apply IH.
Qed.

Lemma seconds_exact t : (0 < t ≤ 9223372036)%Z → seconds t = (t * Second)%Z.
Proof. intros Ht. apply wrap64_small. unfold max_int64, Second. lia. Qed.

(** X17.  The last item of a [BulkPut] wins: when its key is not empty, the
    entry stored under that key afterwards carries its value.  A TTL of [t]
    seconds, for [t] from 1 to 9223372036, gives the expiration [t] seconds
    after the second of the clock read for this item; no TTL, or one that is
    not positive, gives what [Put] without a TTL gives, that is the default
    TTL of the cache. *)
Theorem BulkPut_last_item (w : World) (items : list PutRequest) (item : PutRequest) :
  WF w → pKey item ≠ "" →
  ∃ (response : BulkPutResponse) w1 w' e,
    run (item_op <$> items) w = Some (tt, w1) ∧
    BulkPut (items ++ [item]) w = Some (response, w') ∧
    entry_of w' (pKey item) = Some e ∧ Value e = pValue item ∧
    (∀ t, pTTL item = Some t → (0 < t ≤ 9223372036)%Z →
          Expiration e = (Unix (clock w1 (ticks w1)) + t)%Z) ∧
    ((pTTL item = None ∨ ∃ t, pTTL item = Some t ∧ (t ≤ 0)%Z) →
     Expiration e = putExpiration None w1).
Proof.
  intros Hwf Hne.
  destruct (BulkPut_loop_spec items w (mkBulkPutResponse 0 0 []) Hwf)
    as (w1 & _ & Hrun1 & Hwf1).
  destruct (BulkPut_loop_spec (items ++ [item]) w (mkBulkPutResponse 0 0 []) Hwf)
    as (w' & Hrun & Hrun2 & _).
  pose proof Hwf1 as (K1 & Ha1 & He1).
  destruct (Put_effect_K w1 K1 (pKey item) (pValue item) (itemTTL item) Ha1 Hne)
    as (w2 & e & Hput & Hent & _ & Hval & Hexp & _).
  assert (w' = w2) as ->.
  { rewrite fmap_app, (run_app _ _ _ _ Hrun1) in Hrun2. simpl in Hrun2.
    unfold bind in Hrun2. rewrite Hput in Hrun2. unfold ret in Hrun2. congruence. }
  eexists _, w1, w2, e. split_and!; [done|exact Hrun|done|done| |].
  - intros t Ht Hb. rewrite Hexp. unfold itemTTL. rewrite Ht.
    replace (0 <? t)%Z with true by (symmetry; apply Z.ltb_lt; lia).
    rewrite seconds_exact by done. apply putExpiration_seconds. lia.
  - intros Hno. rewrite Hexp. unfold itemTTL.
    destruct Hno as [->|(t & -> & Ht)]; [done|].
    by replace (0 <? t)%Z with false by (symmetry; apply Z.ltb_ge; lia).
Qed.


(** ** The sweep, entry by entry *)

Lemma filter_ext_in {A} (P Q : A → Prop)
    `{!∀ x, Decision (P x)} `{!∀ x, Decision (Q x)} (l : list A) :
  (∀ x, x ∈ l → P x ↔ Q x) → filter P l = filter Q l.
Proof.
  induction l as [|x l IH]; intros Hpq; [done|].
  assert (filter P l = filter Q l) as Hl.
  { apply IH. intros y Hy. apply Hpq. by right. }
  destruct (decide (P x)) as [Hp|Hp].
  - rewrite !filter_cons_True; [by rewrite Hl| |done]. apply Hpq; [by left|done].
  - rewrite !filter_cons_False; [done| |done]. intros Hq. apply Hp, Hpq; [by left|done].
Qed.

Lemma filter_ne_length_NoDup (K : list string) k :
  NoDup K → k ∈ K → S (length (filter (λ x, x ≠ k) K)) = length K.
Proof.
  induction 1 as [|x K Hx Hnd IH]; [by intros ?%elem_of_nil|].
  intros [->|Hin]%elem_of_cons.
  - rewrite filter_cons_False by (by intros ?). by rewrite filter_ne_id.
  - rewrite filter_cons_True by (intros ->; done). simpl. by rewrite IH.
Qed.

Lemma set_ticks_same w : set_ticks (ticks w) w = w.
Proof. by destruct w. Qed.

Lemma collectExpired_detail order : ∀ acc w K,
  Abs w K →
  ∃ ks t,
    collectExpired order acc w = Some (acc ++ ks, set_ticks t w) ∧
    ticks w ≤ t ∧
    (∀ k, k ∈ ks →
       k ∈ order ∧
       ∃ e n, entry_of w k = Some e ∧ ticks w ≤ n < t ∧
              expiredAt e (clock w n) = true) ∧
    (∀ k e, k ∈ order → k ∉ ks → entry_of w k = Some e →
       Expiration e = 0%Z ∨
       ∃ n, ticks w ≤ n < t ∧ expiredAt e (clock w n) = false).
Proof.
  induction order as [|key order IH]; intros acc w K Ha.
  - exists [], (ticks w). rewrite app_nil_r, set_ticks_same.
    split_and!; [done|done|by intros ? ?%elem_of_nil|by intros ? ? ?%elem_of_nil].
  - simpl. erewrite (bind_run (gets data)) by done.
    destruct (data w !! key) as [p|] eqn:Hd.
    2:{ destruct (IH acc w K Ha) as (ks & t & Hrun & Ht & Hin & Hout).
        exists ks, t. split_and!; [done|done| |].
        - intros k Hk. destruct (Hin k Hk) as [? ?]. split; [by right|done].
        - intros k e [->|Hk]%elem_of_cons Hnk Hent.
          + by rewrite (entry_of_None _ _ Hd) in Hent.
          + by eapply Hout. }
    destruct (Abs_lookup _ _ _ _ Ha Hd) as (a & e0 & -> & He0 & _).
    pose proof (entry_of_Some _ _ _ _ Hd He0) as Hent0.
    erewrite bind_run by by apply IsExpired_run.
    unfold afterIsExpired. destruct (Z.eqb_spec (Expiration e0) 0) as [Hz|Hz].
    { assert (expiredAt e0 (clock w (ticks w)) = false) as ->.
      { unfold expiredAt. by rewrite Hz. }
      destruct (IH acc w K Ha) as (ks & t & Hrun & Ht & Hin & Hout).
      exists ks, t. split_and!; [done|done| |].
      - intros k Hk. destruct (Hin k Hk) as [? ?]. split; [by right|done].
      - intros k e [->|Hk]%elem_of_cons Hnk Hent.
        + left. rewrite Hent0 in Hent. by injection Hent as <-.
        + by eapply Hout. }
    set (w1 := set_ticks (S (ticks w)) w).
    assert (Abs w1 K) as Ha1 by (eapply Abs_same; [..|exact Ha]; done).
    destruct (expiredAt e0 (clock w (ticks w))) eqn:Hx.
    + destruct (IH (acc ++ [key]) w1 K Ha1) as (ks & t & Hrun & Ht & Hin & Hout).
      simpl in Ht. exists (key :: ks), t. split_and!.
      * rewrite Hrun. by rewrite <-app_assoc.
      * lia.
      * intros k [->|Hk]%elem_of_cons.
        -- split; [by left|]. exists (payload e0), (ticks w). split_and!; [done|lia|lia|done].
        -- destruct (Hin k Hk) as (Hko & e & n & Hent & Hn & Hex). split; [by right|].
           exists e, n. simpl in Hn. split_and!; [done|lia|lia|done].
      * intros k e Hko [Hne Hnk]%not_elem_of_cons Hent.
        apply elem_of_cons in Hko as [->|Hko]; [done|].
        destruct (Hout k e Hko Hnk Hent) as [?|(n & Hn & Hex)]; [by left|right].
        exists n. simpl in Hn. split; [lia|done].
    + destruct (IH acc w1 K Ha1) as (ks & t & Hrun & Ht & Hin & Hout).
      simpl in Ht. exists ks, t. split_and!.
      * done.
      * lia.
      * intros k Hk. destruct (Hin k Hk) as (Hko & e & n & Hent & Hn & Hex).
        split; [by right|]. exists e, n. simpl in Hn. split_and!; [done|lia|lia|done].
      * intros k e Hko Hnk Hent. destruct (decide (k = key)) as [->|Hne].
        -- right. exists (ticks w). split; [lia|].
           rewrite Hent0 in Hent. by injection Hent as <-.
        -- apply elem_of_cons in Hko as [->|Hko]; [done|].
           destruct (Hout k e Hko Hnk Hent) as [?|(n & Hn & Hex)]; [by left|right].
           exists n. simpl in Hn. split; [lia|done].
Qed.

Lemma removeExpired_detail ks : ∀ w K,
  Abs w K →
  ∃ w',
    removeExpired ks w = Some (tt, w') ∧
    Abs w' (filter (λ k, k ∉ ks) K) ∧
    (∀ k, k ∉ ks → entry_of w' k = entry_of w k) ∧
    expiredRemovals w' =
      Nat.iter (length K - length (filter (λ k, k ∉ ks) K)) incr64 (expiredRemovals w) ∧
    config_same w w' ∧ ticks w' = ticks w ∧ hits w' = hits w ∧
    misses w' = misses w ∧ evictions w' = evictions w.
Proof.
  induction ks as [|key ks IH]; intros w K Ha.
  - exists w. rewrite (filter_Forall_id (λ k, k ∉ [])).
    + rewrite Nat.sub_diag. by split_and!.
    + apply Forall_forall. by intros ? _ ?%elem_of_nil.
  - simpl. erewrite (bind_run (gets data)) by done.
    destruct (data w !! key) as [p|] eqn:Hd.
    2:{ destruct (IH w K Ha) as (w' & Hrun & Ha' & Hfr & Hrest).
        assert (filter (λ k, k ∉ key :: ks) K = filter (λ k, k ∉ ks) K) as ->.
        { apply filter_ext_in. intros x Hx. rewrite not_elem_of_cons.
          split; [tauto|]. intros Hn. split; [|done]. intros ->.
          apply (Abs_elem _ _ _ Ha) in Hx. rewrite Hd in Hx. by destruct Hx. }
        exists w'. split; [done|]. split; [done|]. split; [|done].
        intros k [_ Hk]%not_elem_of_cons. by apply Hfr. }
    destruct (Abs_lookup _ _ _ _ Ha Hd) as (a & e & -> & He & _).
    destruct (Abs_removeEntry w K key a Ha Hd) as (h' & Hrun & Ha' & Hs).
    erewrite bind_run by exact Hrun.
    unfold modify at 1. unfold bind at 1.
    set (w1 := set_expiredRemovals (incr64 (expiredRemovals w))
                 (set_heap h' (set_data (delete key (data w)) w))).
    assert (Abs w1 (filter (λ x, x ≠ key) K)) as Ha1
      by (eapply Abs_same; [..|exact Ha']; done).
    destruct (IH w1 _ Ha1) as (w' & Hrun' & Ha'' & Hfr & Her & Hc & Ht & Hh & Hm & Hev).
    assert (filter (λ k, k ∉ ks) (filter (λ x, x ≠ key) K)
            = filter (λ k, k ∉ key :: ks) K) as HK.
    { rewrite list_filter_filter. apply list_filter_iff. intros x.
      rewrite not_elem_of_cons. tauto. }
    rewrite HK in Ha'', Her.
    assert (key ∈ K) as Hin by (apply (Abs_elem _ _ _ Ha); eauto).
    pose proof (filter_ne_length_NoDup K key (Abs_NoDup _ _ Ha) Hin) as Hlen.
    assert (length (filter (λ k, k ∉ key :: ks) K)
            ≤ length (filter (λ x, x ≠ key) K)) as Hle.
    { rewrite <-HK. apply length_filter. }
    exists w'. split_and!; try done.
    + intros k [Hne Hk]%not_elem_of_cons. rewrite (Hfr k Hk).
      apply entry_of_ext; [|done]. simpl. by apply lookup_delete_ne.
    + rewrite Her. simpl expiredRemovals. rewrite iter_incr64_shift.
      replace (length K - length (filter (λ k, k ∉ key :: ks) K))
        with (S (length (filter (λ x, x ≠ key) K)
                 - length (filter (λ k, k ∉ key :: ks) K))) by lia.
      done.
Qed.

Lemma cleanupExpired_detail order w K :
  Abs w K →
  ∃ (ks : list string) w',
    cleanupExpired order w = Some (tt, w') ∧
    Abs w' (filter (λ k, k ∉ ks) K) ∧
    (∀ k, k ∉ ks → entry_of w' k = entry_of w k) ∧
    (∀ k, k ∈ ks →
       k ∈ order ∧
       ∃ e n, entry_of w k = Some e ∧ ticks w ≤ n < ticks w' ∧
              expiredAt e (clock w n) = true) ∧
    (∀ k e, k ∈ order → k ∉ ks → entry_of w k = Some e →
       Expiration e = 0%Z ∨
       ∃ n, ticks w ≤ n < ticks w' ∧ expiredAt e (clock w n) = false) ∧
    expiredRemovals w' =
      Nat.iter (length K - length (filter (λ k, k ∉ ks) K)) incr64 (expiredRemovals w) ∧
    hits w' = hits w ∧ misses w' = misses w ∧ evictions w' = evictions w.
Proof.
  intros Ha.
  destruct (collectExpired_detail order [] w K Ha) as (ks & t & Hrun & Ht & Hin & Hout).
  assert (Abs (set_ticks t w) K) as Ha1 by (eapply Abs_same; [..|exact Ha]; done).
  destruct (removeExpired_detail ks _ K Ha1)
    as (w' & Hrun' & Ha' & Hfr & Her & _ & Hticks & Hh & Hm & Hev).
  simpl in Hticks. exists ks, w'. rewrite Hticks. split_and!; try done.
  unfold cleanupExpired. by erewrite bind_run by exact Hrun.
Qed.

(** X18.  The sweep removes only entries that have an expiration and that
    [IsExpired] found expired at one of the clock readings of the sweep;
    every entry it met and kept either has no expiration or was found alive
    at one of those readings.  The entries that stay are unchanged and keep
    their recency order; the counter of expired removals goes up by one for
    each entry removed, and hits, misses and evictions are untouched. *)
Theorem sweep_removes_expired_only (w : World) (order : list string) :
  WF w →
  ∃ w' K K',
    cleanupExpired order w = Some (tt, w') ∧
    Abs w K ∧ Abs w' K' ∧ sublist K' K ∧ WF w' ∧
    (∀ k, k ∈ K' → entry_of w' k = entry_of w k) ∧
    (∀ k, k ∈ K → k ∉ K' →
       k ∈ order ∧
       ∃ e n, entry_of w k = Some e ∧ Expiration e ≠ 0%Z ∧
              ticks w ≤ n < ticks w' ∧
              (Unix (clock w n) > Expiration e)%Z) ∧
    (∀ k e, k ∈ K' → k ∈ order → entry_of w k = Some e →
       Expiration e = 0%Z ∨
       ∃ n, ticks w ≤ n < ticks w' ∧ (Unix (clock w n) ≤ Expiration e)%Z) ∧
    expiredRemovals w' = Nat.iter (length K - length K') incr64 (expiredRemovals w) ∧
    hits w' = hits w ∧ misses w' = misses w ∧ evictions w' = evictions w.
Proof.
  intros (K & Ha & He).
  destruct (cleanupExpired_detail order w K Ha)
    as (ks & w' & Hrun & Ha' & Hfr & Hin & Hout & Her & Hh & Hm & Hev).
  exists w', K, (filter (λ k, k ∉ ks) K).
  split_and!; try done.
  - apply sublist_filter.
  - eexists. split; [exact Ha'|]. rewrite list_elem_of_filter. tauto.
  - intros k [Hk _]%list_elem_of_filter. by apply Hfr.
  - intros k Hk Hnk.
    assert (k ∈ ks) as Hks.
    { destruct (decide (k ∈ ks)); [done|]. exfalso. apply Hnk.
      by apply list_elem_of_filter. }
    destruct (Hin k Hks) as (Hko & e & n & Hent & Hn & Hx).
    split; [done|]. exists e, n. unfold expiredAt in Hx.
    apply andb_true_iff in Hx as [Hnz Hgt].
    apply negb_true_iff, Z.eqb_neq in Hnz.
    rewrite Z.gtb_ltb in Hgt. apply Z.ltb_lt in Hgt.
    split_and!; [done|done|lia|lia|lia].
  - intros k e [Hnk _]%list_elem_of_filter Hko Hent.
    destruct (Hout k e Hko Hnk Hent) as [?|(n & Hn & Hx)]; [by left|].
    destruct (Z.eqb_spec (Expiration e) 0) as [?|Hnz]; [by left|right].
    exists n. split; [done|]. unfold expiredAt in Hx.
    apply andb_false_iff in Hx as [Hx|Hx].
    + apply negb_false_iff, Z.eqb_eq in Hx. done.
    + rewrite Z.gtb_ltb in Hx. by apply Z.ltb_ge in Hx.
Qed.

(** X19.  With the clock standing at [now] for the time of the sweep, and
    the sweep ranging over the whole index, the cache afterwards holds
    exactly the entries that are not expired at [now], in the recency order
    they had, and none of them is expired. *)
Theorem sweep_exact_at_fixed_time (w : World) (order : list string) (now : Z) :
  WF w → ranges (data w) order →
  (∀ n, ticks w ≤ n → clock w n = now) →
  ∃ w' K,
    cleanupExpired order w = Some (tt, w') ∧
    Abs w K ∧ Abs w' (filter (λ k, expired_key w now k = false) K) ∧
    (∀ k, is_Some (data w' !! k) ↔
          is_Some (data w !! k) ∧ expired_key w now k = false) ∧
    (∀ k, is_Some (data w' !! k) →
          entry_of w' k = entry_of w k ∧ expired_key w' now k = false).
Proof.
  intros (K & Ha & He) Hr Hclk.
  destruct (cleanupExpired_detail order w K Ha)
    as (ks & w' & Hrun & Ha' & Hfr & Hin & Hout & _).
  assert (∀ k, k ∈ K → k ∉ ks ↔ expired_key w now k = false) as Hiff.
  { intros k Hk. pose proof Hk as Hd. apply (Abs_elem _ _ _ Ha) in Hd.
    pose proof Hd as Hko. apply (ranges_elem _ _ _ Hr) in Hko.
    destruct Hd as [p Hd].
    destruct (Abs_lookup _ _ _ _ Ha Hd) as (a & e0 & -> & He0 & _).
    pose proof (entry_of_Some _ _ _ _ Hd He0) as Hent.
    unfold expired_key. rewrite Hent. split.
    - intros Hnk. destruct (Hout k _ Hko Hnk Hent) as [Hz|(n & Hn & Hx)].
      + unfold expiredAt. simpl in Hz. simpl. by rewrite Hz.
      + by rewrite Hclk in Hx by lia.
    - intros Hx Hks. destruct (Hin k Hks) as (_ & e & n & Hent' & Hn & Hx').
      rewrite Hent in Hent'. injection Hent' as <-.
      rewrite Hclk in Hx' by lia. congruence. }
  assert (filter (λ k, k ∉ ks) K = filter (λ k, expired_key w now k = false) K) as HK
    by by apply filter_ext_in.
  rewrite HK in Ha'.
  assert (∀ k, is_Some (data w' !! k) ↔
               is_Some (data w !! k) ∧ expired_key w now k = false) as Hdom.
  { intros k. rewrite <-(Abs_elem _ _ _ Ha'), <-(Abs_elem _ _ _ Ha).
    by rewrite list_elem_of_filter, (comm and). }
  exists w', K. split_and!; try done.
  intros k Hk. apply Hdom in Hk as [Hd Hx].
  assert (entry_of w' k = entry_of w k) as Hent.
  { apply Hfr. apply Hiff; [|done]. by apply (Abs_elem _ _ _ Ha). }
  split; [done|]. unfold expired_key in *. by rewrite Hent.
Qed.


(** ** The handlers of a single key *)

(** X20.  The handler of a read never fails.  It answers 400 for an empty
    key and leaves the cache alone; otherwise 200 when the key holds an entry
    that [IsExpired] finds alive at the clock reading of [Get], and 404 when
    not.  On 200 the body carries the key, the stored value, the creation
    time and [Found]; on 404 it carries the key with [Found] unset and the
    key is absent from the cache afterwards. *)
Theorem handler_Get_answers (w : World) (key : string) :
  WF w →
  ∃ status body w',
    handler_Get nilValue key w = Some ((status, body), w') ∧ WF w' ∧
    (status = 400%Z ∨ status = 404%Z ∨ status = 200%Z) ∧
    (status = 400%Z ↔ key = "") ∧
    (status = 400%Z → w' = w ∧ body = inl missingKey) ∧
    (status = 200%Z ↔
       key ≠ "" ∧
       ∃ e, entry_of w key = Some e ∧ expiredAt e (clock w (ticks w)) = false) ∧
    (status = 200%Z →
       ∃ e r, entry_of w key = Some e ∧ body = inr r ∧
              rKey r = key ∧ rValue r = Value e ∧ rFound r = true ∧
              rCreatedAt r = CreatedAt e ∧ is_Some (data w' !! key)) ∧
    (status = 404%Z →
       body = inr (mkGetResponse key nilValue false false zeroTime zeroTime) ∧
       entry_of w' key = None).
Proof.
  intros Hwf. unfold handler_Get. destruct (decide (key = "")) as [->|Hne].
  { exists 400%Z, (inl missingKey), w. split_and!; try done; auto.
    split; [done|]. by intros [? _]. }
  pose proof Hwf as (K & Ha & He).
  destruct (Get_effect w K key Ha He) as (p & found & w1 & Hget & Hcase).
  pose proof (Get_WF _ _ _ _ Hwf Hget) as Hwf1.
  erewrite bind_run by exact Hget. destruct found; simpl.
  - destruct Hcase as (a & e & e' & -> & _ & Hd & Hh & Hx & Hdata & Hh' & Hp & _).
    erewrite bind_run by by apply ToResponse_run.
    pose proof (entry_of_Some _ _ _ _ Hd Hh) as Hent.
    eexists 200%Z, _, _. split; [done|]. split_and!; try done; auto.
    + by apply afterIsExpired_WF.
    + split; [intros _|done]. split; [done|]. by exists (payload e).
    + intros _. eexists (payload e), _. split_and!; [done|done| | |done| |].
      * simpl. rewrite (payload_Key _ _ Hp). simpl.
        destruct (Abs_lookup _ _ _ _ Ha Hd) as (? & ? & [= <-] & ? & ?). congruence.
      * simpl. by rewrite (payload_Value _ _ Hp).
      * simpl. by rewrite (payload_CreatedAt _ _ Hp).
      * destruct (afterIsExpired_fields e' w1) as (-> & _). rewrite Hdata, Hd. eauto.
  - destruct Hcase as (-> & _ & Hn & _ & _ & _ & Hall & _).
    eexists 404%Z, _, w1. split; [done|]. split_and!; try done; auto.
    split; [done|]. intros (_ & e & Hent & Hx). rewrite (Hall e Hent) in Hx. done.
Qed.

(** X21.  The handler of a deletion never fails.  It answers 400 for an
    empty key, 200 when the key was in the index (expired or not) and 404
    when it was not; the body repeats the key and carries the same flag in
    [Deleted] and [Found].  Afterwards the key is absent, and asking again
    gives 404 and changes nothing. *)
Theorem handler_Delete_answers (w : World) (key : string) :
  WF w →
  ∃ status body w',
    handler_Delete key w = Some ((status, body), w') ∧ WF w' ∧
    (status = 400%Z ∨ status = 404%Z ∨ status = 200%Z) ∧
    (status = 400%Z ↔ key = "") ∧
    (status = 200%Z ↔ is_Some (data w !! key)) ∧
    (key ≠ "" →
       body = inr (mkDeleteResponse key (bool_decide (status = 200%Z))
                     (bool_decide (status = 200%Z)))) ∧
    entry_of w' key = None ∧
    (key ≠ "" →
       handler_Delete key w' =
         Some ((404%Z, inr (mkDeleteResponse key false false)), w')).
Proof.
  intros Hwf. pose proof Hwf as (K & Ha & He).
  pose proof (WF_empty_key _ Hwf) as Hempty.
  unfold handler_Delete. destruct (decide (key = "")) as [->|Hne].
  { exists 400%Z, (inl missingKey), w. split_and!; try done; auto.
    - rewrite Hempty. split; [done|]. by intros [? ?].
    - by apply entry_of_None. }
  destruct (data w !! key) as [p|] eqn:Hd.
  - destruct (WF_present _ _ _ Hwf Hd) as (_ & a & e & -> & Hea & _).
    destruct (Delete_present w K key a Ha Hne Hd) as (h' & Hrun & Ha' & Hs).
    cbv zeta in Hrun, Ha'. erewrite bind_run by exact Hrun. simpl.
    eexists 200%Z, _, _. split; [done|].
    assert (data (set_heap h' (set_data (delete key (data w)) w)) !! key = None) as Hgone
      by (simpl; apply lookup_delete_eq).
    split_and!; try done; auto.
    + eexists. split; [exact Ha'|]. rewrite list_elem_of_filter. tauto.
    + by apply entry_of_None.
    + intros _. erewrite bind_run by by apply Delete_missing. done.
  - erewrite bind_run by by apply Delete_missing. simpl.
    eexists 404%Z, _, w. split; [done|].
    split_and!; try done; auto; try (by apply entry_of_None);
      try (split; [done|by intros [? ?]]).
    intros _. erewrite bind_run by by apply Delete_missing. done.
Qed.


End Proofs.

(** * The claims on concrete caches *)

Module Witness.
Import Scenario.

Lemma at_boundary_reach : reach 0 2 0 clock_boundary history_a = Some at_boundary.
Proof. vm_compute. reflexivity. Defined.

Lemma expired_unswept_reach : reach 0 2 0 clock_late history_a = Some expired_unswept.
Proof. vm_compute. reflexivity. Defined.

Lemma full_reach : reach 0 2 0 clock_steady history_full = Some full.
Proof. vm_compute. reflexivity. Defined.

Lemma at_boundary_WF : WF at_boundary.
Proof. eapply reach_WF. exact at_boundary_reach. Defined.

Lemma expired_unswept_WF : WF expired_unswept.
Proof. eapply reach_WF. exact expired_unswept_reach. Defined.

Lemma full_WF : WF full.
Proof. eapply reach_WF. exact full_reach. Defined.

(** The scenario of the specification: capacity 2, Put A, Put B, Get A;
    then Put C evicts B and keeps A, and Get B misses. *)
Example put_C_evicts_B :
  match bind (Put "C" 3 None) (λ _, Get "B") full with
  | Some ((p, found), w) =>
      (found, misses w, evictions w, bool_decide (is_Some (data w !! "A")),
       data w !! "B", bool_decide (is_Some (data w !! "C")))
      = (false, 1%Z, 1%Z, true, None, true)
  | None => False
  end.
Proof. vm_compute. reflexivity. Qed.

(** A key listed twice in a bulk read is read twice. *)
Example bulk_get_counts_duplicates :
  match BulkGet 0 ["A"; "missing"; "A"] full with
  | Some (response, w) =>
      (Found response, NotFound response, hits w, misses w)
      = (2, 1, hits full + 2, misses full + 1)%Z
  | None => False
  end.
Proof. vm_compute. reflexivity. Qed.

(** C1 as stated fails at the boundary: ["a"] is in the cache, its
    expiration equals the current Unix second, and [Get] returns it. *)
Lemma Get_at_boundary_returns_entry :
  WF at_boundary ∧
  data at_boundary !! "a" = Some (Some 2) ∧
  heap at_boundary !! 2 = Some entry_a ∧
  Expiration entry_a = Unix (clock at_boundary (ticks at_boundary)) ∧
  fst <$> Get "a" at_boundary = Some (Some 2, true).
Proof.
  split; [exact at_boundary_WF|]. vm_compute. by split_and!.
Qed.

(** [Get_expiry] at an entry that expired two seconds ago. *)
Lemma Get_expiry_witness :
  WF expired_unswept ∧
  data expired_unswept !! "a" = Some (Some 2) ∧
  heap expired_unswept !! 2 = Some entry_a ∧
  Expiration entry_a ≠ 0%Z ∧
  (Expiration entry_a < Unix (clock expired_unswept (ticks expired_unswept)))%Z ∧
  ∃ w', Get "a" expired_unswept = Some ((None, false), w') ∧
        data w' = delete "a" (data expired_unswept) ∧
        data w' !! "a" = None ∧ WF w'.
Proof.
  assert (data expired_unswept !! "a" = Some (Some 2)) as Hd
    by (vm_compute; reflexivity).
  assert (heap expired_unswept !! 2 = Some entry_a) as He
    by (vm_compute; reflexivity).
  assert (Expiration entry_a ≠ 0%Z) as Hx by (simpl; lia).
  assert (Expiration entry_a < Unix (clock expired_unswept (ticks expired_unswept)))%Z
    as Hlt by (vm_compute; reflexivity).
  split_and!; [exact expired_unswept_WF|exact Hd|exact He|exact Hx|exact Hlt|].
  exact (proj1 (Get_expiry expired_unswept "a" 2 entry_a
                  expired_unswept_WF Hd He Hx) Hlt).
Defined.

(** [Get_outcomes] at the expired entry. *)
Lemma Get_outcomes_witness :
  WF expired_unswept ∧
  ∃ a e, heap expired_unswept !! a = Some e ∧
         expiredAt e (clock expired_unswept (ticks expired_unswept)) = true ∧
         ∃ w', Get "a" expired_unswept = Some ((None, false), w') ∧
               expiredRemovals w' = incr64 (expiredRemovals expired_unswept) ∧
               misses w' = incr64 (misses expired_unswept) ∧
               hits w' = hits expired_unswept ∧ WF w'.
Proof.
  split; [exact expired_unswept_WF|].
  destruct (Get_outcomes expired_unswept "a" expired_unswept_WF) as (_ & _ & Hp).
  destruct (Hp (Some 2)) as (a & e & Heq & He & Hcase); [vm_compute; reflexivity|].
  injection Heq as <-.
  assert (e = entry_a) as ->.
  { assert (heap expired_unswept !! 2 = Some entry_a) as He' by (vm_compute; reflexivity).
    congruence. }
  assert (expiredAt entry_a (clock expired_unswept (ticks expired_unswept)) = true)
    as Hexp by (vm_compute; reflexivity).
  rewrite Hexp in Hcase.
  destruct Hcase as (w' & Hrun & _ & Hx & Hm & Hh & _ & Hwf' & _).
  exists 2, entry_a. split_and!; [exact He|exact Hexp|].
  exists w'. by split_and!.
Defined.

(** [Delete_expired_entry] at the expired entry. *)
Lemma Delete_expired_entry_witness :
  WF expired_unswept ∧
  data expired_unswept !! "a" = Some (Some 2) ∧
  heap expired_unswept !! 2 = Some entry_a ∧
  expiredAt entry_a (clock expired_unswept (ticks expired_unswept)) = true ∧
  ∃ w', Delete "a" expired_unswept = Some ((true, true), w') ∧
        data w' = delete "a" (data expired_unswept) ∧ data w' !! "a" = None ∧
        hits w' = hits expired_unswept ∧ misses w' = misses expired_unswept ∧
        evictions w' = evictions expired_unswept ∧
        expiredRemovals w' = expiredRemovals expired_unswept ∧
        ticks w' = ticks expired_unswept ∧ WF w'.
Proof.
  assert (data expired_unswept !! "a" = Some (Some 2)) as Hd
    by (vm_compute; reflexivity).
  assert (heap expired_unswept !! 2 = Some entry_a) as He
    by (vm_compute; reflexivity).
  assert (expiredAt entry_a (clock expired_unswept (ticks expired_unswept)) = true)
    as Hexp by (vm_compute; reflexivity).
  split_and!; [exact expired_unswept_WF|exact Hd|exact He|exact Hexp|].
  exact (Delete_expired_entry expired_unswept "a" 2 entry_a
           expired_unswept_WF Hd He Hexp).
Defined.

(** [Clear_empties] at the full cache. *)
Lemma Clear_empties_witness :
  WF full ∧
  ∃ K w', Abs full K ∧ Clear full = Some (Z.of_nat (length K), w') ∧
          length K = size (data full) ∧ data w' = ∅ ∧ Abs w' [] ∧
          hits w' = hits full ∧ misses w' = misses full ∧
          evictions w' = evictions full ∧
          expiredRemovals w' = expiredRemovals full ∧
          (data full = ∅ → Z.of_nat (length K) = 0%Z).
Proof. split; [exact full_WF|]. exact (Clear_empties full full_WF). Defined.

(** [Put_then_Get] at the full cache, for a new key with a TTL of one
    second; the clock stands still, so the read comes before the TTL is
    over. *)
Lemma Put_then_Get_witness :
  WF full ∧ "C" ≠ "" ∧
  ∃ w1 a e w2,
    Put "C" 3 (Some Second) full = Some (None, w1) ∧
    Get "C" w1 = Some ((Some a, true), w2) ∧
    heap w2 !! a = Some e ∧ Value e = 3.
Proof.
  assert ("C" ≠ "") as Hne by done.
  split_and!; [exact full_WF|exact Hne|].
  destruct (Put_then_Get full "C" 3 (Some Second) full_WF Hne)
    as (w1 & Hput & _ & Hget).
  destruct Hget as (a & e & w2 & Hrun & He & Hv).
  { intros t Ht. vm_compute in Ht. injection Ht as <-.
    vm_compute in Hput. injection Hput as <-. vm_compute. reflexivity. }
  exists w1, a, e, w2. by split_and!.
Defined.

(** [capacity_respected] for capacity 2 and the history of [full]. *)
Lemma capacity_respected_witness :
  (0 < 2)%Z ∧
  ∃ w K,
    reach 0 2 0 clock_steady history_full = Some w ∧ Abs w K ∧ maxSize w = 2%Z ∧
    (Z.of_nat (size (data w)) ≤ 2)%Z ∧
    ∀ key value ttl,
      key ≠ "" → data w !! key = None → (2 ≤ Z.of_nat (size (data w)))%Z →
      ∃ victim a w',
        last K = Some victim ∧ is_Some (data w !! victim) ∧
        Put key value ttl w = Some (None, w') ∧
        data w' = <[key := Some a]> (delete victim (data w)) ∧
        size (data w') = size (data w) ∧
        evictions w' = incr64 (evictions w) ∧
        Abs w' (key :: removelast K) ∧
        ∀ k, is_Some (data w !! k) → k ≠ victim →
             ∃ sv sk, history 0 2 0 clock_steady history_full !! victim = Some sv ∧
                      history 0 2 0 clock_steady history_full !! k = Some sk ∧
                      sv < sk.
Proof.
  assert (0 < 2)%Z as Hpos by lia.
  split; [exact Hpos|].
  exact (capacity_respected 0 2 0 clock_steady history_full Hpos).
Defined.

(** [evicts_least_recently_touched] at the full cache: B was touched by
    operation 1, A last by operation 2. *)
Lemma evicts_least_recently_touched_witness :
  (0 < 2)%Z ∧ reach 0 2 0 clock_steady history_full = Some full ∧
  "C" ≠ "" ∧ data full !! "C" = None ∧ (2 ≤ Z.of_nat (size (data full)))%Z ∧
  ∃ victim w',
    Put "C" 3 None full = Some (None, w') ∧
    is_Some (data full !! victim) ∧ data w' !! victim = None ∧
    (∀ k, k ≠ victim → k ≠ "C" → data w' !! k = data full !! k) ∧
    evictions w' = incr64 (evictions full) ∧
    ∀ k, is_Some (data full !! k) → k ≠ victim →
         ∃ sv sk, history 0 2 0 clock_steady history_full !! victim = Some sv ∧
                  history 0 2 0 clock_steady history_full !! k = Some sk ∧ sv < sk.
Proof.
  assert (0 < 2)%Z as Hpos by lia.
  assert ("C" ≠ "") as Hne by done.
  assert (data full !! "C" = None) as Hd by (vm_compute; reflexivity).
  assert (2 ≤ Z.of_nat (size (data full)))%Z as Hfull by (vm_compute; discriminate).
  split_and!; [exact Hpos|exact full_reach|exact Hne|exact Hd|exact Hfull|].
  exact (evicts_least_recently_touched 0 2 0 clock_steady history_full full
           "C" 3 None Hpos full_reach Hne Hd Hfull).
Defined.

(** [BulkGet_reads_each_key] at the full cache, with a key listed twice. *)
Lemma BulkGet_reads_each_key_witness :
  WF full ∧
  ∃ outs response w',
    BulkGet 0 ["A"; "missing"; "A"] full = Some (response, w') ∧ WF w' ∧
    bulk_steps ["A"; "missing"; "A"] full outs w' ∧
    Found response = Z.of_nat (tally true outs) ∧
    NotFound response = Z.of_nat (tally false outs) ∧
    (Found response + NotFound response)%Z = Z.of_nat (length ["A"; "missing"; "A"]) ∧
    (∀ k, k ∈ ["A"; "missing"; "A"] →
          ∃ r, Results response !! k = Some r ∧ rKey r = k ∧
               (k, rFound r) ∈ zip ["A"; "missing"; "A"] outs) ∧
    hits w' = Nat.iter (tally true outs) incr64 (hits full) ∧
    misses w' = Nat.iter (missed ["A"; "missing"; "A"] outs) incr64 (misses full).
Proof.
  split; [exact full_WF|].
  exact (BulkGet_reads_each_key 0 full ["A"; "missing"; "A"] full_WF).
Defined.

(** * Beyond the claims, on concrete caches *)

Lemma order_full_ranges : ranges (data full) order_full.
Proof.
  split.
  - apply (bool_decide_unpack _). vm_compute. exact I.
  - apply (bool_decide_unpack _). vm_compute. exact I.
Defined.

(** [Get_miss_frame] at a key that the full cache does not hold. *)
Lemma Get_miss_frame_witness :
  WF full ∧
  Get "missing" full = Some ((None, false), full_after_get_missing) ∧
  entry_of full_after_get_missing "missing" = None ∧
  (∀ k, k ≠ "missing" → entry_of full_after_get_missing k = entry_of full k) ∧
  hits full_after_get_missing = hits full ∧ WF full_after_get_missing.
Proof.
  assert (Get "missing" full = Some ((None, false), full_after_get_missing)) as Hget
    by (vm_compute; reflexivity).
  destruct (Get_miss_frame full full_after_get_missing "missing" None full_WF Hget)
    as (_ & Hk & Hfr & _ & Hh & _ & Hwf).
  split_and!; [exact full_WF|exact Hget|exact Hk|exact Hfr|exact Hh|exact Hwf].
Defined.

(** [Get_hit_promotes] at A in the full cache. *)
Lemma Get_hit_promotes_witness :
  WF full ∧
  Get "A" full = Some ((Some 2, true), full_after_get_A) ∧
  ∃ e e',
    entry_of full "A" = Some e ∧ heap full_after_get_A !! 2 = Some e' ∧
    Value e' = Value e ∧ data full_after_get_A = data full.
Proof.
  assert (Get "A" full = Some ((Some 2, true), full_after_get_A)) as Hget
    by (vm_compute; reflexivity).
  destruct (Get_hit_promotes full full_after_get_A "A" (Some 2) full_WF Hget)
    as (a & e & e' & Ha & He & He' & _ & Hv & _ & _ & Hd & _).
  injection Ha as <-.
  split_and!; [exact full_WF|exact Hget|].
  exists e, e'. split_and!; [exact He|exact He'|exact Hv|exact Hd].
Defined.

(** [Delete_effect] at A in the full cache. *)
Lemma Delete_effect_witness :
  WF full ∧
  ∃ b w',
    Delete "A" full = Some ((b, b), w') ∧
    (b = true ↔ is_Some (data full !! "A")) ∧ entry_of w' "A" = None ∧
    Delete "A" w' = Some ((false, false), w').
Proof.
  split; [exact full_WF|].
  destruct (Delete_effect full "A" full_WF)
    as (b & w' & Hrun & Hb & Hk & _ & _ & _ & _ & _ & _ & _ & Hagain).
  exists b, w'. split_and!; [exact Hrun|exact Hb|exact Hk|exact Hagain].
Defined.

(** [Put_effect] for a new key in the full cache. *)
Lemma Put_effect_witness :
  WF full ∧ "C" ≠ "" ∧
  ∃ w' e,
    Put "C" 3 (Some Second) full = Some (None, w') ∧ WF w' ∧
    entry_of w' "C" = Some e ∧ Value e = 3 ∧
    Expiration e = putExpiration (Some Second) full.
Proof.
  assert ("C" ≠ "") as Hne by done.
  split_and!; [exact full_WF|exact Hne|].
  destruct (Put_effect full "C" 3 (Some Second) full_WF Hne)
    as (K & w' & e & _ & Hput & Hwf & Hent & _ & Hv & Hx & _).
  exists w', e. split_and!; [exact Hput|exact Hwf|exact Hent|exact Hv|exact Hx].
Defined.

(** [Put_overwrites_in_place] for A in the full cache. *)
Lemma Put_overwrites_in_place_witness :
  WF full ∧ is_Some (data full !! "A") ∧
  ∃ w' e,
    Put "A" 9 None full = Some (None, w') ∧ data w' = data full ∧
    evictions w' = evictions full ∧ entry_of w' "A" = Some e ∧ Value e = 9.
Proof.
  assert (is_Some (data full !! "A")) as Hd
    by (exists (Some 2); vm_compute; reflexivity).
  split_and!; [exact full_WF|exact Hd|].
  destruct (Put_overwrites_in_place full "A" 9 None full_WF Hd)
    as (w' & e0 & e & Hput & Hdata & Hev & _ & Hent & Hv & _).
  exists w', e. split_and!; [exact Hput|exact Hdata|exact Hev|exact Hent|exact Hv].
Defined.

(** [GetStats_consistent] after the history of the full cache, with
    integers standing for floats. *)
Lemma GetStats_consistent_witness :
  (Z.of_nat (length history_full) ≤ max_int64)%Z ∧
  ∃ w stats,
    reach 0 2 0 clock_steady history_full = Some w ∧
    GetStats 0%Z Z.div (λ _, "uptime") w = Some (stats, set_ticks (S (ticks w)) w) ∧
    (sHits stats + sMisses stats = Z.of_nat (requests history_full))%Z ∧
    sTotalRequests stats = Z.of_nat (requests history_full).
Proof.
  assert (Z.of_nat (length history_full) ≤ max_int64)%Z as Hb
    by (vm_compute; discriminate).
  split; [exact Hb|].
  destruct (GetStats_consistent 0 0%Z Z.div (λ _, "uptime") 2 0 clock_steady
              history_full Hb)
    as (w & stats & Hw & Hrun & _ & _ & Hsum & Htot & _).
  exists w, stats. split_and!; [exact Hw|exact Hrun|exact Hsum|exact Htot].
Defined.

(** [Put_Get_whole_seconds] for a TTL of one second in the full cache. *)
Lemma Put_Get_whole_seconds_witness :
  WF full ∧ "C" ≠ "" ∧ (0 < 1)%Z ∧
  ∃ w1 p found w2,
    Put "C" 3 (Some (1 * Second)%Z) full = Some (None, w1) ∧
    Get "C" w1 = Some ((p, found), w2) ∧
    (found = true ↔
       (Unix (clock full (ticks full)) + 1 = 0 ∨
        Unix (clock full (S (S (ticks full)))) ≤ Unix (clock full (ticks full)) + 1)%Z).
Proof.
  assert ("C" ≠ "") as Hne by done.
  assert (0 < 1)%Z as Ht by lia.
  split_and!; [exact full_WF|exact Hne|exact Ht|].
  destruct (Put_Get_whole_seconds full "C" 3 1 full_WF Hne Ht)
    as (w1 & p & found & w2 & Hput & Hget & Hiff & _).
  exists w1, p, found, w2. split_and!; [exact Hput|exact Hget|exact Hiff].
Defined.

(** [read_key_survives_next_insert]: A has just been read in the full cache,
    and C is inserted. *)
Lemma read_key_survives_next_insert_witness :
  WF full ∧ Get "A" full = Some ((Some 2, true), full_after_get_A) ∧
  "C" ≠ "" ∧ data full !! "C" = None ∧ 2 ≤ size (data full) ∧
  ∃ w2,
    Put "C" 3 None full_after_get_A = Some (None, w2) ∧
    is_Some (data w2 !! "A") ∧ is_Some (data w2 !! "C") ∧
    entry_of w2 "A" = entry_of full_after_get_A "A".
Proof.
  assert (Get "A" full = Some ((Some 2, true), full_after_get_A)) as Hget
    by (vm_compute; reflexivity).
  assert ("C" ≠ "") as Hne by done.
  assert (data full !! "C" = None) as Hd by (vm_compute; reflexivity).
  assert (2 ≤ size (data full)) as Hsz by (vm_compute; lia).
  split_and!; [exact full_WF|exact Hget|exact Hne|exact Hd|exact Hsz|].
  exact (read_key_survives_next_insert full full_after_get_A "A" "C" (Some 2) 3 None
           full_WF Hget Hne Hd Hsz).
Defined.

(** [GetTTL_and_IsExpired] at the entry that expired two seconds ago. *)
Lemma GetTTL_and_IsExpired_witness :
  heap expired_unswept !! 2 = Some entry_a ∧
  (- 2 ^ 63 ≤ Expiration entry_a - Unix (clock expired_unswept (ticks expired_unswept))
   ≤ max_int64)%Z ∧
  ∃ ttl expired,
    GetTTL (Some 2) expired_unswept = Some (ttl, afterIsExpired entry_a expired_unswept) ∧
    IsExpired (Some 2) expired_unswept
      = Some (expired, afterIsExpired entry_a expired_unswept) ∧
    (expired = true → ttl = 0%Z).
Proof.
  assert (heap expired_unswept !! 2 = Some entry_a) as He by (vm_compute; reflexivity).
  assert (- 2 ^ 63 ≤ Expiration entry_a
                    - Unix (clock expired_unswept (ticks expired_unswept))
          ≤ max_int64)%Z as Hr by (vm_compute; split; discriminate).
  split; [exact He|]. split; [exact Hr|].
  destruct (GetTTL_and_IsExpired expired_unswept 2 entry_a He)
    as (ttl & expired & Httl & Hexp & _ & _ & Hin).
  destruct (Hin Hr) as (_ & Hz & _).
  exists ttl, expired. split_and!; [exact Httl|exact Hexp|exact Hz].
Defined.

(** Outside that range the difference wraps: for an entry whose expiration
    is the least [int64], [IsExpired] answers true and [GetTTL] a large
    positive number. *)
Example GetTTL_wraps_at_least_expiration :
  (fst <$> GetTTL (Some 2) full_least, fst <$> IsExpired (Some 2) full_least)
  = (Some 9223372036854775803%Z, Some true).
Proof. vm_compute. reflexivity. Qed.

(** [SetExpiration_then_GetTTL] for a minute on the entry of A. *)
Lemma SetExpiration_then_GetTTL_witness :
  heap full !! 2 = Some entry_A ∧ (0 < 60)%Z ∧
  (Unix (clock full (ticks full)) + 60 ≠ 0)%Z ∧
  (- 2 ^ 63 ≤ 60 - (Unix (clock full (S (ticks full))) - Unix (clock full (ticks full)))
   ≤ max_int64)%Z ∧
  ∃ w1 ttl w2,
    SetExpiration (Some 2) (60 * Second)%Z full = Some (tt, w1) ∧
    GetTTL (Some 2) w1 = Some (ttl, w2) ∧
    ttl = Z.max 0 (60 - (Unix (clock full (S (ticks full)))
                         - Unix (clock full (ticks full)))).
Proof.
  assert (heap full !! 2 = Some entry_A) as He by (vm_compute; reflexivity).
  assert (0 < 60)%Z as Ht by lia.
  assert (Unix (clock full (ticks full)) + 60 ≠ 0)%Z as Hnz by (vm_compute; discriminate).
  assert (- 2 ^ 63 ≤ 60 - (Unix (clock full (S (ticks full)))
                          - Unix (clock full (ticks full)))
          ≤ max_int64)%Z as Hr by (vm_compute; split; discriminate).
  split; [exact He|]. split; [exact Ht|]. split; [exact Hnz|]. split; [exact Hr|].
  destruct (SetExpiration_then_GetTTL full 2 entry_A 60 He)
    as (w1 & ttl & w2 & Hset & Hget & _ & Hpos).
  destruct (Hpos Ht Hnz) as (_ & Hin).
  exists w1, ttl, w2. split_and!; [exact Hset|exact Hget|exact (Hin Hr)].
Defined.

(** [ListKeys_lists_index] at the full cache. *)
Lemma ListKeys_lists_index_witness :
  ranges (data full) order_full ∧
  ∃ keys,
    ListKeys order_full full = Some (keys, full) ∧ keys = order_full ∧
    NoDup keys ∧ (∀ k, k ∈ keys ↔ is_Some (data full !! k)) ∧
    length keys = size (data full).
Proof.
  split; [exact order_full_ranges|].
  exact (ListKeys_lists_index full order_full order_full_ranges).
Defined.

(** [handler_GetKeys_limits] at the full cache with a limit of 1. *)
Lemma handler_GetKeys_limits_witness :
  ranges (data full) order_full ∧
  ∃ body,
    handler_GetKeys Atoi_one (Some "1") order_full order_full order_full full
      = Some ((200%Z, body), full) ∧
    kKeys body = take (Z.to_nat (keysLimit Atoi_one (Some "1"))) order_full ∧
    kCount body = Z.min (Z.of_nat (size (data full))) (keysLimit Atoi_one (Some "1")) ∧
    kLimited body = (keysLimit Atoi_one (Some "1") <? Z.of_nat (size (data full)))%Z.
Proof.
  split; [exact order_full_ranges|].
  destruct (handler_GetKeys_limits Atoi_one full (Some "1") order_full order_full
              order_full order_full_ranges order_full_ranges order_full_ranges)
    as (body & Hrun & _ & Hkeys & Hcount & Hlim & _).
  exists body. split_and!; [exact Hrun|exact Hkeys|exact Hcount|exact Hlim].
Defined.

(** [BulkPut_counts] for one good item and one with an empty key. *)
Lemma BulkPut_counts_witness :
  WF full ∧
  ∃ (response : BulkPutResponse) w',
    BulkPut bulk_items full = Some (response, w') ∧
    run (item_op <$> bulk_items) full = Some (tt, w') ∧ WF w' ∧
    (Successful response + Failed response = Z.of_nat (length bulk_items))%Z ∧
    Errors response =
      replicate (Z.to_nat (Failed response)) "Key '': key cannot be empty".
Proof.
  split; [exact full_WF|].
  destruct (BulkPut_counts full bulk_items full_WF)
    as (response & w' & Hrun & Hrun2 & Hwf & _ & _ & Hsum & Herr).
  exists response, w'. split_and!; [exact Hrun|exact Hrun2|exact Hwf|exact Hsum|exact Herr].
Defined.

(** [BulkPut_last_item] with the good item last. *)
Lemma BulkPut_last_item_witness :
  WF full ∧ pKey item_C ≠ "" ∧
  ∃ (response : BulkPutResponse) w1 w' e,
    run (item_op <$> [item_empty]) full = Some (tt, w1) ∧
    BulkPut ([item_empty] ++ [item_C]) full = Some (response, w') ∧
    entry_of w' (pKey item_C) = Some e ∧ Value e = pValue item_C.
Proof.
  assert (pKey item_C ≠ "") as Hne by done.
  split_and!; [exact full_WF|exact Hne|].
  destruct (BulkPut_last_item full [item_empty] item_C full_WF Hne)
    as (response & w1 & w' & e & Hrun1 & Hrun & Hent & Hv & _).
  exists response, w1, w', e. split_and!; [exact Hrun1|exact Hrun|exact Hent|exact Hv].
Defined.

(** [sweep_removes_expired_only] on the cache that holds an expired entry. *)
Lemma sweep_removes_expired_only_witness :
  WF expired_unswept ∧
  ∃ w' K K',
    cleanupExpired ["a"] expired_unswept = Some (tt, w') ∧
    Abs expired_unswept K ∧ Abs w' K' ∧ sublist K' K ∧ WF w' ∧
    expiredRemovals w'
      = Nat.iter (length K - length K') incr64 (expiredRemovals expired_unswept).
Proof.
  split; [exact expired_unswept_WF|].
  destruct (sweep_removes_expired_only expired_unswept ["a"] expired_unswept_WF)
    as (w' & K & K' & Hrun & Ha & Ha' & Hsub & Hwf & _ & _ & _ & Her & _).
  exists w', K, K'.
  split_and!; [exact Hrun|exact Ha|exact Ha'|exact Hsub|exact Hwf|exact Her].
Defined.

(** [sweep_exact_at_fixed_time] on the same cache: the clock shows second 8
    from the third reading on. *)
Lemma sweep_exact_at_fixed_time_witness :
  WF expired_unswept ∧ ranges (data expired_unswept) ["a"] ∧
  (∀ n, ticks expired_unswept ≤ n → clock expired_unswept n = 8000000000%Z) ∧
  ∃ w' K,
    cleanupExpired ["a"] expired_unswept = Some (tt, w') ∧
    Abs expired_unswept K ∧
    Abs w' (filter (λ k, expired_key expired_unswept 8000000000 k = false) K) ∧
    (∀ k, is_Some (data w' !! k) ↔
          is_Some (data expired_unswept !! k) ∧
          expired_key expired_unswept 8000000000 k = false).
Proof.
  assert (ranges (data expired_unswept) ["a"]) as Hr.
  { split; apply (bool_decide_unpack _); vm_compute; exact I. }
  assert (∀ n, ticks expired_unswept ≤ n → clock expired_unswept n = 8000000000%Z)
    as Hclk.
  { intros n Hn. change (3 ≤ n) in Hn. change (clock_late n = 8000000000%Z).
    unfold clock_late. destruct (Nat.ltb_spec n 3); [lia|reflexivity]. }
  split_and!; [exact expired_unswept_WF|exact Hr|exact Hclk|].
  destruct (sweep_exact_at_fixed_time expired_unswept ["a"] 8000000000
              expired_unswept_WF Hr Hclk)
    as (w' & K & Hrun & Ha & Ha' & Hdom & _).
  exists w', K. split_and!; [exact Hrun|exact Ha|exact Ha'|exact Hdom].
Defined.

(** [handler_Get_answers] for A in the full cache. *)
Lemma handler_Get_answers_witness :
  WF full ∧
  ∃ status body w',
    handler_Get 0 "A" full = Some ((status, body), w') ∧ WF w' ∧
    (status = 400%Z ↔ "A" = "") ∧
    (status = 200%Z ↔
       "A" ≠ "" ∧
       ∃ e, entry_of full "A" = Some e ∧
            expiredAt e (clock full (ticks full)) = false).
Proof.
  split; [exact full_WF|].
  destruct (handler_Get_answers 0 full "A" full_WF)
    as (status & body & w' & Hrun & Hwf & _ & H400 & _ & H200 & _).
  exists status, body, w'. split_and!; [exact Hrun|exact Hwf|exact H400|exact H200].
Defined.

(** [handler_Delete_answers] for A in the full cache. *)
Lemma handler_Delete_answers_witness :
  WF full ∧
  ∃ status body w',
    handler_Delete "A" full = Some ((status, body), w') ∧ WF w' ∧
    (status = 200%Z ↔ is_Some (data full !! "A")) ∧
    entry_of w' "A" = None.
Proof.
  split; [exact full_WF|].
  destruct (handler_Delete_answers full "A" full_WF)
    as (status & body & w' & Hrun & Hwf & _ & _ & H200 & _ & Hk & _).
  exists status, body, w'. split_and!; [exact Hrun|exact Hwf|exact H200|exact Hk].
Defined.

End Witness.
